(** * Query engine of the object store: condition nodes, link maps, values

    A shallow embedding of the parts of the engine that its design
    document makes statements about:

    - [ParentNode::find_first], the conjunction loop over condition nodes;
    - [NotNode] and its cached known range;
    - [StringNodeEqualBase::find_first_local] (index cursor) and
      [StringNode<Equal>] (needle fusion);
    - [LinkMap::map_links];
    - [Mixed::compare] and [_impl::compare_float];
    - [Obj::add_int];

    and of the code around them: [ParentNode::aggregate_local],
    [StringNode<EqualIns>::_search_index_init], [LinkMap::set_base_table],
    [LinkMap::collect_dependencies], [LinkMap::get_origin_ndxs],
    [_impl::compare_binary], [ConstObj::cmp], the string case of [out_mixed],
    and [ConstLstIf<T>::sort] and [ConstLstIf<T>::distinct].

    Rows, counters and sizes are [size_t]: they are modelled as [Z] with the
    64-bit wrap-around written out where the code does arithmetic.  Code that
    mutates a node (cursor, cache, statistics) is modelled by explicit state
    passing in a small state-and-failure monad; a loop whose termination
    depends on virtual calls carries fuel and fails when it runs out. *)

From Stdlib Require Import ZArith Lia Bool List Sorted.
From Stdlib Require String.
From stdpp Require Import base list.
Import ListNotations.

Local Open Scope Z_scope.

(** ** [size_t] *)

Module SizeT.

Definition modulus : Z := 2 ^ 64.

(** [realm::not_found] and [realm::npos]: the largest [size_t]. *)
Definition not_found : Z := modulus - 1.
Definition npos : Z := not_found.

Definition wrap (z : Z) : Z := z mod modulus.
Definition add (a b : Z) : Z := wrap (a + b).
Definition sub (a b : Z) : Z := wrap (a - b).

Definition in_range (z : Z) : Prop := 0 <= z < modulus.

Lemma modulus_eq : modulus = 18446744073709551616.
Proof. reflexivity. Qed.

Lemma not_found_eq : not_found = 18446744073709551615.
Proof. reflexivity. Qed.

Lemma add_small a b : 0 <= a + b < modulus -> add a b = a + b.
Proof. intros H. unfold add, wrap. now apply Z.mod_small. Qed.

Lemma sub_small a b : 0 <= a - b < modulus -> sub a b = a - b.
Proof. intros H. unfold sub, wrap. now apply Z.mod_small. Qed.

Lemma succ_small i e : 0 <= i -> i < e -> e <= not_found -> add i 1 = i + 1.
Proof.
  intros H0 H1 H2. apply add_small. rewrite not_found_eq in H2.
  rewrite modulus_eq. lia.
Qed.

End SizeT.

Import SizeT.

Global Opaque SizeT.modulus.

(** ** State with failure

    [M S A] is a computation over a mutable object of type [S] that either
    produces a value and the new object, or fails ([None]: out of fuel, or an
    access the language leaves undefined). *)

Definition M (S A : Type) : Type := S -> option (A * S).

Definition ret {S A} (a : A) : M S A := fun s => Some (a, s).

Definition bind {S A B} (m : M S A) (k : A -> M S B) : M S B :=
  fun s => match m s with
           | Some (a, s') => k a s'
           | None => None
           end.

Declare Scope monad_scope.
Delimit Scope monad_scope with monad.
Notation "x <- m ;; k" := (bind m (fun x => k))
  (at level 100, m at next level, right associativity) : monad_scope.
Notation "m ;;; k" := (bind m (fun _ => k))
  (at level 100, right associativity) : monad_scope.

Lemma bind_Some {S A B} (m : M S A) (k : A -> M S B) s a s' :
  m s = Some (a, s') -> bind m k s = k a s'.
Proof. intros H. unfold bind. now rewrite H. Qed.

(** ** First match of a predicate in a row range

    The reference against which the scans are compared: the smallest row of
    [[a,b)] at which [p] holds, else [not_found]. *)

Fixpoint first_from (p : Z -> bool) (n : nat) (i : Z) : Z :=
  match n with
  | O => not_found
  | S n' => if p i then i else first_from p n' (i + 1)
  end.

Definition first_match (p : Z -> bool) (a b : Z) : Z :=
  first_from p (Z.to_nat (b - a)) a.

Inductive is_first (p : Z -> bool) (a b : Z) : Z -> Prop :=
| is_first_none :
    (forall i, a <= i < b -> p i = false) -> is_first p a b not_found
| is_first_at r :
    a <= r < b -> p r = true -> (forall i, a <= i < r -> p i = false) ->
    is_first p a b r.

Lemma first_from_spec p n i :
  0 <= i -> i + Z.of_nat n <= not_found ->
  is_first p i (i + Z.of_nat n) (first_from p n i).
Proof.
  revert i. induction n as [|n IH]; intros i H0 Hb; simpl first_from.
  - constructor. intros j Hj. lia.
  - destruct (p i) eqn:Hp.
    + apply is_first_at; [lia | assumption | intros j Hj; lia].
    + specialize (IH (i + 1) ltac:(lia) ltac:(lia)).
      replace (i + 1 + Z.of_nat n) with (i + Z.of_nat (S n)) in IH by lia.
      inversion IH as [Hall Heq | r Hr Hpr Hall Heq].
      * apply is_first_none. intros j Hj.
        destruct (Z.eq_dec j i) as [->|Hne]; [assumption | apply Hall; lia].
      * apply is_first_at; [lia | assumption |].
        intros j Hj.
        destruct (Z.eq_dec j i) as [->|Hne]; [assumption | apply Hall; lia].
Qed.

Lemma first_match_spec p a b :
  0 <= a -> a <= b -> b <= not_found -> is_first p a b (first_match p a b).
Proof.
  intros H0 Hab Hb. unfold first_match.
  pose proof (first_from_spec p (Z.to_nat (b - a)) a H0) as H.
  replace (a + Z.of_nat (Z.to_nat (b - a))) with b in H by lia.
  apply H. assumption.
Qed.

Lemma is_first_unique p a b r1 r2 :
  is_first p a b r1 -> is_first p a b r2 -> b <= not_found -> r1 = r2.
Proof.
  intros H1 H2 Hb.
  destruct H1 as [Hall1 | r1 Hr1 Hp1 Hall1]; destruct H2 as [Hall2 | r2 Hr2 Hp2 Hall2].
  - reflexivity.
  - rewrite Hall1 in Hp2 by lia. discriminate.
  - rewrite Hall2 in Hp1 by lia. discriminate.
  - destruct (Z.lt_trichotomy r1 r2) as [Hlt | [Heq | Hgt]]; [| assumption |].
    + rewrite Hall2 in Hp1 by lia. discriminate.
    + rewrite Hall1 in Hp2 by lia. discriminate.
Qed.

Lemma first_match_empty p a b : b <= a -> first_match p a b = not_found.
Proof.
  intros H. unfold first_match.
  replace (Z.to_nat (b - a)) with O by lia. reflexivity.
Qed.

Lemma first_match_lt_not_found p a b :
  0 <= a -> a <= b -> b <= not_found ->
  first_match p a b <> not_found -> a <= first_match p a b < b.
Proof.
  intros H0 Hab Hb Hne.
  destruct (first_match_spec p a b H0 Hab Hb) as [Hall | r Hr Hp Hall];
    [congruence | assumption].
Qed.

(** How answers for parts of a range combine. *)

Lemma is_first_extend p a m b r :
  is_first p a m r -> r <> not_found -> m <= b -> is_first p a b r.
Proof.
  intros H Hne Hmb. destruct H as [Hall | r Hr Hp Hall]; [congruence|].
  apply is_first_at; [lia | assumption | assumption].
Qed.

Lemma is_first_append p a m b r :
  is_first p a m not_found -> m <= not_found -> is_first p m b r -> a <= m ->
  is_first p a b r.
Proof.
  intros H1 Hm H2 Ham.
  assert (Hall1 : forall i, a <= i < m -> p i = false).
  { inversion H1 as [Hall Hnf | r' Hr' Hp' Hall Hr'']; [assumption | lia]. }
  destruct H2 as [Hall2 | r Hr Hp Hall2].
  - apply is_first_none. intros i Hi.
    destruct (Z.lt_ge_cases i m); [apply Hall1 | apply Hall2]; lia.
  - apply is_first_at; [lia | assumption |]. intros i Hi.
    destruct (Z.lt_ge_cases i m); [apply Hall1 | apply Hall2]; lia.
Qed.

Lemma is_first_restrict p a b r a' b' :
  is_first p a b r -> a <= a' -> a' <= r -> r < b' -> b' <= b ->
  is_first p a' b' r.
Proof.
  intros H Ha Har Hrb Hb. destruct H as [Hall | r Hr Hp Hall].
  - apply is_first_none. intros i Hi. apply Hall. lia.
  - apply is_first_at; [lia | assumption |]. intros i Hi. apply Hall. lia.
Qed.

Lemma is_first_before p a b r a' b' :
  is_first p a b r -> a <= a' -> b' <= b -> b' <= r ->
  is_first p a' b' not_found.
Proof.
  intros H Ha Hb Hr. apply is_first_none. intros i Hi.
  destruct H as [Hall | r Hr' Hp Hall]; apply Hall; lia.
Qed.

Lemma is_first_eq p a b r :
  0 <= a -> a <= b -> b <= not_found -> is_first p a b r -> r = first_match p a b.
Proof.
  intros H0 Hab Hb H. eapply is_first_unique; [exact H | | exact Hb].
  now apply first_match_spec.
Qed.

Lemma is_first_bound p a b r : is_first p a b r -> r = not_found \/ a <= r < b.
Proof. intros [Hall | r' Hr Hp Hall]; [now left | now right]. Qed.

(** The last row a scan of a range looked at, from its answer: the answer
    when there is one, else the last row of the range. *)
Definition reach (res end_ : Z) : Z := if res =? not_found then end_ - 1 else res.

(** All rows of [[a,b)] at which [p] holds, in ascending order. *)
Fixpoint rows_where (p : Z -> bool) (n : nat) (i : Z) : list Z :=
  match n with
  | O => []
  | S n' => if p i then i :: rows_where p n' (i + 1) else rows_where p n' (i + 1)
  end.

Definition matching (p : Z -> bool) (a b : Z) : list Z :=
  rows_where p (Z.to_nat (b - a)) a.






(** ** A scanning leaf: [StringNode<EqualIns>::_find_first_local]

    The unindexed case-insensitive string node walks the rows of the leaf and
    returns the first one whose string satisfies the condition.  The string
    test [cond(m_value, m_ucase, m_lcase, get_string(s))] is the row predicate
    [row_matches]. *)

Module StringNodeEqualIns.

Record t := { row_matches : Z -> bool }.

(** [for (size_t s = start; s < end; ++s) if (cond(...)) return s;] *)
Fixpoint scan (n : t) (count : nat) (s end_ : Z) : Z :=
  match count with
  | O => not_found
  | S count' =>
      if s <? end_ then
        if row_matches n s then s else scan n count' (SizeT.add s 1) end_
      else not_found
  end.

Definition _find_first_local (start end_ : Z) : M t Z :=
  fun n => Some (scan n (Z.to_nat (end_ - start)) start end_, n).

Lemma scan_first_from n count s end_ :
  0 <= s -> s + Z.of_nat count = end_ -> end_ <= not_found ->
  scan n count s end_ = first_from (row_matches n) count s.
Proof.
  revert s. induction count as [|count IH]; intros s H0 Hs He; [reflexivity|].
  simpl. destruct (Z.ltb_spec s end_); [|lia].
  destruct (row_matches n s); [reflexivity|].
  rewrite (SizeT.succ_small s end_) by assumption.
  apply IH; lia.
Qed.

Lemma _find_first_local_first_match n a b :
  0 <= a -> a <= b -> b <= not_found ->
  _find_first_local a b n = Some (first_match (row_matches n) a b, n).
Proof.
  intros H0 Hab Hb. unfold _find_first_local, first_match.
  rewrite scan_first_from; [reflexivity | assumption | lia | assumption].
Qed.

(** The node decides [p] when its row test is [p]. *)
Definition decides (p : Z -> bool) (n : t) : Prop := row_matches n = p.

Lemma contract p n a b :
  decides p n -> 0 <= a -> a < b -> b <= not_found ->
  exists n', _find_first_local a b n = Some (first_match p a b, n') /\ decides p n'.
Proof.
  intros Hd H0 Hab Hb. exists n. split; [|assumption].
  rewrite <- Hd. apply _find_first_local_first_match; lia.
Qed.

(** X1.  The scan returns, leaves the node as it was, and answers the smallest
    row of [[start, end)] whose string satisfies the condition, [not_found]
    when no row of the range does (and when the range is empty). *)
Theorem scan_returns_smallest_matching_row n start end_ :
  0 <= start -> end_ <= not_found ->
  exists r,
    _find_first_local start end_ n = Some (r, n)
    /\ is_first (row_matches n) start end_ r.
Proof.
  intros H0 He. destruct (Z.le_gt_cases start end_) as [Hse | Hse].
  - exists (first_match (row_matches n) start end_). split.
    + now apply _find_first_local_first_match.
    + now apply first_match_spec.
  - exists not_found. split.
    + unfold _find_first_local. replace (Z.to_nat (end_ - start)) with O by lia.
      reflexivity.
    + apply is_first_none. intros i Hi. lia.
Qed.

Lemma scan_returns_smallest_matching_row_witness :
  exists r,
    _find_first_local 3 10 {| row_matches := fun r => r mod 4 =? 0 |}
    = Some (r, {| row_matches := fun r => r mod 4 =? 0 |})
    /\ is_first (fun r => r mod 4 =? 0) 3 10 r.
Proof.
  apply (scan_returns_smallest_matching_row
           {| row_matches := fun r => r mod 4 =? 0 |} 3 10).
  - lia.
  - rewrite SizeT.not_found_eq. lia.
Defined.

End StringNodeEqualIns.

(** ** [ParentNode::find_first]: the conjunction loop *)

Module ParentNode.

Section Conjunction.

Context {N : Type}.

(** The children's virtual [find_first_local(start, end)]; a call may change
    the child it is made on. *)
Variable find_first_local : Z -> Z -> M N Z.

(** The [while] loop of [find_first], one iteration per unit of fuel.
    [m_children[current_cond]] outside the vector is undefined in the source
    and fails here. *)
Fixpoint find_first_loop (fuel : nat) (sz current_cond nb_cond_to_test start end_ : Z)
    : M (list N) Z :=
  fun m_children =>
    match fuel with
    | O => None
    | S fuel' =>
        if start <? end_ then
          match m_children !! Z.to_nat current_cond with
          | None => None
          | Some child =>
              match find_first_local start end_ child with
              | None => None
              | Some (m, child') =>
                  let m_children' := <[Z.to_nat current_cond := child']> m_children in
                  let nb := if negb (m =? start) then sz else nb_cond_to_test in
                  let start' := if negb (m =? start) then m else start in
                  let nb' := SizeT.sub nb 1 in
                  if nb' =? 0 then Some (m, m_children')
                  else
                    let cc := SizeT.add current_cond 1 in
                    let cc' := if cc =? sz then 0 else cc in
                    find_first_loop fuel' sz cc' nb' start' end_ m_children'
              end
          end
        else Some (not_found, m_children)
    end.

Definition find_first (fuel : nat) (start end_ : Z) : M (list N) Z :=
  fun m_children =>
    let sz := Z.of_nat (length m_children) in
    find_first_loop fuel sz 0 sz start end_ m_children.

(** Fuel that always suffices when the children never return a row before
    [start]: every iteration either moves [start] forward or uses up one of
    the conditions still to test. *)
Definition enough_fuel (sz start end_ : Z) : nat :=
  S (Z.to_nat ((end_ - start + 1) * sz)).

End Conjunction.

(** Every condition of the conjunction holds at row [r]. *)
Definition all_match (ps : list (Z -> bool)) (r : Z) : bool :=
  forallb (fun p => p r) ps.

Lemma all_match_false ps i p r :
  ps !! i = Some p -> p r = false -> all_match ps r = false.
Proof.
  revert i. induction ps as [|q ps IH]; intros i Hl Hp; [discriminate|].
  unfold all_match in *. simpl. destruct i as [|i]; simpl in Hl.
  - injection Hl as ->. now rewrite Hp.
  - rewrite (IH i Hl Hp). apply andb_false_r.
Qed.

Lemma all_match_true ps r :
  (forall i p, ps !! i = Some p -> p r = true) -> all_match ps r = true.
Proof.
  induction ps as [|q ps IH]; intros H; [reflexivity|].
  unfold all_match in *. simpl. rewrite (H O q eq_refl). simpl.
  apply IH. intros i p Hl. apply (H (S i) p Hl).
Qed.

Section Correctness.

Context {N : Type}.
Variable find_first_local : Z -> Z -> M N Z.

(** [NodeInv p n]: node [n] is in a state in which it decides the row
    predicate [p]. *)
Variable NodeInv : (Z -> bool) -> N -> Prop.

(** The contract of [find_first_local] on a non-empty range: the first row of
    the range at which the node's condition holds, else [not_found]. *)
Hypothesis find_first_local_contract :
  forall p n a b, NodeInv p n -> 0 <= a -> a < b -> b <= not_found ->
    exists n', find_first_local a b n = Some (first_match p a b, n') /\ NodeInv p n'.

(** The conditions at the [k] positions before [c], cyclically. *)
Definition verified (sz c k : Z) (i : nat) : Prop :=
  (c - k <= Z.of_nat i < c) \/ (c - k + sz <= Z.of_nat i).

Lemma find_first_loop_correct (ps : list (Z -> bool)) a end_ :
  0 <= a -> end_ <= not_found ->
  forall fuel children c nb start,
    Forall2 NodeInv ps children ->
    let sz := Z.of_nat (length children) in
    sz <= not_found ->
    0 <= c < sz -> 1 <= nb <= sz ->
    a <= start ->
    (forall r, a <= r < start -> r < end_ -> all_match ps r = false) ->
    (start < end_ ->
     forall i p, ps !! i = Some p -> verified sz c (sz - nb) i -> p start = true) ->
    (if start <? end_ then (end_ - start) * sz + nb else 0) < Z.of_nat fuel ->
    exists res children',
      find_first_loop find_first_local fuel sz c nb start end_ children
        = Some (res, children')
      /\ is_first (all_match ps) a end_ res
      /\ Forall2 NodeInv ps children'.
Proof.
  intros Ha Hend fuel.
  induction fuel as [|fuel IH]; intros children c nb start HF sz Hsz Hc Hnb Hstart Hbefore Hver Hfuel.
  { exfalso. destruct (Z.ltb_spec start end_); [nia | lia]. }
  simpl find_first_loop.
  destruct (Z.ltb_spec start end_) as [Hlt | Hge].
  2:{ exists not_found, children. split; [reflexivity|]. split; [|assumption].
      apply is_first_none. intros r Hr. apply Hbefore; lia. }
  assert (Hlen : length ps = length children) by (eapply Forall2_length; eassumption).
  destruct (lookup_lt_is_Some_2 children (Z.to_nat c) ltac:(lia)) as [child Hchild].
  destruct (lookup_lt_is_Some_2 ps (Z.to_nat c) ltac:(lia)) as [p Hp].
  rewrite Hchild.
  assert (Hinv : NodeInv p child) by (eapply Forall2_lookup_lr; eassumption).
  destruct (find_first_local_contract p child start end_ Hinv ltac:(lia) Hlt Hend)
    as (child' & Hcall & Hinv').
  rewrite Hcall.
  set (m := first_match p start end_) in *.
  assert (HF' : Forall2 NodeInv ps (<[Z.to_nat c := child']> children)).
  { rewrite <- (list_insert_id ps (Z.to_nat c) p Hp). now apply Forall2_insert. }
  assert (Hlen' : Z.of_nat (length (<[Z.to_nat c := child']> children)) = sz).
  { rewrite length_insert. reflexivity. }
  pose proof (first_match_spec p start end_ ltac:(lia) ltac:(lia) Hend) as Hm.
  fold m in Hm.
  assert (Hcc : (if SizeT.add c 1 =? sz then 0 else SizeT.add c 1)
                = if c + 1 =? sz then 0 else c + 1).
  { rewrite SizeT.add_small; [reflexivity|]. rewrite SizeT.modulus_eq.
    rewrite SizeT.not_found_eq in Hsz. lia. }
  rewrite Hcc. clear Hcc.
  set (c' := if c + 1 =? sz then 0 else c + 1).
  assert (Hc' : 0 <= c' < sz) by (unfold c'; destruct (Z.eqb_spec (c + 1) sz); lia).
  assert (Hverstep : forall k i, 0 <= k -> k < sz ->
            verified sz c' (k + 1) i -> Z.of_nat i < sz ->
            Z.of_nat i = c \/ verified sz c k i).
  { intros k i Hk0 Hk Hv Hi. unfold verified in *. unfold c' in Hv.
    destruct (Z.eqb_spec (c + 1) sz); lia. }
  destruct (Z.eqb_spec m start) as [Heq | Hne]; simpl negb; cbv iota.
  - (* the current condition matches at [start] *)
    assert (Hpstart : p start = true).
    { inversion Hm as [Hall Hnf | r Hr Hpr Hall Hr']; [|congruence].
      rewrite SizeT.not_found_eq in *. lia. }
    rewrite SizeT.sub_small
      by (rewrite SizeT.modulus_eq; rewrite SizeT.not_found_eq in Hsz; lia).
    destruct (Z.eqb_spec (nb - 1) 0) as [Hz | Hnz].
    + exists m, (<[Z.to_nat c := child']> children).
      split; [reflexivity|]. split; [|assumption].
      rewrite Heq. apply is_first_at; [lia | | intros r Hr; apply Hbefore; lia].
      apply all_match_true. intros i q Hq.
      assert (Hi : (i < length ps)%nat) by (apply lookup_lt_is_Some_1; eauto).
      destruct (Z.eq_dec (Z.of_nat i) c) as [Hic | Hic].
      * replace i with (Z.to_nat c) in Hq by lia. congruence.
      * apply (Hver Hlt i q Hq). unfold verified. lia.
    + rewrite <- Hlen'.
      apply IH; rewrite ?Hlen'; try assumption; try lia.
      * intros _ i q Hq Hv.
        assert (Hi : (i < length ps)%nat) by (apply lookup_lt_is_Some_1; eauto).
        replace (sz - (nb - 1)) with (sz - nb + 1) in Hv by lia.
        destruct (Hverstep (sz - nb) i ltac:(lia) ltac:(lia) Hv ltac:(lia)) as [Hic | Hv'].
        -- replace i with (Z.to_nat c) in Hq by lia. congruence.
        -- now apply (Hver Hlt i q Hq).
      * destruct (Z.ltb_spec start end_); [|lia].
        destruct (start <? end_); lia.
  - (* the current condition moved [start] forward *)
    rewrite SizeT.sub_small
      by (rewrite SizeT.modulus_eq; rewrite SizeT.not_found_eq in Hsz; lia).
    assert (Hbefore' : forall r, a <= r < m -> r < end_ -> all_match ps r = false).
    { intros r Hr Hre. destruct (Z.lt_ge_cases r start) as [Hrs | Hrs].
      - apply Hbefore; lia.
      - apply (all_match_false ps (Z.to_nat c) p r Hp).
        inversion Hm as [Hall Hnf | r' Hr' Hpr Hall Hr'']; apply Hall; lia. }
    assert (Hmrange : m = not_found \/ (start < m < end_ /\ p m = true)).
    { inversion Hm as [Hall Hnf | r' Hr' Hpr Hall Hr'']; [now left | right].
      split; [lia | assumption]. }
    destruct (Z.eqb_spec (sz - 1) 0) as [Hz | Hnz].
    + exists m, (<[Z.to_nat c := child']> children).
      split; [reflexivity|]. split; [|assumption].
      assert (Hall1 : forall r, all_match ps r = p r).
      { intros r. destruct ps as [|q [|q' ps']]; simpl in Hlen; try lia.
        replace (Z.to_nat c) with O in Hp by lia. simpl in Hp.
        injection Hp as ->. unfold all_match. simpl. apply andb_true_r. }
      destruct Hmrange as [Hnf | [Hr Hpm]].
      * rewrite Hnf. apply is_first_none. intros r Hr.
        destruct (Z.lt_ge_cases r m); [apply Hbefore'; lia|].
        rewrite Hnf in *. lia.
      * apply is_first_at; [lia | now rewrite Hall1 | intros r Hr'; apply Hbefore'; lia].
    + rewrite <- Hlen'.
      apply IH; rewrite ?Hlen'; try assumption; try lia.
      * intros Hmlt i q Hq Hv.
        assert (Hi : (i < length ps)%nat) by (apply lookup_lt_is_Some_1; eauto).
        replace (sz - (sz - 1)) with (0 + 1) in Hv by lia.
        destruct (Hverstep 0 i ltac:(lia) ltac:(lia) Hv ltac:(lia)) as [Hic | Hv'].
        -- replace i with (Z.to_nat c) in Hq by lia.
           destruct Hmrange as [Hnf | [Hr Hpm]]; [|congruence].
           rewrite Hnf in Hmlt. lia.
        -- unfold verified in Hv'. lia.
      * destruct (Z.ltb_spec start end_); [|lia].
        destruct (Z.ltb_spec m end_); nia.
Qed.

(** Node [n] reports a match at row [r]: asked for the one-row range
    [[r, r+1)] it answers [r]. *)
Definition reports_match (r : Z) (n : N) : Prop :=
  exists n', find_first_local r (r + 1) n = Some (r, n').

Lemma reports_match_iff p n r :
  NodeInv p n -> 0 <= r -> r < not_found ->
  reports_match r n <-> p r = true.
Proof.
  intros Hinv H0 Hr.
  destruct (find_first_local_contract p n r (r + 1) Hinv H0 ltac:(lia) ltac:(lia))
    as (n' & Hcall & _).
  unfold reports_match. rewrite Hcall.
  unfold first_match. replace (Z.to_nat (r + 1 - r)) with 1%nat by lia.
  simpl. destruct (p r).
  - split; [reflexivity | intros _; now exists n'].
  - split; [|discriminate]. intros (n'' & Heq). injection Heq as Heq _. lia.
Qed.

Lemma all_report_iff ps children r :
  Forall2 NodeInv ps children -> 0 <= r -> r < not_found ->
  Forall (reports_match r) children <-> all_match ps r = true.
Proof.
  intros HF H0 Hr. induction HF as [|p n ps children Hpn HF IH].
  - split; [reflexivity | constructor].
  - unfold all_match in *. simpl. rewrite andb_true_iff, <- IH.
    rewrite <- (reports_match_iff p n r Hpn H0 Hr).
    split; [intros H; inversion H; subst; now split | intros [H1 H2]; now constructor].
Qed.

(** [find_first] returns, and what it returns is the first row of the range
    at which all conditions hold. *)
Lemma find_first_run (ps : list (Z -> bool)) (children : list N) (a b : Z) (fuel : nat) :
  Forall2 NodeInv ps children ->
  (1 <= length children)%nat ->
  Z.of_nat (length children) <= not_found ->
  0 <= a -> b <= not_found ->
  (enough_fuel (Z.of_nat (length children)) a b <= fuel)%nat ->
  exists res children',
    find_first find_first_local fuel a b children = Some (res, children')
    /\ Forall2 NodeInv ps children'
    /\ is_first (all_match ps) a b res.
Proof.
  intros HF Hlen Hsz Ha Hb Hfuel.
  unfold find_first.
  set (sz := Z.of_nat (length children)) in *.
  destruct (find_first_loop_correct ps a b Ha Hb fuel children 0 sz a HF Hsz)
    as (res & children' & Hrun & Hfirst & HF').
  - lia.
  - lia.
  - lia.
  - intros r Hr. lia.
  - intros _ i p Hp Hv. unfold verified in Hv.
    assert ((i < length ps)%nat) by (apply lookup_lt_is_Some_1; eauto).
    pose proof (Forall2_length _ _ _ HF). lia.
  - unfold enough_fuel in Hfuel. fold sz.
    destruct (Z.ltb_spec a b); [|lia].
    assert (0 <= (b - a + 1) * sz) by nia.
    replace ((b - a) * sz + sz) with ((b - a + 1) * sz) by lia. lia.
  - exists res, children'. now repeat split.
Qed.

(** On a one-row range the conjunction answers [not_found] exactly when
    some condition fails at the row: the form in which [NotNode] uses its
    wrapped query. *)
Lemma find_first_one_row (ps : list (Z -> bool)) (children : list N) (r : Z) (fuel : nat) :
  Forall2 NodeInv ps children ->
  (1 <= length children)%nat ->
  Z.of_nat (length children) <= not_found ->
  (S (2 * length children) <= fuel)%nat ->
  0 <= r -> r < not_found ->
  exists m children',
    find_first find_first_local fuel r (r + 1) children = Some (m, children')
    /\ (m =? not_found) = negb (all_match ps r)
    /\ Forall2 NodeInv ps children'.
Proof.
  intros HF Hlen Hsz Hfuel H0 Hr.
  destruct (find_first_run ps children r (r + 1) fuel HF Hlen Hsz H0 ltac:(lia))
    as (m & children' & Hrun & HF' & Hfirst).
  { unfold enough_fuel. replace (r + 1 - r + 1) with 2 by lia. lia. }
  exists m, children'. split; [exact Hrun|]. split; [|exact HF'].
  destruct Hfirst as [Hall | r' Hr' Hp Hall].
  - rewrite Hall by lia. now rewrite Z.eqb_refl.
  - assert (r' = r) by lia. subst r'. rewrite Hp.
    apply Z.eqb_neq. lia.
Qed.

(** X29.  For every conjunction of condition nodes that keep the contract of
    [find_first_local], and every row range [[a,b)], [find_first(a,b)]
    returns (given [enough_fuel], so it does return) the smallest row of
    [[a,b)] at which every child reports a match, and [not_found] when there
    is no such row. *)
Theorem find_first_smallest_common_match
    (ps : list (Z -> bool)) (children : list N) (a b : Z) (fuel : nat) :
  Forall2 NodeInv ps children ->
  (1 <= length children)%nat ->
  Z.of_nat (length children) <= not_found ->
  0 <= a -> b <= not_found ->
  (enough_fuel (Z.of_nat (length children)) a b <= fuel)%nat ->
  exists res children',
    find_first find_first_local fuel a b children = Some (res, children')
    /\ Forall2 NodeInv ps children'
    /\ res = first_match (all_match ps) a b
    /\ ((a <= res < b
         /\ Forall (reports_match res) children'
         /\ forall r, a <= r < res -> ~ Forall (reports_match r) children')
        \/ (res = not_found
            /\ forall r, a <= r < b -> ~ Forall (reports_match r) children')).
Proof.
  intros HF Hlen Hsz Ha Hb Hfuel.
  destruct (find_first_run ps children a b fuel HF Hlen Hsz Ha Hb Hfuel)
    as (res & children' & Hrun & HF' & Hfirst).
  exists res, children'. split; [exact Hrun|]. split; [exact HF'|].
  assert (Hres : res = first_match (all_match ps) a b).
  { destruct (Z.le_gt_cases a b) as [Hab | Hab].
    - eapply is_first_unique; [exact Hfirst | | exact Hb].
      now apply first_match_spec.
    - rewrite first_match_empty by lia.
      inversion Hfirst as [Hall Hnf | r Hr Hpr Hall Hr']; [reflexivity | lia]. }
  split; [exact Hres|].
  assert (Hnot : forall r, a <= r -> r < b -> all_match ps r = false ->
                   ~ Forall (reports_match r) children').
  { intros r Hr1 Hr2 Hfalse Hall.
    apply (all_report_iff ps children' r HF') in Hall; [congruence | lia | lia]. }
  inversion Hfirst as [Hall Hnf | r Hr Hpr Hall Hr'].
  + right. split; [reflexivity|]. intros r Hr. apply Hnot; [lia | lia | now apply Hall].
  + left. subst r. split; [exact Hr|]. split.
    * apply (all_report_iff ps children' res HF'); [lia | lia | exact Hpr].
    * intros r' Hr'. apply Hnot; [lia | lia | now apply Hall].
Qed.

End Correctness.

(** *** [ParentNode::aggregate_local] *)

Section Aggregate.

Context {N St : Type}.
Variable find_first_local : Z -> Z -> M N Z.

(** [m_column_action_specializer] applied to the query state and a
    matching row; [false] stops the aggregation. *)
Variable action : Z -> St -> bool * St.

(** [for (size_t c = 1; c < m_children.size(); c++)]: the other
    conditions are asked about row [r] alone, until one does not answer
    [r]; the result is the last answer ([r] when there is no other
    condition). *)
Fixpoint check_others (r : Z) (others : list N) : option (Z * list N) :=
  match others with
  | [] => Some (r, [])
  | child :: others' =>
      match find_first_local r (SizeT.add r 1) child with
      | None => None
      | Some (m, child') =>
          if negb (m =? r) then Some (m, child' :: others')
          else
            match check_others r others' with
            | Some (m', others'') => Some (m', child' :: others'')
            | None => None
            end
      end
  end.

(** The [for (;;)] loop.  The state is the node the function is called
    on, followed by the other conditions ([m_children] from 1 on), and the
    query state.  The statistics [m_dD] written on return are left out. *)
Fixpoint aggregate_loop (fuel : nat) (end_ local_limit r local_matches : Z)
    : M (list N * St) Z :=
  fun '(m_children, st) =>
    match fuel with
    | O => None
    | S fuel' =>
        if local_matches =? local_limit then Some (SizeT.add r 1, (m_children, st))
        else
          match m_children with
          | [] => None
          | this :: others =>
              let pos := SizeT.add r 1 in
              match find_first_local pos end_ this with
              | None => None
              | Some (r, this') =>
                  if r =? not_found then Some (end_, (this' :: others, st))
                  else
                    let local_matches := SizeT.add local_matches 1 in
                    match check_others r others with
                    | None => None
                    | Some (m, others') =>
                        if m =? r then
                          let '(cont, st') := action r st in
                          if cont then
                            aggregate_loop fuel' end_ local_limit r local_matches
                              (this' :: others', st')
                          else Some (SizeT.wrap (-1), (this' :: others', st'))
                        else
                          aggregate_loop fuel' end_ local_limit r local_matches
                            (this' :: others', st)
                    end
              end
          end
    end.

Definition aggregate_local (fuel : nat) (start end_ local_limit : Z) : M (list N * St) Z :=
  aggregate_loop fuel end_ local_limit (SizeT.sub start 1) 0.

End Aggregate.

(** The action of a query that gathers all matches: the row is added and
    the aggregation goes on. *)
Definition collect (r : Z) (rows : list Z) : bool * list Z := (true, rows ++ [r]).

Section AggregateOneNode.

Context {N : Type}.
Variable find_first_local : Z -> Z -> M N Z.
Variable p : Z -> bool.
Variable end_ : Z.

(** [RInv lo n]: node [n] answers the requests [[start, end_)] that start
    at [lo] or later with the first row at which [p] holds, and after an
    answer goes on doing so from that row. *)
Variable RInv : Z -> N -> Prop.
Hypothesis range_contract :
  forall lo n start, RInv lo n -> lo <= start -> 0 <= start -> start <= end_ ->
    exists n', find_first_local start end_ n = Some (first_match p start end_, n')
               /\ RInv (Z.max lo (reach (first_match p start end_) end_)) n'.
Hypothesis end_range : end_ <= not_found.



End AggregateOneNode.

(** A conjunction of two scanning leaves: rows from 2 on, and even rows. *)
Definition example_children : list StringNodeEqualIns.t :=
  [ {| StringNodeEqualIns.row_matches := fun r => 2 <=? r |};
    {| StringNodeEqualIns.row_matches := fun r => r mod 2 =? 0 |} ].

Example find_first_example :
  find_first StringNodeEqualIns._find_first_local 30 1 10 example_children
  = Some (2, example_children).
Proof. vm_compute. reflexivity. Qed.

Example find_first_example_none :
  find_first StringNodeEqualIns._find_first_local 30 0 2 example_children
  = Some (not_found, example_children).
Proof. vm_compute. reflexivity. Qed.

Lemma find_first_smallest_common_match_witness :
  exists res children',
    find_first StringNodeEqualIns._find_first_local 30 1 10 example_children
      = Some (res, children')
    /\ Forall2 StringNodeEqualIns.decides
         [fun r => 2 <=? r; fun r => r mod 2 =? 0] children'
    /\ res = first_match (all_match [fun r => 2 <=? r; fun r => r mod 2 =? 0]) 1 10
    /\ ((1 <= res < 10
         /\ Forall (reports_match StringNodeEqualIns._find_first_local res) children'
         /\ forall r, 1 <= r < res ->
              ~ Forall (reports_match StringNodeEqualIns._find_first_local r) children')
        \/ (res = not_found
            /\ forall r, 1 <= r < 10 ->
                 ~ Forall (reports_match StringNodeEqualIns._find_first_local r) children')).
Proof.
  apply (find_first_smallest_common_match
           StringNodeEqualIns._find_first_local StringNodeEqualIns.decides
           StringNodeEqualIns.contract
           [fun r => 2 <=? r; fun r => r mod 2 =? 0] example_children 1 10 30).
  - repeat constructor.
  - simpl. lia.
  - rewrite SizeT.not_found_eq. simpl. lia.
  - lia.
  - rewrite SizeT.not_found_eq. lia.
  - vm_compute. lia.
Defined.

(** *** The aggregation over a conjunction

    [aggregate_local] is called on the first node of a query; the other
    nodes are asked about each row the first node finds. *)









Section AggregateConjunction.

Context {N St : Type}.
Variable find_first_local : Z -> Z -> M N Z.
Variable action : Z -> St -> bool * St.

(** [NodeInv p n]: node [n] is in a state in which it decides the row
    predicate [p].  The contract of [find_first_local] here covers every
    range, the empty one included: the aggregation asks the first node about
    [[r + 1, end)] after a match at row [r], which is empty when [r] is the
    last row. *)
Variable NodeInv : (Z -> bool) -> N -> Prop.
Hypothesis range_contract :
  forall p n a b, NodeInv p n -> 0 <= a -> a <= b -> b <= not_found ->
    exists n', find_first_local a b n = Some (first_match p a b, n') /\ NodeInv p n'.







End AggregateConjunction.





Section AggregateCollect.

Context {N : Type}.
Variable find_first_local : Z -> Z -> M N Z.
Variable NodeInv : (Z -> bool) -> N -> Prop.
Hypothesis range_contract :
  forall p n a b, NodeInv p n -> 0 <= a -> a <= b -> b <= not_found ->
    exists n', find_first_local a b n = Some (first_match p a b, n') /\ NodeInv p n'.



End AggregateCollect.


Example aggregate_local_example :
  aggregate_local StringNodeEqualIns._find_first_local collect 11 0 10 100
    (example_children, [])
  = Some (10, (example_children, [2; 4; 6; 8])).
Proof. vm_compute. reflexivity. Qed.

Example aggregate_local_example_limit :
  aggregate_local StringNodeEqualIns._find_first_local collect 11 0 10 3
    (example_children, [])
  = Some (5, (example_children, [2; 4])).
Proof. vm_compute. reflexivity. Qed.

Definition return_first (r : Z) (st : option Z) : bool * option Z := (false, Some r).

Example aggregate_local_example_first :
  aggregate_local StringNodeEqualIns._find_first_local return_first 11 3 10 100
    (example_children, None)
  = Some (not_found, (example_children, Some 4)).
Proof. vm_compute. reflexivity. Qed.




End ParentNode.


(** ** [NotNode]: negation of a query, with a cached known range *)

Module NotNode.

(** [m_condition] is the wrapped query (its own mutable state, type [Q]);
    the other three fields are the heuristics bookkeeping. *)
Record t (Q : Type) := mk {
  m_condition : Q;
  m_known_range_start : Z;
  m_known_range_end : Z;
  m_first_in_known_range : Z
}.
Arguments mk {Q}.
Arguments m_condition {Q}.
Arguments m_known_range_start {Q}.
Arguments m_known_range_end {Q}.
Arguments m_first_in_known_range {Q}.

Section Node.

Context {Q : Type}.

(** [m_condition->find_first(start, end)]. *)
Variable cond_find_first : Z -> Z -> M Q Z.

Definition read {A} (f : t Q -> A) : M (t Q) A := fun n => Some (f n, n).

Definition with_condition (n : t Q) (q : Q) : t Q :=
  mk q (m_known_range_start n) (m_known_range_end n) (m_first_in_known_range n).

Local Open Scope monad_scope.

Definition evaluate_at (rowndx : Z) : M (t Q) bool :=
  fun n =>
    match cond_find_first rowndx (SizeT.add rowndx 1) (m_condition n) with
    | None => None
    | Some (m, q') => Some (m =? not_found, with_condition n q')
    end.

Definition update_known (start end_ first : Z) : M (t Q) unit :=
  fun n => Some (tt, mk (m_condition n) start end_ first).

(** [for (size_t i = start; i < end; ++i)]: at most [end - start] rounds. *)
Fixpoint find_first_loop_from (count : nat) (i end_ : Z) : M (t Q) Z :=
  match count with
  | O => ret not_found
  | S count' =>
      if i <? end_ then
        b <- evaluate_at i ;;
        if b : bool then ret i else find_first_loop_from count' (SizeT.add i 1) end_
      else ret not_found
  end.

Definition find_first_loop (start end_ : Z) : M (t Q) Z :=
  find_first_loop_from (Z.to_nat (end_ - start)) start end_.

Definition find_first_covers_known (start end_ : Z) : M (t Q) Z :=
  known_start <- read m_known_range_start ;;
  result <- find_first_loop start known_start ;;
  if negb (result =? not_found) then
    known_end <- read m_known_range_end ;;
    update_known start known_end result ;;;
    ret result
  else
    first <- read m_first_in_known_range ;;
    if negb (first =? not_found) then
      known_end <- read m_known_range_end ;;
      update_known start known_end first ;;;
      ret first
    else
      known_end <- read m_known_range_end ;;
      result <- find_first_loop known_end end_ ;;
      update_known start end_ result ;;;
      ret result.

Definition find_first_covered_by_known (start end_ : Z) : M (t Q) Z :=
  first <- read m_first_in_known_range ;;
  if negb (first =? not_found) then
    if end_ <? first then ret not_found
    else if start <=? first then ret first
    else find_first_loop start end_
  else find_first_loop start end_.

Definition find_first_overlap_lower (start end_ : Z) : M (t Q) Z :=
  known_start <- read m_known_range_start ;;
  result <- find_first_loop start known_start ;;
  first <- read m_first_in_known_range ;;
  let result := if result =? not_found then first else result in
  known_end <- read m_known_range_end ;;
  update_known start known_end result ;;;
  ret (if result <? end_ then result else not_found).

Definition find_first_overlap_upper (start end_ : Z) : M (t Q) Z :=
  first <- read m_first_in_known_range ;;
  known_start <- read m_known_range_start ;;
  if negb (first =? not_found) then
    if start <=? first then
      update_known known_start end_ first ;;;
      ret first
    else
      result <- find_first_loop start end_ ;;
      update_known known_start end_ first ;;;
      ret result
  else
    known_end <- read m_known_range_end ;;
    result <- find_first_loop known_end end_ ;;
    update_known known_start end_ result ;;;
    ret result.

Definition find_first_no_overlap (start end_ : Z) : M (t Q) Z :=
  result <- find_first_loop start end_ ;;
  known_start <- read m_known_range_start ;;
  known_end <- read m_known_range_end ;;
  if SizeT.sub known_end known_start <? SizeT.sub end_ start then
    update_known start end_ result ;;;
    ret result
  else ret result.

Definition find_first_local (start end_ : Z) : M (t Q) Z :=
  known_start <- read m_known_range_start ;;
  known_end <- read m_known_range_end ;;
  if (start <=? known_start) && (known_end <=? end_) then
    find_first_covers_known start end_
  else if (known_start <=? start) && (end_ <=? known_end) then
    find_first_covered_by_known start end_
  else if (start <? known_start) && (known_start <=? end_) then
    find_first_overlap_lower start end_
  else if (start <=? known_end) && (known_end <? end_) then
    find_first_overlap_upper start end_
  else
    find_first_no_overlap start end_.

(** The wrapped query matches at [row]: the test of [ParentNode::match],
    [find_first(row, row + 1) != npos]. *)
Definition condition_matches (row : Z) : M Q bool :=
  fun q =>
    match cond_find_first row (SizeT.add row 1) q with
    | None => None
    | Some (m, q') => Some (negb (m =? npos), q')
    end.

End Node.

(** Asking a row test about each row of a list, in the order of the list. *)
Fixpoint probe {S : Type} (test : Z -> M S bool) (rows : list Z) : M S (list bool) :=
  match rows with
  | [] => ret []
  | r :: rows' =>
      bind (test r) (fun b => bind (probe test rows') (fun bs => ret (b :: bs)))
  end.

Section Reasoning.

Context {Q : Type}.
Variable cond_find_first : Z -> Z -> M Q Z.

(** The wrapped query decides [inner_matches] on one-row ranges:
    [find_first(r, r+1)] is [not_found] exactly when it has no match at [r].
    [QInv lo q] says that in state [q] it does so for every row from [lo]
    on.  A query without memory does so for every row in every good state
    ([QInv] ignores [lo]); a query that keeps a cache may rely on being
    asked about rows in ascending order, and [lo] is the last row it was
    asked about. *)
Variable inner_matches : Z -> bool.
Variable QInv : Z -> Q -> Prop.
Hypothesis cond_contract :
  forall q lo r, QInv lo q -> lo <= r -> 0 <= r -> r < not_found ->
    exists m q', cond_find_first r (r + 1) q = Some (m, q')
                 /\ (m =? not_found) = negb (inner_matches r)
                 /\ QInv r q'.
Hypothesis QInv_mono : forall q lo lo', QInv lo q -> lo <= lo' -> QInv lo' q.

(** The row predicate of the negation. *)
Definition negated (r : Z) : bool := negb (inner_matches r).

Lemma evaluate_at_run n lo r :
  QInv lo (m_condition n) -> lo <= r -> 0 <= r -> r < not_found ->
  exists q', evaluate_at cond_find_first r n = Some (negated r, with_condition n q')
             /\ QInv r q'.
Proof.
  intros Hq Hlo H0 Hr. unfold evaluate_at.
  rewrite SizeT.add_small
    by (rewrite SizeT.modulus_eq; rewrite SizeT.not_found_eq in Hr; lia).
  destruct (cond_contract (m_condition n) lo r Hq Hlo H0 Hr) as (m & q' & Hc & Hm & Hq').
  rewrite Hc, Hm. exists q'. now split.
Qed.

Lemma with_condition_twice (n : t Q) q1 q2 :
  with_condition (with_condition n q1) q2 = with_condition n q2.
Proof. reflexivity. Qed.

Lemma with_condition_same (n : t Q) : with_condition n (m_condition n) = n.
Proof. now destruct n. Qed.

Lemma first_from_bound p count i :
  0 <= i -> i + Z.of_nat count <= not_found ->
  first_from p count i = not_found \/ i <= first_from p count i < i + Z.of_nat count.
Proof.
  intros H0 Hb. apply is_first_bound with (p := p). now apply first_from_spec.
Qed.

Lemma find_first_loop_from_run count : forall n lo i end_,
  QInv lo (m_condition n) -> lo <= i ->
  0 <= i -> i + Z.of_nat count = end_ -> end_ <= not_found ->
  exists q', find_first_loop_from cond_find_first count i end_ n
             = Some (first_from negated count i, with_condition n q')
             /\ QInv (Z.max lo (reach (first_from negated count i) end_)) q'.
Proof.
  induction count as [|count IH]; intros n lo i end_ Hq Hlo H0 Hi He.
  - exists (m_condition n). simpl. unfold ret. rewrite with_condition_same.
    split; [reflexivity|]. apply (QInv_mono _ lo); [assumption | lia].
  - simpl. destruct (Z.ltb_spec i end_); [|lia].
    destruct (evaluate_at_run n lo i Hq Hlo H0 ltac:(lia)) as (q1 & E1 & Hq1).
    rewrite (bind_Some _ _ _ _ _ E1).
    destruct (negated i).
    + exists q1. split; [reflexivity|].
      apply (QInv_mono _ i); [assumption|]. unfold reach.
      destruct (Z.eqb_spec i not_found); lia.
    + rewrite (SizeT.succ_small i end_) by assumption.
      destruct (IH (with_condition n q1) i (i + 1) end_ Hq1 ltac:(lia) ltac:(lia)
                  ltac:(lia) He) as (q2 & E2 & Hq2).
      exists q2. rewrite E2, with_condition_twice. split; [reflexivity|].
      eapply QInv_mono; [exact Hq2|].
      pose proof (first_from_bound negated count (i + 1) ltac:(lia) ltac:(lia)) as Hb.
      unfold reach.
      destruct (Z.eqb_spec (first_from negated count (i + 1)) not_found); lia.
Qed.

(** The loop returns: the first row of [[a,b)] at which the negation holds;
    the wrapped query was asked about the rows up to that one. *)
Lemma find_first_loop_run n lo a b :
  QInv lo (m_condition n) -> lo <= a -> 0 <= a -> b <= not_found ->
  exists q', find_first_loop cond_find_first a b n
             = Some (first_match negated a b, with_condition n q')
             /\ QInv (Z.max lo (reach (first_match negated a b) b)) q'.
Proof.
  intros Hq Hlo H0 Hb. unfold find_first_loop, first_match.
  destruct (Z.le_gt_cases a b) as [Hab | Hab].
  - apply find_first_loop_from_run; [assumption | assumption | assumption | lia | assumption].
  - replace (Z.to_nat (b - a)) with O by lia.
    exists (m_condition n). simpl. unfold ret. rewrite with_condition_same.
    split; [reflexivity|]. apply (QInv_mono _ lo); [assumption | lia].
Qed.

(** The answer and the new cache of [find_first_local], with every scan
    replaced by what it returns: used to reason about the node, the node
    itself is [find_first_local] above. *)
Definition answer (c : Z * Z * Z) (start end_ : Z) : Z * (Z * Z * Z) :=
  let '(ks, ke, first) := c in
  if (start <=? ks) && (ke <=? end_) then
    let r := first_match negated start ks in
    if negb (r =? not_found) then (r, (start, ke, r))
    else if negb (first =? not_found) then (first, (start, ke, first))
    else let r2 := first_match negated ke end_ in (r2, (start, end_, r2))
  else if (ks <=? start) && (end_ <=? ke) then
    if negb (first =? not_found) then
      if end_ <? first then (not_found, c)
      else if start <=? first then (first, c)
      else (first_match negated start end_, c)
    else (first_match negated start end_, c)
  else if (start <? ks) && (ks <=? end_) then
    let r := first_match negated start ks in
    let r' := if r =? not_found then first else r in
    ((if r' <? end_ then r' else not_found), (start, ke, r'))
  else if (start <=? ke) && (ke <? end_) then
    if negb (first =? not_found) then
      if start <=? first then (first, (ks, end_, first))
      else (first_match negated start end_, (ks, end_, first))
    else let r := first_match negated ke end_ in (r, (ks, end_, r))
  else
    let r := first_match negated start end_ in
    (r, if SizeT.sub ke ks <? SizeT.sub end_ start then (start, end_, r) else c).

Definition cache_of (n : t Q) : Z * Z * Z :=
  (m_known_range_start n, m_known_range_end n, m_first_in_known_range n).

Definition with_cache (q : Q) (c : Z * Z * Z) : t Q :=
  let '(ks, ke, first) := c in mk q ks ke first.

Lemma first_match_cases p a b :
  0 <= a -> b <= not_found ->
  first_match p a b = not_found
  \/ (a <= first_match p a b < b /\ p (first_match p a b) = true).
Proof.
  intros H0 Hb. destruct (Z.le_gt_cases a b) as [Hab | Hab].
  - destruct (first_match_spec p a b H0 Hab Hb) as [Hall | r Hr Hp Hall];
      [now left | right; now split].
  - left. apply first_match_empty. lia.
Qed.

Ltac bool_hyps :=
  repeat match goal with
         | H : andb _ _ = true |- _ => apply andb_true_iff in H; destruct H
         | H : andb _ _ = false |- _ => apply andb_false_iff in H
         | H : negb _ = true |- _ => apply negb_true_iff in H
         | H : negb _ = false |- _ => apply negb_false_iff in H
         | H : (_ <=? _) = true |- _ => apply Z.leb_le in H
         | H : (_ <=? _) = false |- _ => apply Z.leb_gt in H
         | H : (_ <? _) = true |- _ => apply Z.ltb_lt in H
         | H : (_ <? _) = false |- _ => apply Z.ltb_ge in H
         | H : (_ =? _) = true |- _ => apply Z.eqb_eq in H
         | H : (_ =? _) = false |- _ => apply Z.eqb_neq in H
         end.

Ltac case_if :=
  match goal with
  | |- context [if ?b then _ else _] =>
      let E := fresh "E" in destruct b eqn:E; bool_hyps
  end.


(** The last row [find_first_local] asks the wrapped query about ([start - 1]
    when it asks about none), following the cases of [answer]. *)
Definition probed (c : Z * Z * Z) (start end_ : Z) : Z :=
  let '(ks, ke, first) := c in
  if (start <=? ks) && (ke <=? end_) then
    let r := first_match negated start ks in
    if negb (r =? not_found) then r
    else if negb (first =? not_found) then ks - 1
    else reach (first_match negated ke end_) end_
  else if (ks <=? start) && (end_ <=? ke) then
    if negb (first =? not_found) then
      if end_ <? first then start - 1
      else if start <=? first then start - 1
      else reach (first_match negated start end_) end_
    else reach (first_match negated start end_) end_
  else if (start <? ks) && (ks <=? end_) then
    reach (first_match negated start ks) ks
  else if (start <=? ke) && (ke <? end_) then
    if negb (first =? not_found) then
      if start <=? first then start - 1
      else reach (first_match negated start end_) end_
    else reach (first_match negated ke end_) end_
  else reach (first_match negated start end_) end_.

Ltac tidy :=
  cbv beta iota;
  cbn [with_condition with_cache fst snd m_condition m_known_range_start
       m_known_range_end m_first_in_known_range].

Ltac solve_bound :=
  simpl; unfold reach in *;
  repeat match goal with
         | |- context [?a =? ?b] => destruct (Z.eqb_spec a b)
         | H : context [?a =? ?b] |- _ => destruct (Z.eqb_spec a b)
         end;
  lia.

Ltac run_loop Hq :=
  match goal with
  | |- context [find_first_loop _ ?a ?b ?n] =>
      let q := fresh "q" in
      let E := fresh "E" in
      let Hq' := fresh "Hq" in
      destruct (find_first_loop_run n _ a b Hq ltac:(solve_bound) ltac:(simpl; lia)
                  ltac:(simpl; lia))
        as (q & E & Hq');
      rewrite E; clear E; tidy
  end.

Ltac finish q Hq :=
  exists q; split; [reflexivity | eapply QInv_mono; [exact Hq | solve_bound]].

(** [find_first_local] returns, and its answer and new cache are [answer];
    the wrapped query was asked about rows from [start] up to [probed]. *)
Lemma find_first_local_run n lo start end_ :
  QInv lo (m_condition n) -> lo <= start ->
  0 <= m_known_range_start n ->
  m_known_range_start n <= m_known_range_end n ->
  m_known_range_end n <= not_found ->
  0 <= start -> end_ <= not_found ->
  exists q',
    find_first_local cond_find_first start end_ n
    = Some (fst (answer (cache_of n) start end_),
            with_cache q' (snd (answer (cache_of n) start end_)))
    /\ QInv (Z.max lo (probed (cache_of n) start end_)) q'.
Proof.
  intros Hq Hlo Hks0 Hkse Hke1 Hs He.
  destruct n as [q ks ke first]. simpl in *.
  pose proof (first_match_cases negated start ks Hs ltac:(lia)) as C1.
  pose proof (first_match_cases negated ke end_ ltac:(lia) He) as C2.
  pose proof (first_match_cases negated start end_ Hs He) as C3.
  unfold find_first_local, answer, probed, cache_of, bind, read. tidy.
  destruct ((start <=? ks) && (ke <=? end_)) eqn:B1; bool_hyps.
  { unfold find_first_covers_known, bind, read, update_known, ret. tidy.
    run_loop Hq.
    destruct (negb (first_match negated start ks =? not_found)) eqn:F1; bool_hyps; tidy.
    { finish q0 Hq0. }
    destruct (negb (first =? not_found)) eqn:F2; bool_hyps; tidy.
    { finish q0 Hq0. }
    run_loop Hq0. finish q1 Hq1. }
  destruct ((ks <=? start) && (end_ <=? ke)) eqn:B2; bool_hyps.
  { unfold find_first_covered_by_known, bind, read, ret. tidy.
    destruct (negb (first =? not_found)) eqn:F2; bool_hyps; tidy.
    - destruct (end_ <? first) eqn:F3; bool_hyps; tidy; [finish q Hq|].
      destruct (start <=? first) eqn:F4; bool_hyps; tidy; [finish q Hq|].
      run_loop Hq. finish q0 Hq0.
    - run_loop Hq. finish q0 Hq0. }
  destruct ((start <? ks) && (ks <=? end_)) eqn:B3; bool_hyps.
  { unfold find_first_overlap_lower, bind, read, update_known, ret. tidy.
    run_loop Hq. finish q0 Hq0. }
  destruct ((start <=? ke) && (ke <? end_)) eqn:B4; bool_hyps.
  { unfold find_first_overlap_upper, bind, read, update_known, ret. tidy.
    destruct (negb (first =? not_found)) eqn:F2; bool_hyps; tidy.
    - destruct (start <=? first) eqn:F4; bool_hyps; tidy; [finish q Hq|].
      run_loop Hq. finish q0 Hq0.
    - run_loop Hq. finish q0 Hq0. }
  unfold find_first_no_overlap, bind, read, update_known, ret. tidy.
  run_loop Hq.
  destruct (SizeT.sub ke ks <? SizeT.sub end_ start); tidy; finish q0 Hq0.
Qed.

(** *** The cache invariant *)


(** The stronger fact that also holds: the cached row is the first row of
    the known range at which the negation holds. *)
Definition sound (c : Z * Z * Z) : Prop :=
  let '(ks, ke, first) := c in
  0 <= ks /\ ks <= ke /\ ke <= not_found /\ is_first negated ks ke first.




(** *** What [find_first_local] answers

    With a sound cache the answer is the first row of the request at which
    the negation holds, with one exception: a request inside the known range
    whose [end] is the cached row gets that row, which lies outside the
    request. *)

Definition stale_hit (c : Z * Z * Z) (start end_ : Z) : Prop :=
  let '(ks, ke, first) := c in
  ks <= start /\ end_ <= ke /\ first = end_ /\ first <> not_found.

Ltac wrap_up :=
  cbv zeta; cbn [fst snd]; repeat split; try lia; try assumption;
  try (intros _; assumption).

Ltac split_bool_hyps :=
  repeat match goal with
         | H : (_ = false) \/ (_ = false) |- _ => destruct H
         end;
  bool_hyps; try (exfalso; lia).

Lemma answer_sound c start end_ :
  sound c -> 0 <= start -> start <= end_ -> end_ <= not_found ->
  sound (snd (answer c start end_))
  /\ snd (fst (snd (answer c start end_))) <= Z.max (snd (fst c)) end_
  /\ (stale_hit c start end_ -> fst (answer c start end_) = end_)
  /\ (~ stale_hit c start end_ ->
      is_first negated start end_ (fst (answer c start end_))).
Proof.
  destruct c as [[ks ke] first]. intros (H0 & H1 & H2 & H3) Hs Hse He.
  unfold answer, stale_hit, sound. cbn [fst snd].
  pose proof (is_first_bound _ _ _ _ H3) as B3.
  case_if.
  { (* the request covers the known range *)
    pose proof (first_match_spec negated start ks Hs ltac:(lia) ltac:(lia)) as F1.
    assert (Hst : ~ (ks <= start /\ end_ <= ke /\ first = end_ /\ first <> not_found)) by lia.
    case_if.
    { assert (G : is_first negated start ke (first_match negated start ks))
        by (eapply is_first_extend; eauto).
      wrap_up.
      intros _. eapply is_first_extend; eauto. }
    match goal with H : first_match _ _ _ = not_found |- _ => rewrite H in F1 end.
    case_if.
    { assert (G : is_first negated start ke first)
        by (eapply is_first_append; eauto; lia).
      wrap_up.
      intros _. eapply is_first_extend; eauto. }
    subst first.
    pose proof (first_match_spec negated ke end_ ltac:(lia) ltac:(lia) He) as F2.
    assert (G : is_first negated start end_ (first_match negated ke end_)).
    { eapply (is_first_append _ start ks); eauto; try lia.
      eapply (is_first_append _ ks ke); eauto; lia. }
    wrap_up. }
  case_if.
  { (* the request lies inside the known range *)
    pose proof (first_match_spec negated start end_ Hs Hse He) as F3.
    case_if.
    - case_if.
      { wrap_up.
        intros _. apply (is_first_before _ ks ke first); [exact H3 | lia ..]. }
      case_if.
      { wrap_up.
        intros Hn. apply (is_first_restrict _ ks ke); [exact H3 | lia ..]. }
      wrap_up.
    - wrap_up. }
  case_if.
  { (* partial overlap, lower end *)
    pose proof (first_match_spec negated start ks Hs ltac:(lia) ltac:(lia)) as F1.
    cbv zeta.
    assert (G : is_first negated start ke
                  (if first_match negated start ks =? not_found then first
                   else first_match negated start ks)).
    { case_if.
      - match goal with H : first_match _ _ _ = not_found |- _ => rewrite H in F1 end.
        eapply is_first_append; eauto; lia.
      - eapply is_first_extend; eauto. }
    pose proof (is_first_bound _ _ _ _ G) as BG.
    split_bool_hyps.
    wrap_up.
    intros _. case_if.
    - apply (is_first_restrict _ start ke); [exact G | lia ..].
    - eapply (is_first_before _ start ke); [exact G | lia ..]. }
  case_if.
  { (* partial overlap, upper end *)
    pose proof (first_match_spec negated start end_ Hs Hse He) as F3.
    pose proof (first_match_spec negated ke end_ ltac:(lia) ltac:(lia) He) as F2.
    split_bool_hyps.
    case_if.
    - assert (G : is_first negated ks end_ first)
        by (eapply is_first_extend; eauto; lia).
      case_if.
      + wrap_up.
        intros _. apply (is_first_restrict _ ks end_); [exact G | lia ..].
      + wrap_up.
    - subst first. cbv zeta.
      assert (G : is_first negated ks end_ (first_match negated ke end_))
        by (eapply is_first_append; eauto; lia).
      wrap_up.
      intros _. apply (is_first_append _ start ke); [| lia | exact F2 | lia].
      apply (is_first_before _ ks ke not_found); [exact H3 | lia ..]. }
  (* no overlap *)
  pose proof (first_match_spec negated start end_ Hs Hse He) as F3.
  cbv zeta. case_if; wrap_up.
Qed.

Lemma cache_of_with_cache (q : Q) c : cache_of (with_cache q c) = c.
Proof. now destruct c as [[ks ke] first]. Qed.

Lemma m_condition_with_cache (q : Q) c : m_condition (with_cache q c) = q.
Proof. now destruct c as [[ks ke] first]. Qed.

Lemma sound_range c :
  sound c -> 0 <= fst (fst c) /\ fst (fst c) <= snd (fst c) /\ snd (fst c) <= not_found.
Proof. destruct c as [[ks ke] first]. intros (H0 & H1 & H2 & _). now repeat split. Qed.

(** The cached row after a call: the old one, none, or a row of the
    request. *)
Lemma answer_first c start end_ :
  0 <= fst (fst c) -> fst (fst c) <= snd (fst c) -> snd (fst c) <= not_found ->
  0 <= start -> start <= end_ -> end_ <= not_found ->
  let first' := snd (snd (answer c start end_)) in
  first' = snd c \/ first' = not_found \/ start <= first' < end_.
Proof.
  destruct c as [[ks ke] first]. cbn [fst snd]. intros H0 H1 H2 Hs Hse He.
  pose proof (first_match_cases negated start ks Hs ltac:(lia)) as C1.
  pose proof (first_match_cases negated ke end_ ltac:(lia) He) as C2.
  pose proof (first_match_cases negated start end_ Hs He) as C3.
  unfold answer.
  case_if.
  { case_if; [cbn [fst snd]; lia|]. case_if; cbn [fst snd]; lia. }
  case_if.
  { repeat case_if; cbn [fst snd]; lia. }
  case_if.
  { cbv zeta. cbn [fst snd]. case_if; lia. }
  case_if.
  { repeat case_if; cbn [fst snd]; lia. }
  cbv zeta. case_if; cbn [fst snd]; lia.
Qed.

Lemma first_with_cache (q : Q) c : m_first_in_known_range (with_cache q c) = snd c.
Proof. now destruct c as [[ks ke] first]. Qed.

Lemma end_with_cache (q : Q) c : m_known_range_end (with_cache q c) = snd (fst c).
Proof. now destruct c as [[ks ke] first]. Qed.

(** With a sound cache the rows asked about end at the answer. *)
Lemma probed_le c start end_ :
  sound c -> 0 <= start -> start <= end_ -> end_ <= not_found ->
  probed c start end_ <= reach (fst (answer c start end_)) end_.
Proof.
  destruct c as [[ks ke] first]. intros (H0 & H1 & H2 & H3) Hs Hse He.
  pose proof (is_first_bound _ _ _ _ H3) as B3.
  pose proof (first_match_cases negated start ks Hs ltac:(lia)) as C1.
  pose proof (first_match_cases negated ke end_ ltac:(lia) He) as C2.
  pose proof (first_match_cases negated start end_ Hs He) as C3.
  unfold probed, answer. cbv zeta.
  repeat case_if; cbn [fst snd]; solve_bound.
Qed.

(** With a sound cache [find_first_local] returns; the cache stays sound,
    the known range does not grow past the request, the wrapped query was
    asked about rows up to the answer, and the answer is the first row of
    the request at which the negation holds unless the request is a stale
    hit, which is answered by its own [end]. *)
Lemma find_first_local_answer n lo start end_ :
  QInv lo (m_condition n) -> lo <= start -> sound (cache_of n) ->
  0 <= start -> start <= end_ -> end_ <= not_found ->
  exists res n',
    find_first_local cond_find_first start end_ n = Some (res, n')
    /\ QInv (Z.max lo (reach res end_)) (m_condition n')
    /\ sound (cache_of n')
    /\ m_known_range_end n' <= Z.max (m_known_range_end n) end_
    /\ (m_first_in_known_range n' = m_first_in_known_range n
        \/ m_first_in_known_range n' = not_found
        \/ start <= m_first_in_known_range n' < end_)
    /\ (stale_hit (cache_of n) start end_ -> res = end_)
    /\ (~ stale_hit (cache_of n) start end_ -> res = first_match negated start end_).
Proof.
  intros Hq Hlo Hsound Hs Hse He.
  destruct (sound_range _ Hsound) as (R0 & R1 & R2).
  destruct (find_first_local_run n lo start end_ Hq Hlo) as (q' & Hrun & Hq');
    try assumption; try (destruct n; simpl in *; lia).
  destruct (answer_sound (cache_of n) start end_ Hsound Hs Hse He)
    as (Hsound' & Hke & Hstale & Hfresh).
  pose proof (answer_first (cache_of n) start end_ R0 R1 R2 Hs Hse He) as Hf.
  pose proof (probed_le (cache_of n) start end_ Hsound Hs Hse He) as Hp.
  eexists _, _. split; [exact Hrun|].
  rewrite m_condition_with_cache, cache_of_with_cache, first_with_cache, end_with_cache.
  split; [apply (QInv_mono _ _ _ Hq'); lia|].
  split; [exact Hsound'|]. split; [exact Hke|].
  split; [exact Hf|].
  split; [exact Hstale|].
  intros Hn. apply is_first_eq; try assumption. now apply Hfresh.
Qed.

End Reasoning.

(** *** A wrapped query without memory

    The statements about the cache are made for a wrapped query that decides
    its rows in every state that satisfies [QInv], whatever it was asked
    before. *)

Section Plain.

Context {Q : Type}.
Variable cond_find_first : Z -> Z -> M Q Z.
Variable inner_matches : Z -> bool.
Variable QInv : Q -> Prop.
Hypothesis cond_contract :
  forall q r, QInv q -> 0 <= r -> r < not_found ->
    exists m q', cond_find_first r (r + 1) q = Some (m, q')
                 /\ (m =? not_found) = negb (inner_matches r)
                 /\ QInv q'.

Lemma plain_contract :
  forall q (lo r : Z), QInv q -> lo <= r -> 0 <= r -> r < not_found ->
    exists m q', cond_find_first r (r + 1) q = Some (m, q')
                 /\ (m =? not_found) = negb (inner_matches r)
                 /\ QInv q'.
Proof. intros q lo r Hq _. now apply cond_contract. Qed.

Lemma plain_mono : forall q (lo lo' : Z), QInv q -> lo <= lo' -> QInv q.
Proof. intros q lo lo' Hq _. exact Hq. Qed.

Lemma find_first_local_run_plain n start end_ :
  QInv (m_condition n) ->
  0 <= m_known_range_start n ->
  m_known_range_start n <= m_known_range_end n ->
  m_known_range_end n <= not_found ->
  0 <= start -> end_ <= not_found ->
  exists q',
    find_first_local cond_find_first start end_ n
    = Some (fst (answer inner_matches (cache_of n) start end_),
            with_cache q' (snd (answer inner_matches (cache_of n) start end_)))
    /\ QInv q'.
Proof.
  intros Hq R0 R1 R2 Hs He.
  destruct (find_first_local_run cond_find_first inner_matches (fun _ => QInv)
              plain_contract plain_mono n start start end_ Hq (Z.le_refl start)
              R0 R1 R2 Hs He) as (q' & Hrun & Hq').
  exists q'. now split.
Qed.


(** C5.  A request that does not meet the known range (it ends before the
    range starts or starts after it ends: the case the dispatch hands to
    [find_first_no_overlap]) is answered by scanning the whole request, and
    the cache is replaced by the request and its answer exactly when the
    request is strictly wider than the known range; otherwise the cache is
    left as it was. *)
Theorem find_first_no_overlap_replaces_iff_wider n start end_ :
  QInv (m_condition n) ->
  0 <= m_known_range_start n ->
  m_known_range_start n <= m_known_range_end n ->
  m_known_range_end n <= not_found ->
  0 <= start -> start <= end_ -> end_ <= not_found ->
  end_ < m_known_range_start n \/ m_known_range_end n < start ->
  exists q',
    find_first_local cond_find_first start end_ n
    = Some (first_match (negated inner_matches) start end_,
            if m_known_range_end n - m_known_range_start n <? end_ - start
            then mk q' start end_ (first_match (negated inner_matches) start end_)
            else with_condition n q')
    /\ QInv q'.
Proof.
  intros Hq R0 R1 R2 Hs Hse He Hapart.
  destruct (find_first_local_run_plain n start end_ Hq R0 R1 R2 Hs He)
    as (q' & Hrun & Hq').
  exists q'. split; [|exact Hq'].
  rewrite Hrun. destruct n as [q ks ke first]. simpl in *.
  unfold answer.
  assert (B1 : (start <=? ks) && (ke <=? end_) = false)
    by (apply andb_false_iff; rewrite !Z.leb_gt; lia).
  assert (B2 : (ks <=? start) && (end_ <=? ke) = false)
    by (apply andb_false_iff; rewrite !Z.leb_gt; lia).
  assert (B3 : (start <? ks) && (ks <=? end_) = false)
    by (apply andb_false_iff; rewrite Z.ltb_ge, Z.leb_gt; lia).
  assert (B4 : (start <=? ke) && (ke <? end_) = false)
    by (apply andb_false_iff; rewrite Z.leb_gt, Z.ltb_ge; lia).
  rewrite B1, B2, B3, B4. cbv zeta.
  rewrite !SizeT.sub_small
    by (rewrite SizeT.modulus_eq; rewrite SizeT.not_found_eq in *; lia).
  destruct (ke - ks <? end_ - start); reflexivity.
Qed.

End Plain.

(** *** The negation of a query, as a query

    A [NotNode] over a query that decides its rows is, as the only node of
    a query, again a query that decides its rows, as long as it is asked
    about rows in ascending order. *)

Section NotQuery.

Context {Q : Type}.
Variable cond_find_first : Z -> Z -> M Q Z.
Variable inner_matches : Z -> bool.
Variable QInv : Z -> Q -> Prop.
Hypothesis cond_contract :
  forall q lo r, QInv lo q -> lo <= r -> 0 <= r -> r < not_found ->
    exists m q', cond_find_first r (r + 1) q = Some (m, q')
                 /\ (m =? not_found) = negb (inner_matches r)
                 /\ QInv r q'.
Hypothesis QInv_mono : forall q lo lo', QInv lo q -> lo <= lo' -> QInv lo' q.

(** Fuel of the query loop around the node; one round is needed. *)
Variable fuel : nat.

(** [find_first] of the query [NOT(q)]. *)
Definition not_find_first : Z -> Z -> M (list (t Q)) Z :=
  ParentNode.find_first (find_first_local cond_find_first) (S fuel).

(** The cache does not point ahead of row [r]. *)
Definition not_ahead (n : t Q) (r : Z) : Prop :=
  m_first_in_known_range n = not_found \/ m_first_in_known_range n <= r.

Definition NotInv (lo : Z) (qs : list (t Q)) : Prop :=
  exists n, qs = [n]
            /\ QInv lo (m_condition n)
            /\ sound inner_matches (cache_of n)
            /\ not_ahead n lo.


Lemma not_query_contract qs lo r :
  NotInv lo qs -> lo <= r -> 0 <= r -> r < not_found ->
  exists m qs', not_find_first r (r + 1) qs = Some (m, qs')
                /\ (m =? not_found) = negb (negated inner_matches r)
                /\ NotInv r qs'.
Proof.
  intros (n & -> & Hq & Hsound & Hahead) Hlo H0 Hr.
  destruct (find_first_local_answer cond_find_first inner_matches QInv cond_contract
              QInv_mono n lo r (r + 1) Hq Hlo Hsound H0 ltac:(lia) ltac:(lia))
    as (m & n' & Hrun & Hq' & Hsound' & _ & Hfirst' & _ & Hfresh).
  assert (Hns : ~ stale_hit (cache_of n) r (r + 1)).
  { destruct n as [q ks ke first]. unfold stale_hit, not_ahead in *. simpl in *. lia. }
  specialize (Hfresh Hns).
  assert (Hm : m = if negated inner_matches r then r else not_found).
  { rewrite Hfresh. unfold first_match.
    replace (Z.to_nat (r + 1 - r)) with 1%nat by lia. reflexivity. }
  exists m, [n'].
  split.
  { unfold not_find_first, ParentNode.find_first. simpl.
    destruct (Z.ltb_spec r (r + 1)); [|lia].
    rewrite Hrun. cbv zeta.
    replace (if negb (m =? r) then Z.of_nat 1 else Z.of_nat 1) with 1
      by (destruct (negb (m =? r)); reflexivity).
    rewrite SizeT.sub_small by (rewrite SizeT.modulus_eq; lia).
    reflexivity. }
  split.
  { rewrite Hm. destruct (negated inner_matches r); simpl.
    - apply Z.eqb_neq. lia.
    - apply Z.eqb_refl. }
  exists n'. split; [reflexivity|]. split.
  { apply (QInv_mono _ _ _ Hq'). rewrite Hm. unfold reach.
    destruct (negated inner_matches r).
    - destruct (Z.eqb_spec r not_found); lia.
    - rewrite Z.eqb_refl. lia. }
  split; [exact Hsound'|]. unfold not_ahead in *. lia.
Qed.



End NotQuery.

(** *** Double negation

    [NOT(NOT(q))]: an outer [NotNode] whose wrapped query has one node, the
    inner [NotNode] over [q]. *)

Section DoubleNegation.

Context {Q : Type}.

(** [q.find_first]; [q] decides [inner_matches] in every state that
    satisfies [QInv]. *)
Variable cond_find_first : Z -> Z -> M Q Z.
Variable inner_matches : Z -> bool.
Variable QInv : Q -> Prop.
Hypothesis cond_contract :
  forall q r, QInv q -> 0 <= r -> r < not_found ->
    exists m q', cond_find_first r (r + 1) q = Some (m, q')
                 /\ (m =? not_found) = negb (inner_matches r)
                 /\ QInv q'.

Variable fuel : nat.

(** [evaluate_at] and [find_first_local] of the node [NOT(NOT(q))]. *)
Definition not_not_evaluate_at : Z -> M (t (list (t Q))) bool :=
  evaluate_at (not_find_first cond_find_first fuel).

Definition not_not_find_first_local : Z -> Z -> M (t (list (t Q))) Z :=
  find_first_local (not_find_first cond_find_first fuel).

(** The state of the query [NOT(q)] in which it answers rows from [lo] on. *)
Definition InnerInv : Z -> list (t Q) -> Prop :=
  NotInv inner_matches (fun _ => QInv).

Lemma inner_contract qs lo r :
  InnerInv lo qs -> lo <= r -> 0 <= r -> r < not_found ->
  exists m qs', not_find_first cond_find_first fuel r (r + 1) qs = Some (m, qs')
                /\ (m =? not_found) = negb (negated inner_matches r)
                /\ InnerInv r qs'.
Proof.
  apply not_query_contract.
  - apply plain_contract, cond_contract.
  - apply plain_mono.
Qed.


Lemma negated_twice r : negated (negated inner_matches) r = inner_matches r.
Proof. unfold negated. apply negb_involutive. Qed.

Lemma condition_matches_run q r :
  QInv q -> 0 <= r -> r < not_found ->
  exists q', condition_matches cond_find_first r q = Some (inner_matches r, q')
             /\ QInv q'.
Proof.
  intros Hq H0 Hr. unfold condition_matches.
  rewrite SizeT.add_small
    by (rewrite SizeT.modulus_eq; rewrite SizeT.not_found_eq in Hr; lia).
  destruct (cond_contract q r Hq H0 Hr) as (m & q' & Hc & Hm & Hq').
  rewrite Hc. unfold npos. rewrite Hm, negb_involutive. exists q'. now split.
Qed.

Lemma not_not_evaluate_at_run outer lo r :
  InnerInv lo (m_condition outer) -> lo <= r -> 0 <= r -> r < not_found ->
  exists qs',
    not_not_evaluate_at r outer = Some (inner_matches r, with_condition outer qs')
    /\ InnerInv r qs'.
Proof.
  intros Hinv Hlo H0 Hr.
  destruct (evaluate_at_run (not_find_first cond_find_first fuel)
              (negated inner_matches) InnerInv inner_contract outer lo r Hinv Hlo H0 Hr)
    as (qs' & Hrun & Hinv').
  exists qs'. split; [|exact Hinv'].
  unfold not_not_evaluate_at. rewrite Hrun. now rewrite negated_twice.
Qed.

Lemma probe_condition_matches rows : forall q,
  QInv q -> Forall (fun r => 0 <= r < not_found) rows ->
  exists q', probe (condition_matches cond_find_first) rows q
             = Some (map inner_matches rows, q')
             /\ QInv q'.
Proof.
  induction rows as [|r rows IH]; intros q Hq Hrows.
  - exists q. now split.
  - inversion Hrows as [|r' rows' Hr Hrows']; subst.
    destruct (condition_matches_run q r Hq ltac:(lia) ltac:(lia)) as (q1 & E1 & Hq1).
    destruct (IH q1 Hq1 Hrows') as (q2 & E2 & Hq2).
    exists q2. split; [|exact Hq2].
    simpl. rewrite (bind_Some _ _ _ _ _ E1), (bind_Some _ _ _ _ _ E2). reflexivity.
Qed.

(** Asked about rows in ascending order, the outer node answers on every
    row what [q] answers. *)
Lemma probe_not_not rows : forall outer lo,
  InnerInv lo (m_condition outer) ->
  StronglySorted Z.le rows ->
  Forall (fun r => 0 <= r < not_found) rows ->
  Forall (fun r => lo <= r) rows ->
  exists qs',
    probe not_not_evaluate_at rows outer
    = Some (map inner_matches rows, with_condition outer qs').
Proof.
  induction rows as [|r rows IH]; intros outer lo Hinv Hsorted Hrows Hlo.
  - exists (m_condition outer). simpl. unfold ret. now rewrite with_condition_same.
  - inversion Hrows as [|r' rows' Hr Hrows']; subst.
    inversion Hlo as [|r' rows' Hlor Hlo']; subst.
    apply StronglySorted_inv in Hsorted. destruct Hsorted as [Hsorted Hle].
    destruct (not_not_evaluate_at_run outer lo r Hinv Hlor ltac:(lia) ltac:(lia))
      as (qs1 & E1 & Hinv1).
    destruct (IH (with_condition outer qs1) r Hinv1 Hsorted Hrows' Hle) as (qs2 & E2).
    exists qs2. simpl.
    rewrite (bind_Some _ _ _ _ _ E1), (bind_Some _ _ _ _ _ E2). reflexivity.
Qed.


End DoubleNegation.

(** *** Answers from a sound cache, the known range, scans *)

Ltac zbools :=
  repeat match goal with
         | H : andb _ _ = true |- _ => apply andb_true_iff in H; destruct H
         | H : andb _ _ = false |- _ => apply andb_false_iff in H
         | H : negb _ = true |- _ => apply negb_true_iff in H
         | H : negb _ = false |- _ => apply negb_false_iff in H
         | H : (_ <=? _) = true |- _ => apply Z.leb_le in H
         | H : (_ <=? _) = false |- _ => apply Z.leb_gt in H
         | H : (_ <? _) = true |- _ => apply Z.ltb_lt in H
         | H : (_ <? _) = false |- _ => apply Z.ltb_ge in H
         | H : (_ =? _) = true |- _ => apply Z.eqb_eq in H
         | H : (_ =? _) = false |- _ => apply Z.eqb_neq in H
         end.

Ltac split_if :=
  match goal with
  | |- context [if ?b then _ else _] =>
      let E := fresh "E" in destruct b eqn:E; zbools
  end.

(** The known range after a call contains the known range before it, or is
    the request; in both cases it is at least as wide. *)
Lemma answer_known_range inner_matches c start end_ :
  0 <= fst (fst c) -> fst (fst c) <= snd (fst c) -> snd (fst c) <= not_found ->
  0 <= start -> start <= end_ -> end_ <= not_found ->
  let c' := snd (answer inner_matches c start end_) in
  snd (fst c) - fst (fst c) <= snd (fst c') - fst (fst c')
  /\ ((fst (fst c') <= fst (fst c) /\ snd (fst c) <= snd (fst c'))
      \/ (fst (fst c') = start /\ snd (fst c') = end_)).
Proof.
  destruct c as [[ks ke] first]. cbn [fst snd]. intros H0 H1 H2 Hs Hse He.
  unfold answer. cbv zeta.
  rewrite !SizeT.sub_small
    by (rewrite SizeT.modulus_eq; rewrite SizeT.not_found_eq in *; lia).
  repeat split_if; cbn [fst snd]; lia.
Qed.

(** X5.  A request inside the known range that starts at or before the cached
    row is answered from the cache alone. *)
Theorem find_first_local_cache_hit_asks_nothing
    {Q : Type} (cond_find_first : Z -> Z -> M Q Z) (n : t Q) (start end_ : Z) :
  m_known_range_start n <= start -> end_ <= m_known_range_end n ->
  m_known_range_start n < start \/ end_ < m_known_range_end n ->
  m_first_in_known_range n <> not_found ->
  start <= m_first_in_known_range n ->
  find_first_local cond_find_first start end_ n
  = Some ((if end_ <? m_first_in_known_range n then not_found
           else m_first_in_known_range n), n).
Proof.
  intros Hks Hke Hstrict Hfirst Hstart.
  destruct n as [q ks ke first]. simpl in *.
  unfold find_first_local, bind, read. simpl.
  assert (B1 : (start <=? ks) && (ke <=? end_) = false)
    by (apply andb_false_iff; rewrite !Z.leb_gt; lia).
  assert (B2 : (ks <=? start) && (end_ <=? ke) = true)
    by (apply andb_true_iff; rewrite !Z.leb_le; lia).
  rewrite B1, B2.
  unfold find_first_covered_by_known, bind, read, ret. simpl.
  destruct (Z.eqb_spec first not_found); [contradiction|]. simpl.
  destruct (end_ <? first); [reflexivity|].
  destruct (Z.leb_spec start first); [reflexivity | lia].
Qed.

Section Answers.

Context {Q : Type}.
Variable cond_find_first : Z -> Z -> M Q Z.
Variable inner_matches : Z -> bool.

(** The wrapped query decides [inner_matches] on one-row ranges in every
    state that satisfies [QInv]. *)
Variable QInv : Q -> Prop.
Hypothesis cond_contract :
  forall q r, QInv q -> 0 <= r -> r < not_found ->
    exists m q', cond_find_first r (r + 1) q = Some (m, q')
                 /\ (m =? not_found) = negb (inner_matches r)
                 /\ QInv q'.


(** X7.  Whatever the cached row, a call never narrows the known range: the new
    range contains the old one, or it is the request and strictly wider
    than the old one was. *)
Theorem find_first_local_known_range_never_shrinks n start end_ :
  QInv (m_condition n) ->
  0 <= m_known_range_start n ->
  m_known_range_start n <= m_known_range_end n ->
  m_known_range_end n <= not_found ->
  0 <= start -> start <= end_ -> end_ <= not_found ->
  exists res n',
    find_first_local cond_find_first start end_ n = Some (res, n')
    /\ m_known_range_end n - m_known_range_start n
       <= m_known_range_end n' - m_known_range_start n'
    /\ ((m_known_range_start n' <= m_known_range_start n
         /\ m_known_range_end n <= m_known_range_end n')
        \/ (m_known_range_start n' = start /\ m_known_range_end n' = end_)).
Proof.
  intros Hq R0 R1 R2 Hs Hse He.
  destruct (find_first_local_run_plain cond_find_first inner_matches QInv cond_contract
              n start end_ Hq R0 R1 R2 Hs He) as (q' & Hrun & _).
  pose proof (answer_known_range inner_matches (cache_of n) start end_
                R0 R1 R2 Hs Hse He) as Hrange.
  cbv zeta in Hrange.
  eexists _, _. split; [exact Hrun|].
  destruct (snd (answer inner_matches (cache_of n) start end_)) as [[ks' ke'] first'].
  destruct n as [q ks ke first]. simpl in *. exact Hrange.
Qed.


End Answers.

End NotNode.

(** ** A concrete negated query

    The wrapped query has one scanning leaf that matches rows 0 to 4, so the
    negation holds from row 5 on. *)

Module NotNodeExample.

Import NotNode.

Definition below_5 (r : Z) : bool := r <? 5.

Definition leaf : StringNodeEqualIns.t :=
  {| StringNodeEqualIns.row_matches := below_5 |}.

Definition Query : Type := list StringNodeEqualIns.t.

(** [find_first] of the wrapped query. *)
Definition query_find_first : Z -> Z -> M Query Z :=
  ParentNode.find_first StringNodeEqualIns._find_first_local 3.

Definition QInv (q : Query) : Prop :=
  Forall2 StringNodeEqualIns.decides [below_5] q.

Lemma query_contract :
  forall q r, QInv q -> 0 <= r -> r < not_found ->
    exists m q', query_find_first r (r + 1) q = Some (m, q')
                 /\ (m =? not_found) = negb (below_5 r)
                 /\ QInv q'.
Proof.
  intros q r Hq H0 Hr.
  assert (Hlen : length q = 1%nat).
  { symmetry. apply (Forall2_length _ _ _ Hq). }
  destruct (ParentNode.find_first_one_row
              StringNodeEqualIns._find_first_local StringNodeEqualIns.decides
              StringNodeEqualIns.contract [below_5] q r 3 Hq)
    as (m & q' & Hrun & Hm & Hq'); try assumption.
  - lia.
  - rewrite Hlen, SizeT.not_found_eq. simpl. lia.
  - lia.
  - exists m, q'. split; [exact Hrun|]. split; [|exact Hq'].
    rewrite Hm. unfold ParentNode.all_match. simpl. now rewrite andb_true_r.
Qed.

(** The node as it is before any request: nothing known. *)
Definition empty_cache : t Query := mk [leaf] 0 0 not_found.

(** The node after [find_first_local(0, 10)]: rows 0 to 9 known, first
    match of the negation at row 5. *)
Definition after_0_10 : t Query := mk [leaf] 0 10 5.

Example first_request :
  find_first_local query_find_first 0 10 empty_cache = Some (5, after_0_10).
Proof. vm_compute. reflexivity. Qed.

Example request_inside_known :
  find_first_local query_find_first 3 8 after_0_10 = Some (5, after_0_10).
Proof. vm_compute. reflexivity. Qed.

Example request_before_cached_row :
  find_first_local query_find_first 3 4 after_0_10 = Some (not_found, after_0_10).
Proof. vm_compute. reflexivity. Qed.

(** C2 (the code departs from it).  A request inside the known range whose
    [end] is the cached first match is answered with that row:
    [find_first_local(3, 5)] returns 5, which is neither a row of [[3,5)]
    nor [not_found].  The comparison [m_first_in_known_range > end] in
    [find_first_covered_by_known] lets [m_first_in_known_range == end]
    through. *)
Theorem find_first_local_answers_outside_range :
  find_first_local query_find_first 0 10 empty_cache = Some (5, after_0_10)
  /\ find_first_local query_find_first 3 5 after_0_10 = Some (5, after_0_10)
  /\ ~ (3 <= 5 < 5) /\ 5 <> not_found.
Proof.
  split; [vm_compute; reflexivity|].
  split; [vm_compute; reflexivity|].
  split; [lia | rewrite SizeT.not_found_eq; lia].
Qed.

(** The same request on the sibling path [find_first_overlap_lower], which
    bounds its answer by [end], is answered [not_found]. *)
Example overlap_lower_bounds_answer :
  find_first_local query_find_first 3 5 (mk [leaf] 4 10 5)
  = Some (not_found, mk [leaf] 3 10 5).
Proof. vm_compute. reflexivity. Qed.



Lemma QInv_leaf : QInv [leaf].
Proof. repeat constructor. Qed.


Lemma find_first_no_overlap_replaces_iff_wider_witness :
  exists q',
    find_first_local query_find_first 12 30 after_0_10
    = Some (first_match (negated below_5) 12 30,
            if m_known_range_end after_0_10 - m_known_range_start after_0_10 <? 30 - 12
            then mk q' 12 30 (first_match (negated below_5) 12 30)
            else with_condition after_0_10 q')
    /\ QInv q'.
Proof.
  apply (find_first_no_overlap_replaces_iff_wider
           query_find_first below_5 QInv query_contract after_0_10 12 30).
  - exact QInv_leaf.
  - simpl. lia.
  - simpl. lia.
  - simpl. rewrite SizeT.not_found_eq. lia.
  - lia.
  - lia.
  - rewrite SizeT.not_found_eq. lia.
  - right. simpl. lia.
Defined.

Example no_overlap_wider :
  find_first_local query_find_first 12 30 after_0_10 = Some (12, mk [leaf] 12 30 12).
Proof. vm_compute. reflexivity. Qed.

Example no_overlap_not_wider :
  find_first_local query_find_first 12 22 after_0_10 = Some (12, after_0_10).
Proof. vm_compute. reflexivity. Qed.

(** [NOT(NOT(q))] over the same query. *)
Definition not_not : t (list (t Query)) := mk [empty_cache] 0 0 not_found.

Example not_not_rows :
  probe (not_not_evaluate_at query_find_first 0) [0; 3; 4; 5; 6; 9] not_not
  = Some ([true; true; true; false; false; false],
          mk [mk [leaf] 0 1 not_found] 0 0 not_found).
Proof. vm_compute. reflexivity. Qed.

(** A scan of rows 0 to 9 with the driver of the engine. *)
Example not_not_scan :
  ParentNode.aggregate_local (not_not_find_first_local query_find_first 0)
    ParentNode.collect 11 0 10 100 ([not_not], [])
  = Some (10, ([mk [mk [leaf] 0 10 5] 0 10 0], [0; 1; 2; 3; 4])).
Proof. vm_compute. reflexivity. Qed.


(** A wrapped query that cannot be asked: every call fails. *)
Definition unusable : Z -> Z -> M Query Z := fun _ _ _ => None.

Lemma find_first_local_cache_hit_asks_nothing_witness :
  find_first_local unusable 2 8 after_0_10
  = Some ((if 8 <? m_first_in_known_range after_0_10 then not_found
           else m_first_in_known_range after_0_10), after_0_10).
Proof.
  apply (find_first_local_cache_hit_asks_nothing unusable after_0_10 2 8).
  - simpl. lia.
  - simpl. lia.
  - left. simpl. lia.
  - simpl. rewrite SizeT.not_found_eq. lia.
  - simpl. lia.
Defined.


Lemma find_first_local_known_range_never_shrinks_witness :
  exists res n',
    find_first_local query_find_first 12 14 after_0_10 = Some (res, n')
    /\ m_known_range_end after_0_10 - m_known_range_start after_0_10
       <= m_known_range_end n' - m_known_range_start n'
    /\ ((m_known_range_start n' <= m_known_range_start after_0_10
         /\ m_known_range_end after_0_10 <= m_known_range_end n')
        \/ (m_known_range_start n' = 12 /\ m_known_range_end n' = 14)).
Proof.
  apply (find_first_local_known_range_never_shrinks
           query_find_first below_5 QInv query_contract after_0_10 12 14).
  - exact QInv_leaf.
  - simpl. lia.
  - simpl. lia.
  - simpl. rewrite SizeT.not_found_eq. lia.
  - lia.
  - lia.
  - rewrite SizeT.not_found_eq. lia.
Defined.

Example not_scan :
  ParentNode.aggregate_local (find_first_local query_find_first) ParentNode.collect
    11 0 10 100 ([empty_cache], [])
  = Some (10, ([mk [leaf] 0 10 5], [5; 6; 7; 8; 9])).
Proof. vm_compute. reflexivity. Qed.


(** *** Requests that go back into the known range

    The row that [find_first_covered_by_known] answers outside the request
    is handed on by the loops around the node. *)

(** C1 (the code departs from it).  The conjunction whose one condition is
    [NOT(q)], with [q] matching rows 0 to 4.  After [find_first(0, 10)],
    [find_first(3, 5)] returns 5: not a row of [[3, 5)], and not
    [not_found], the answer for a range none of whose rows satisfies the
    condition.  [find_first] returns what its node answers, and the node
    answers with the cached row that [find_first_covered_by_known] lets
    through. *)
Theorem find_first_over_not_node_leaves_range :
  ParentNode.find_first (find_first_local query_find_first) 30 0 10 [empty_cache]
  = Some (5, [after_0_10])
  /\ ParentNode.find_first (find_first_local query_find_first) 30 3 5 [after_0_10]
     = Some (5, [after_0_10])
  /\ first_match (ParentNode.all_match [negated below_5]) 3 5 = not_found
  /\ ~ (3 <= 5 < 5) /\ 5 <> not_found.
Proof.
  split; [vm_compute; reflexivity|].
  split; [vm_compute; reflexivity|].
  split; [vm_compute; reflexivity|].
  split; [lia | rewrite SizeT.not_found_eq; lia].
Qed.

(** [NOT(NOT(q))] after a scan of rows 0 to 9: both nodes know the rows 0
    to 9, the inner node with first match 5, the outer node with first
    match 0. *)
Definition not_not_scanned : t (list (t Query)) := mk [after_0_10] 0 10 0.

(** C6 (the code departs from it).  [NOT(NOT(q))] with [q] matching rows 0
    to 4, from empty caches.  A scan of rows 0 to 9 gathers the rows 0 to 4.
    A second scan, of rows 0 to 4 on the nodes as the first scan left them,
    gathers the rows 0 to 3 only, though [q] matches row 4: the outer node
    asks the inner one about [[4, 5)], and the inner node answers with its
    cached row 5, which [find_first_covered_by_known] lets through.  In the
    same way [evaluate_at] of the outer node, asked about the rows 4, 5 and
    4 again, answers [true], [false] and [false]. *)
Theorem double_negation_misses_matching_row :
  ParentNode.aggregate_local (not_not_find_first_local query_find_first 0)
    ParentNode.collect 11 0 10 100 ([not_not], [])
  = Some (10, ([not_not_scanned], [0; 1; 2; 3; 4]))
  /\ ParentNode.aggregate_local (not_not_find_first_local query_find_first 0)
       ParentNode.collect 11 0 5 100 ([not_not_scanned], [])
     = Some (5, ([not_not_scanned], [0; 1; 2; 3]))
  /\ matching below_5 0 5 = [0; 1; 2; 3; 4]
  /\ probe (not_not_evaluate_at query_find_first 0) [4; 5; 4] not_not
     = Some ([true; false; false], mk [mk [leaf] 4 6 5] 0 0 not_found)
  /\ map below_5 [4; 5; 4] = [true; false; true].
Proof.
  split; [vm_compute; reflexivity|].
  split; [vm_compute; reflexivity|].
  split; [vm_compute; reflexivity|].
  split; vm_compute; reflexivity.
Qed.

End NotNodeExample.

(** ** [Mixed::compare] and [_impl::compare_float] *)

Module Mixed.

(** A [float] or [double] is its raw bit pattern, an unsigned integer of
    [1 + ew + mw] bits: sign, exponent, mantissa. *)
Record format := { ew : Z; mw : Z }.

Definition binary32 : format := {| ew := 8; mw := 23 |}.
Definition binary64 : format := {| ew := 11; mw := 52 |}.

Definition exponent (f : format) (x : Z) : Z :=
  Z.land (Z.shiftr x (mw f)) (2 ^ ew f - 1).

Definition mantissa (f : format) (x : Z) : Z := Z.land x (2 ^ mw f - 1).

Definition sign (f : format) (x : Z) : bool := Z.testbit x (ew f + mw f).

(** [std::isnan]: exponent all ones and a non-zero mantissa. *)
Definition isnan (f : format) (x : Z) : bool :=
  (exponent f x =? 2 ^ ew f - 1) && negb (mantissa f x =? 0).

(** The position of a non-NaN value in the IEEE order: its magnitude bits,
    negated when the sign bit is set; both zeros are at 0. *)
Definition ordinal (f : format) (x : Z) : Z :=
  let magnitude := Z.land x (2 ^ (ew f + mw f) - 1) in
  if sign f x then - magnitude else magnitude.

(** [a_raw == b_raw] and [a_raw < b_raw] on values that are not NaN. *)
Definition ieee_eq (f : format) (a b : Z) : bool := ordinal f a =? ordinal f b.
Definition ieee_lt (f : format) (a b : Z) : bool := ordinal f a <? ordinal f b.

Definition compare_float (f : format) (a_raw b_raw : Z) : Z :=
  let a_nan := isnan f a_raw in
  let b_nan := isnan f b_raw in
  if negb a_nan && negb b_nan then
    if ieee_eq f a_raw b_raw then 0 else if ieee_lt f a_raw b_raw then -1 else 1
  else if a_nan && b_nan then
    (* the two bit patterns, compared as unsigned integers *)
    let a := a_raw in
    let b := b_raw in
    if a =? b then 0 else if a <? b then -1 else 1
  else if a_nan then -1 else 1.

Inductive DataType :=
| type_Int | type_Bool | type_String | type_Binary | type_OldTable
| type_OldMixed | type_OldDateTime | type_Timestamp | type_Float
| type_Double | type_Link | type_LinkList.

Record Timestamp := { seconds : Z; nanoseconds : Z }.

(** A [Mixed] is null or a value tagged with its type.  [Other] stands for
    the type tags for which no value can be built and [compare] asserts. *)
Inductive t :=
| Null
| Int (v : Z)
| Bool (b : bool)
| Float (bits : Z)
| Double (bits : Z)
| String (s : String.string)
| Binary (b : list Z)
| TimestampV (ts : Timestamp)
| Link (key : Z)
| Other (ty : DataType).

Definition is_null (m : t) : bool :=
  match m with Null => true | _ => false end.

Section Compare.

(** Comparisons declared outside this file: [utf8_compare] ("a sorts before
    b"), [memcmp] on the first [n] bytes, and the order of timestamps. *)
Variable utf8_compare : String.string -> String.string -> bool.
Variable memcmp : list Z -> list Z -> Z -> Z.
Variable timestamp_gt : Timestamp -> Timestamp -> bool.
Variable timestamp_lt : Timestamp -> Timestamp -> bool.

Definition compare_string (a b : String.string) : Z :=
  if String.eqb a b then 0 else if utf8_compare a b then -1 else 1.

Definition compare_binary (a b : list Z) : Z :=
  let asz := Z.of_nat (length a) in
  let bsz := Z.of_nat (length b) in
  let min_sz := Z.min asz bsz in
  let ret := memcmp a b min_sz in
  if ret =? 0 then
    if bsz <? asz then 1 else if asz <? bsz then -1 else ret
  else ret.

Definition bool_rank (b : bool) : Z := if b then 1 else 0.

(** [None]: an assertion fails ([get<T>] on a value of another type, or a
    type for which comparison is not supported). *)
Definition compare (a b : t) : option Z :=
  if is_null a then Some (if is_null b then 0 else -1)
  else if is_null b then Some 1
  else
    match a, b with
    | Int x, Int y => Some (if y <? x then 1 else if x <? y then -1 else 0)
    | String x, String y => Some (compare_string x y)
    | Binary x, Binary y => Some (compare_binary x y)
    | Float x, Float y => Some (compare_float binary32 x y)
    | Double x, Double y => Some (compare_float binary64 x y)
    | Bool x, Bool y =>
        Some (if bool_rank y <? bool_rank x then 1
              else if bool_rank x <? bool_rank y then -1 else 0)
    | TimestampV x, TimestampV y =>
        Some (if timestamp_gt x y then 1 else if timestamp_lt x y then -1 else 0)
    | Link x, Link y => Some (if y <? x then 1 else if x <? y then -1 else 0)
    | _, _ => None
    end.

(** C7.  Null is below every value that is not null, whatever its type; a
    NaN [float] or [double] is below every value that is not a NaN; two NaNs
    are ordered by their bit patterns as unsigned integers. *)
Theorem compare_orders_null_and_nan :
  (forall v, v <> Null -> compare Null v = Some (-1) /\ compare v Null = Some 1)
  /\ compare Null Null = Some 0
  /\ (forall f a b, isnan f a = true -> isnan f b = false ->
        compare_float f a b = -1 /\ compare_float f b a = 1)
  /\ (forall a b, isnan binary32 a = true -> isnan binary32 b = false ->
        compare (Float a) (Float b) = Some (-1) /\ compare (Float b) (Float a) = Some 1)
  /\ (forall a b, isnan binary64 a = true -> isnan binary64 b = false ->
        compare (Double a) (Double b) = Some (-1) /\ compare (Double b) (Double a) = Some 1)
  /\ (forall f a b, isnan f a = true -> isnan f b = true ->
        compare_float f a b = if a =? b then 0 else if a <? b then -1 else 1).
Proof.
  assert (Hnan : forall f a b, isnan f a = true -> isnan f b = false ->
            compare_float f a b = -1 /\ compare_float f b a = 1).
  { intros f a b Ha Hb. unfold compare_float. rewrite Ha, Hb. now split. }
  split.
  { intros v Hv. destruct v; try congruence; now split. }
  split; [reflexivity|].
  split; [exact Hnan|].
  split.
  { intros a b Ha Hb. unfold compare. cbn [is_null].
    destruct (Hnan binary32 a b Ha Hb) as [-> ->]. now split. }
  split.
  { intros a b Ha Hb. unfold compare. cbn [is_null].
    destruct (Hnan binary64 a b Ha Hb) as [-> ->]. now split. }
  intros f a b Ha Hb. unfold compare_float. rewrite Ha, Hb. reflexivity.
Qed.

End Compare.

(** Bit patterns used below: quiet NaNs with different payloads, minus
    infinity, 1.0 and the two zeros, as [double]. *)
Definition nan_a : Z := 0x7FF8000000000000.
Definition nan_b : Z := 0xFFF8000000000001.
Definition minus_infinity : Z := 0xFFF0000000000000.
Definition one : Z := 0x3FF0000000000000.
Definition plus_zero : Z := 0.
Definition minus_zero : Z := 0x8000000000000000.

Example nan_below_minus_infinity :
  compare_float binary64 nan_a minus_infinity = -1
  /\ compare_float binary64 minus_infinity nan_a = 1.
Proof. split; vm_compute; reflexivity. Qed.

Example nans_by_bit_pattern :
  compare_float binary64 nan_a nan_b = -1 /\ compare_float binary64 nan_b nan_a = 1
  /\ compare_float binary64 nan_a nan_a = 0.
Proof. repeat split; vm_compute; reflexivity. Qed.

Example zeros_equal : compare_float binary64 minus_zero plus_zero = 0.
Proof. vm_compute. reflexivity. Qed.

Example minus_infinity_below_one : compare_float binary64 minus_infinity one = -1.
Proof. vm_compute. reflexivity. Qed.

Lemma compare_orders_null_and_nan_witness :
  (compare (fun _ _ => false) (fun _ _ _ => 0) (fun _ _ => false) (fun _ _ => false)
     Null (Double one) = Some (-1)
   /\ compare (fun _ _ => false) (fun _ _ _ => 0) (fun _ _ => false) (fun _ _ => false)
        (Double one) Null = Some 1)
  /\ (compare_float binary64 nan_a minus_infinity = -1
      /\ compare_float binary64 minus_infinity nan_a = 1)
  /\ compare_float binary64 nan_a nan_b
     = (if nan_a =? nan_b then 0 else if nan_a <? nan_b then -1 else 1).
Proof.
  pose proof (compare_orders_null_and_nan
                (fun _ _ => false) (fun _ _ _ => 0) (fun _ _ => false) (fun _ _ => false))
    as (Hnull & _ & Hnan & _ & _ & Hbits).
  split; [apply Hnull; discriminate|].
  split; [apply Hnan; vm_compute; reflexivity|].
  apply Hbits; vm_compute; reflexivity.
Defined.

(** *** The order that [compare_float] and [compare] define *)

Ltac zcases :=
  repeat match goal with
         | |- context [?x =? ?y] => destruct (Z.eqb_spec x y)
         | |- context [?x <? ?y] => destruct (Z.ltb_spec x y)
         | H : context [?x =? ?y] |- _ => destruct (Z.eqb_spec x y)
         | H : context [?x <? ?y] |- _ => destruct (Z.ltb_spec x y)
         end.

Lemma compare_float_swap f a b : compare_float f b a = - compare_float f a b.
Proof.
  unfold compare_float, ieee_eq, ieee_lt. cbv zeta.
  destruct (isnan f a), (isnan f b); cbn [negb andb]; zcases; lia.
Qed.

(** X9.  Swapping the operands of [compare_float] negates the result, which is
    always -1, 0 or 1. *)
Theorem compare_float_antisymmetric f a b :
  compare_float f b a = - compare_float f a b
  /\ (compare_float f a b = -1 \/ compare_float f a b = 0 \/ compare_float f a b = 1).
Proof.
  split; [apply compare_float_swap|].
  unfold compare_float, ieee_eq, ieee_lt. cbv zeta.
  destruct (isnan f a), (isnan f b); cbn [negb andb]; zcases; lia.
Qed.

(** X10.  [compare_float] answers 0 exactly for two values that are not NaN and
    have the same place in the IEEE order (so for the two zeros), and for
    two NaNs with the same bit pattern. *)
Theorem compare_float_zero_iff f a b :
  compare_float f a b = 0
  <-> (isnan f a = isnan f b
       /\ if isnan f a then a = b else ordinal f a = ordinal f b).
Proof.
  unfold compare_float, ieee_eq, ieee_lt. cbv zeta.
  destruct (isnan f a), (isnan f b); cbn [negb andb]; zcases;
    split; try lia; try (intros [? ?]; try discriminate; lia); try (now split).
Qed.

(** X11.  "Not above" is transitive: with the two theorems before, [compare_float]
    is a total preorder on all bit patterns, as a sort needs it. *)
Theorem compare_float_transitive f a b c :
  compare_float f a b <= 0 -> compare_float f b c <= 0 -> compare_float f a c <= 0.
Proof.
  unfold compare_float, ieee_eq, ieee_lt. cbv zeta.
  destruct (isnan f a), (isnan f b), (isnan f c); cbn [negb andb];
    intros H1 H2; zcases; lia.
Qed.

Lemma compare_float_transitive_witness :
  compare_float binary64 nan_a one <= 0.
Proof.
  apply (compare_float_transitive binary64 nan_a minus_infinity one).
  - vm_compute. discriminate.
  - vm_compute. discriminate.
Defined.

(** Byte strings in lexicographic order, a proper prefix before its
    extensions. *)
Fixpoint lex (a b : list Z) : comparison :=
  match a, b with
  | [], [] => Eq
  | [], _ :: _ => Lt
  | _ :: _, [] => Gt
  | x :: a', y :: b' =>
      match x ?= y with
      | Eq => lex a' b'
      | c => c
      end
  end.

Lemma lex_eq a : forall b, lex a b = Eq <-> a = b.
Proof.
  induction a as [|x a IH]; intros [|y b]; simpl; try (split; congruence).
  destruct (Z.compare_spec x y) as [Hxy | Hxy | Hxy].
  - subst y. rewrite IH. split; [now intros -> | now intros [= ->]].
  - split; [discriminate | intros [= -> _]; lia].
  - split; [discriminate | intros [= -> _]; lia].
Qed.

Lemma lex_app p1 : forall p2 s1 s2,
  length p1 = length p2 ->
  lex (p1 ++ s1) (p2 ++ s2) = match lex p1 p2 with Eq => lex s1 s2 | c => c end.
Proof.
  induction p1 as [|x p1 IH]; intros [|y p2] s1 s2 Hlen; simpl in *; try discriminate.
  - reflexivity.
  - destruct (x ?= y); [apply IH; lia | reflexivity | reflexivity].
Qed.

(** A reference [memcmp]: the difference of the first pair of bytes that
    differ among the first [n], 0 when there is none. *)
Fixpoint memcmp_bytes (a b : list Z) (n : nat) : Z :=
  match n, a, b with
  | S n', x :: a', y :: b' => if x =? y then memcmp_bytes a' b' n' else x - y
  | _, _, _ => 0
  end.

Definition memcmp_ref (a b : list Z) (n : Z) : Z := memcmp_bytes a b (Z.to_nat n).

Lemma memcmp_bytes_lex n : forall a b,
  (n <= length a)%nat -> (n <= length b)%nat ->
  (memcmp_bytes a b n ?= 0) = lex (take n a) (take n b).
Proof.
  induction n as [|n IH]; intros a b Ha Hb.
  - now destruct a, b.
  - destruct a as [|x a]; [simpl in Ha; lia|].
    destruct b as [|y b]; [simpl in Hb; lia|].
    simpl in *. destruct (Z.eqb_spec x y) as [-> | Hne].
    + rewrite Z.compare_refl. apply IH; lia.
    + rewrite <- (Z.compare_sub x y).
      destruct (Z.compare_spec x y); [contradiction | reflexivity | reflexivity].
Qed.

Section Order.

Variable utf8_compare : String.string -> String.string -> bool.
Variable memcmp : list Z -> list Z -> Z -> Z.
Variable timestamp_gt : Timestamp -> Timestamp -> bool.
Variable timestamp_lt : Timestamp -> Timestamp -> bool.

(** What the C library promises of [memcmp]: the sign of its result is the
    order of the first [n] bytes. *)
Hypothesis memcmp_sign :
  forall a b n, (n <= length a)%nat -> (n <= length b)%nat ->
    (memcmp a b (Z.of_nat n) ?= 0) = lex (take n a) (take n b).

(** X12.  The sign of [compare_binary] is the lexicographic order of the two
    byte strings, a proper prefix sorting before its extensions: the result
    is 0 exactly for equal strings. *)
Theorem compare_binary_lexicographic a b :
  (compare_binary memcmp a b ?= 0) = lex a b
  /\ (compare_binary memcmp a b = 0 <-> a = b).
Proof.
  assert (Hsign : (compare_binary memcmp a b ?= 0) = lex a b).
  { unfold compare_binary. cbv zeta.
    set (n := Nat.min (length a) (length b)).
    replace (Z.min (Z.of_nat (length a)) (Z.of_nat (length b))) with (Z.of_nat n)
      by (unfold n; lia).
    pose proof (memcmp_sign a b n ltac:(unfold n; lia) ltac:(unfold n; lia)) as Hm.
    replace (lex a b) with (lex (take n a ++ drop n a) (take n b ++ drop n b))
      by now rewrite !take_drop.
    rewrite lex_app by (rewrite !length_take; unfold n; lia).
    rewrite <- Hm.
    destruct (Z.eqb_spec (memcmp a b (Z.of_nat n)) 0) as [Hz | Hnz].
    - rewrite Hz. simpl.
      pose proof (length_drop a n) as Hda. pose proof (length_drop b n) as Hdb.
      destruct (Z.ltb_spec (Z.of_nat (length b)) (Z.of_nat (length a))).
      + destruct (drop n a) as [|x da]; [simpl in Hda; unfold n in *; lia|].
        destruct (drop n b) as [|y db]; [reflexivity | simpl in Hdb; unfold n in *; lia].
      + destruct (Z.ltb_spec (Z.of_nat (length a)) (Z.of_nat (length b))).
        * destruct (drop n b) as [|y db]; [simpl in Hdb; unfold n in *; lia|].
          destruct (drop n a) as [|x da]; [reflexivity | simpl in Hda; unfold n in *; lia].
        * destruct (drop n a) as [|x da]; [|simpl in Hda; unfold n in *; lia].
          destruct (drop n b) as [|y db]; [reflexivity | simpl in Hdb; unfold n in *; lia].
    - destruct (memcmp a b (Z.of_nat n) ?= 0) eqn:Hc; try reflexivity.
      apply Z.compare_eq in Hc. contradiction. }
  split; [exact Hsign|].
  rewrite <- lex_eq, <- Hsign. symmetry. apply Z.compare_eq_iff.
Qed.

(** The values whose order [compare] computes itself: null and the
    integer, boolean, floating-point and link values. *)
Definition scalar (m : t) : bool :=
  match m with
  | Null | Int _ | Bool _ | Float _ | Double _ | Link _ => true
  | _ => false
  end.

(** X13.  On such values [compare] is antisymmetric: when it answers [x] for
    [(a, b)], it answers [-x] for [(b, a)]. *)
Theorem compare_antisymmetric a b x :
  scalar a = true -> scalar b = true ->
  compare utf8_compare memcmp timestamp_gt timestamp_lt a b = Some x ->
  compare utf8_compare memcmp timestamp_gt timestamp_lt b a = Some (- x).
Proof.
  intros Ha Hb.
  destruct a as [|x1|x1|x1|x1|x1|x1|x1|x1|x1], b as [|x2|x2|x2|x2|x2|x2|x2|x2|x2];
    try discriminate; unfold compare; cbn [is_null];
    try (intros [= <-]; reflexivity).
  - intros [= <-]. f_equal. zcases; lia.
  - intros [= <-]. f_equal. destruct x1, x2; reflexivity.
  - intros [= <-]. f_equal. apply compare_float_swap.
  - intros [= <-]. f_equal. apply compare_float_swap.
  - intros [= <-]. f_equal. zcases; lia.
Qed.

(** Null, integers, booleans, links and strings. *)
Definition discrete (m : t) : bool :=
  match m with
  | Null | Int _ | Bool _ | Link _ | String _ => true
  | _ => false
  end.

(** X14.  On null, integers, booleans, links and strings [compare] answers 0
    exactly for two values that are the same value; for strings this holds
    whatever [utf8_compare] answers. *)
Theorem compare_zero_iff_equal a b :
  discrete a = true -> discrete b = true ->
  (compare utf8_compare memcmp timestamp_gt timestamp_lt a b = Some 0 <-> a = b).
Proof.
  intros Ha Hb.
  destruct a as [|x1|x1|x1|x1|x1|x1|x1|x1|x1], b as [|x2|x2|x2|x2|x2|x2|x2|x2|x2];
    try discriminate; unfold compare; cbn [is_null];
    try (split; [discriminate | discriminate]);
    try (split; [intros [= ?]; lia | discriminate]).
  - split; reflexivity.
  - split; [intros [= H] | intros [= ->]].
    + f_equal. revert H. zcases; lia.
    + f_equal. zcases; lia.
  - split; [intros [= H] | intros [= ->]].
    + f_equal. destruct x1, x2; simpl in H; congruence.
    + f_equal. destruct x2; reflexivity.
  - unfold compare_string. split; [intros [= H] | intros [= ->]].
    + f_equal. destruct (String.eqb_spec x1 x2); [assumption|].
      destruct (utf8_compare x1 x2); discriminate.
    + now rewrite String.eqb_refl.
  - split; [intros [= H] | intros [= ->]].
    + f_equal. revert H. zcases; lia.
    + f_equal. zcases; lia.
Qed.

End Order.

Lemma compare_binary_lexicographic_witness :
  (compare_binary memcmp_ref [1; 2] [1; 2; 0] ?= 0) = lex [1; 2] [1; 2; 0]
  /\ (compare_binary memcmp_ref [1; 2] [1; 2; 0] = 0 <-> [1; 2] = [1; 2; 0]).
Proof.
  apply (compare_binary_lexicographic memcmp_ref).
  intros a b n Ha Hb. unfold memcmp_ref. rewrite Nat2Z.id.
  now apply memcmp_bytes_lex.
Defined.

Lemma compare_antisymmetric_witness :
  compare (fun _ _ => false) memcmp_ref (fun _ _ => false) (fun _ _ => false)
    (Double one) (Double nan_a)
  = Some (- -1).
Proof.
  apply (compare_antisymmetric
           (fun _ _ => false) memcmp_ref (fun _ _ => false) (fun _ _ => false)
           (Double nan_a) (Double one) (-1)).
  - reflexivity.
  - reflexivity.
  - vm_compute. reflexivity.
Defined.

Lemma compare_zero_iff_equal_witness :
  compare (fun _ _ => true) memcmp_ref (fun _ _ => false) (fun _ _ => false)
    (Int 7) (Int 7) = Some 0
  <-> Int 7 = Int 7.
Proof.
  apply (compare_zero_iff_equal
           (fun _ _ => true) memcmp_ref (fun _ _ => false) (fun _ _ => false)
           (Int 7) (Int 7)).
  - reflexivity.
  - reflexivity.
Defined.

End Mixed.

(** ** [Obj::add_int] *)

Module Obj.

Definition two64 : Z := 2 ^ 64.
Definition two63 : Z := 2 ^ 63.

(** [uint64_t(a)] of an [int64_t], and [int64_t(u)] of a [uint64_t]. *)
Definition to_uint64 (a : Z) : Z := a mod two64.
Definition to_int64 (u : Z) : Z := if u <? two63 then u else u - two64.

Definition is_int64 (a : Z) : Prop := - two63 <= a < two63.

(** The lambda [add_wrap] of [add_int]. *)
Definition add_wrap (a b : Z) : Z :=
  let ua := to_uint64 a in
  let ub := to_uint64 b in
  to_int64 ((ua + ub) mod two64).

Inductive LogicError := illegal_combination.

(** The integer column of the object at its row: [ArrayInteger] when the
    column is not nullable, [ArrayIntNull] (which can hold null) when
    [col_attr_Nullable] is set. *)
Inductive values :=
| ArrayInteger (v : Z)
| ArrayIntNull (v : option Z).

(** The object as [add_int] sees it: the column, the value the search index
    holds for the object's key when the column has an index, and the
    instructions sent to replication when there is one. *)
Record t := {
  fields : values;
  search_index : option Z;
  replication : option (list Z)
}.

Definition col_attr_Nullable (o : t) : bool :=
  match fields o with ArrayIntNull _ => true | ArrayInteger _ => false end.

Definition index_set (new_val : Z) (index : option Z) : option Z :=
  match index with Some _ => Some new_val | None => None end.

Definition repl_add_int (value : Z) (repl : option (list Z)) : option (list Z) :=
  match repl with Some log => Some (log ++ [value]) | None => None end.

(** [col_key] is a column of the object's table ([report_invalid_key] does
    not throw).  [inl]: the exception thrown. *)
Definition add_int (value : Z) (o : t) : LogicError + t :=
  match fields o with
  | ArrayIntNull old =>
      match old with
      | Some old =>
          let new_val := add_wrap old value in
          inr {| fields := ArrayIntNull (Some new_val);
                 search_index := index_set new_val (search_index o);
                 replication := repl_add_int value (replication o) |}
      | None => inl illegal_combination
      end
  | ArrayInteger old =>
      let new_val := add_wrap old value in
      inr {| fields := ArrayInteger new_val;
             search_index := index_set new_val (search_index o);
             replication := repl_add_int value (replication o) |}
  end.

(** The value stored in the column, [None] for null. *)
Definition stored (o : t) : option Z :=
  match fields o with
  | ArrayInteger v => Some v
  | ArrayIntNull v => v
  end.

Lemma two64_eq : two64 = 18446744073709551616.
Proof. reflexivity. Qed.

Lemma two63_eq : two63 = 9223372036854775808.
Proof. reflexivity. Qed.

Lemma add_wrap_is_int64 a b : is_int64 (add_wrap a b).
Proof.
  unfold add_wrap, to_int64, is_int64. cbv zeta.
  pose proof (Z.mod_pos_bound (to_uint64 a + to_uint64 b) two64) as H.
  rewrite two64_eq, two63_eq in *.
  destruct (Z.ltb_spec ((to_uint64 a + to_uint64 b) mod 18446744073709551616)
                       9223372036854775808); lia.
Qed.

Lemma add_wrap_congruent a b : (add_wrap a b - (a + b)) mod two64 = 0.
Proof.
  unfold add_wrap, to_int64, to_uint64. cbv zeta.
  rewrite <- Zplus_mod.
  destruct (Z.ltb_spec ((a + b) mod two64) two63).
  - rewrite Zminus_mod, Z.mod_mod, Z.sub_diag by (rewrite two64_eq; lia).
    reflexivity.
  - replace ((a + b) mod two64 - two64 - (a + b))
      with ((a + b) mod two64 - (a + b) + (-1) * two64) by lia.
    rewrite Z.mod_add by (rewrite two64_eq; lia).
    rewrite Zminus_mod, Z.mod_mod, Z.sub_diag by (rewrite two64_eq; lia).
    reflexivity.
Qed.

Lemma add_wrap_exact a b : is_int64 (a + b) -> add_wrap a b = a + b.
Proof.
  intros H.
  pose proof (add_wrap_is_int64 a b) as Hr.
  pose proof (add_wrap_congruent a b) as Hc.
  apply Z.mod_divide in Hc; [|rewrite two64_eq; lia].
  destruct Hc as [k Hk]. unfold is_int64 in *.
  rewrite two64_eq in Hk. rewrite two63_eq in *. lia.
Qed.

Definition null_object : t :=
  {| fields := ArrayIntNull None; search_index := None; replication := None |}.

(** C9 as stated fails: on a nullable column that holds null, [add_int]
    throws [LogicError::illegal_combination]. *)
Lemma add_int_null_raises : add_int 1 null_object = inl illegal_combination.
Proof. reflexivity. Qed.

(** C9, amended.  On every stored integer [add_int] does not raise, and the
    new value is the two's-complement wrap-around sum: the 64-bit unsigned
    sum of the stored value and the operand, read as signed.  On a nullable
    column that holds null it raises [illegal_combination]. *)
Theorem add_int_wraps_or_rejects_null (o : t) (value : Z) :
  is_int64 value ->
  (forall old, stored o = Some old -> is_int64 old ->
     exists o', add_int value o = inr o'
                /\ stored o' = Some (add_wrap old value)
                /\ add_wrap old value = to_int64 ((to_uint64 old + to_uint64 value) mod two64)
                /\ is_int64 (add_wrap old value)
                /\ (add_wrap old value - (old + value)) mod two64 = 0
                /\ (is_int64 (old + value) -> add_wrap old value = old + value))
  /\ (stored o = None -> add_int value o = inl illegal_combination).
Proof.
  intros Hvalue. split.
  - intros old Hstored Hold.
    destruct o as [[v | [v |]] index repl]; simpl in Hstored; try discriminate;
      injection Hstored as ->;
      (eexists; split; [reflexivity|]; split; [reflexivity|]; split; [reflexivity|];
       split; [apply add_wrap_is_int64|]; split;
       [apply add_wrap_congruent | apply add_wrap_exact]).
  - intros Hstored.
    destruct o as [[v | [v |]] index repl]; simpl in Hstored; try discriminate.
    reflexivity.
Qed.

Definition max_object : t :=
  {| fields := ArrayIntNull (Some 9223372036854775807);
     search_index := Some 9223372036854775807;
     replication := Some [] |}.

Example add_int_overflow :
  add_int 1 max_object
  = inr {| fields := ArrayIntNull (Some (-9223372036854775808));
           search_index := Some (-9223372036854775808);
           replication := Some [1] |}.
Proof. vm_compute. reflexivity. Qed.

Lemma add_int_wraps_or_rejects_null_witness :
  exists o', add_int 1 max_object = inr o'
             /\ stored o' = Some (add_wrap 9223372036854775807 1)
             /\ add_wrap 9223372036854775807 1
                = to_int64 ((to_uint64 9223372036854775807 + to_uint64 1) mod two64)
             /\ is_int64 (add_wrap 9223372036854775807 1)
             /\ (add_wrap 9223372036854775807 1 - (9223372036854775807 + 1)) mod two64 = 0
             /\ (is_int64 (9223372036854775807 + 1) ->
                 add_wrap 9223372036854775807 1 = 9223372036854775807 + 1).
Proof.
  apply (proj1 (add_int_wraps_or_rejects_null max_object 1
                  ltac:(unfold is_int64; rewrite two63_eq; lia))
           9223372036854775807 eq_refl).
  unfold is_int64. rewrite two63_eq. lia.
Defined.

(** *** Sequences of [add_int] *)

Lemma to_uint64_to_int64 u : 0 <= u < two64 -> to_uint64 (to_int64 u) = u.
Proof.
  intros Hu. unfold to_uint64, to_int64. rewrite two64_eq, two63_eq in *.
  destruct (Z.ltb_spec u 9223372036854775808).
  - apply Z.mod_small. lia.
  - replace (u - 18446744073709551616) with (u + (-1) * 18446744073709551616) by lia.
    rewrite Z.mod_add by lia. apply Z.mod_small. lia.
Qed.

Lemma to_int64_to_uint64 a : is_int64 a -> to_int64 (to_uint64 a) = a.
Proof.
  unfold is_int64, to_uint64, to_int64. rewrite two64_eq, two63_eq. intros Ha.
  destruct (Z.lt_ge_cases a 0) as [Hneg | Hpos].
  - assert (Hm : a mod 18446744073709551616 = a + 18446744073709551616).
    { symmetry. apply (Z.mod_unique a 18446744073709551616 (-1)); lia. }
    rewrite Hm.
    destruct (Z.ltb_spec (a + 18446744073709551616) 9223372036854775808); lia.
  - rewrite Z.mod_small by lia.
    destruct (Z.ltb_spec a 9223372036854775808); lia.
Qed.

Lemma add_wrap_sum a b : add_wrap a b = to_int64 ((a + b) mod two64).
Proof.
  unfold add_wrap, to_uint64. cbv zeta.
  now rewrite <- Zplus_mod.
Qed.

Lemma to_uint64_add_wrap a b : to_uint64 (add_wrap a b) = (a + b) mod two64.
Proof.
  rewrite add_wrap_sum. apply to_uint64_to_int64.
  apply Z.mod_pos_bound. rewrite two64_eq. lia.
Qed.

Lemma add_wrap_assoc a b c : add_wrap (add_wrap a b) c = add_wrap a (add_wrap b c).
Proof.
  unfold add_wrap at 1 3. cbv zeta. rewrite !to_uint64_add_wrap.
  unfold to_uint64.
  rewrite !Zplus_mod_idemp_l, !Zplus_mod_idemp_r.
  now rewrite Z.add_assoc.
Qed.

Lemma add_wrap_opp old v : is_int64 old -> add_wrap (add_wrap old v) (- v) = old.
Proof.
  intros Hold. unfold add_wrap at 1. cbv zeta. rewrite to_uint64_add_wrap.
  unfold to_uint64. rewrite Zplus_mod_idemp_l, Zplus_mod_idemp_r.
  replace (old + v + - v) with old by lia.
  now apply to_int64_to_uint64.
Qed.

(** X15.  Two additions in a row leave the column and the search index as one
    addition of the wrapped sum of the operands does; replication has been
    sent both operands, in order. *)
Theorem add_int_composes (o o1 : t) (a b : Z) :
  add_int a o = inr o1 ->
  exists o2 o12,
    add_int b o1 = inr o2
    /\ add_int (add_wrap a b) o = inr o12
    /\ fields o2 = fields o12
    /\ search_index o2 = search_index o12
    /\ replication o2 = option_map (fun log => log ++ [a; b]) (replication o).
Proof.
  intros Hrun.
  assert (Hindex : forall (index : option Z) x y,
            index_set y (index_set x index) = index_set y index)
    by (intros [i|] x y; reflexivity).
  assert (Hrepl : forall repl,
            repl_add_int b (repl_add_int a repl)
            = option_map (fun log => log ++ [a; b]) repl).
  { intros [log|]; simpl; [now rewrite <- app_assoc | reflexivity]. }
  destruct o as [[v | [v |]] index repl]; unfold add_int in *; simpl in *;
    try discriminate; injection Hrun as <-; simpl; eexists _, _;
    repeat split; simpl; rewrite ?add_wrap_assoc, ?Hindex, ?Hrepl; reflexivity.
Qed.

(** X16.  Adding [v] and then [-v] (both 64-bit values) restores the stored
    integer, also when the first addition wrapped around. *)
Theorem add_int_undone_by_opposite (o : t) (old v : Z) :
  stored o = Some old -> is_int64 old ->
  is_int64 v -> is_int64 (- v) ->
  exists o1 o2,
    add_int v o = inr o1
    /\ add_int (- v) o1 = inr o2
    /\ fields o2 = fields o
    /\ stored o2 = Some old.
Proof.
  intros Hstored Hold _ _.
  destruct o as [[x | [x |]] index repl]; simpl in Hstored; try discriminate;
    injection Hstored as ->; unfold add_int; simpl; eexists _, _;
    repeat split; simpl; rewrite ?add_wrap_opp by assumption; reflexivity.
Qed.

(** X17.  The search index and the column agree after every addition that does
    not raise: an index on the column holds the new stored value for the
    object's key. *)
Theorem add_int_updates_search_index (o o' : t) (value : Z) :
  add_int value o = inr o' ->
  (forall key_value, search_index o' = Some key_value -> stored o' = Some key_value)
  /\ (search_index o' = None <-> search_index o = None).
Proof.
  intros Hrun.
  destruct o as [[x | [x |]] [i|] repl]; unfold add_int in *; simpl in *;
    try discriminate; injection Hrun as <-; unfold stored; simpl;
    (split; [intros k; congruence | split; congruence]).
Qed.

Lemma add_int_composes_witness :
  exists o2 o12,
    add_int 5 {| fields := ArrayIntNull (Some (-9223372036854775808));
                 search_index := Some (-9223372036854775808);
                 replication := Some [1] |}
    = inr o2
    /\ add_int (add_wrap 1 5) max_object = inr o12
    /\ fields o2 = fields o12
    /\ search_index o2 = search_index o12
    /\ replication o2 = option_map (fun log => log ++ [1; 5]) (replication max_object).
Proof.
  apply (add_int_composes max_object _ 1 5). reflexivity.
Defined.

Lemma add_int_undone_by_opposite_witness :
  exists o1 o2,
    add_int 1 max_object = inr o1
    /\ add_int (- 1) o1 = inr o2
    /\ fields o2 = fields max_object
    /\ stored o2 = Some 9223372036854775807.
Proof.
  apply (add_int_undone_by_opposite max_object 9223372036854775807 1).
  - reflexivity.
  - unfold is_int64. rewrite two63_eq. lia.
  - unfold is_int64. rewrite two63_eq. lia.
  - unfold is_int64. rewrite two63_eq. lia.
Defined.

Lemma add_int_updates_search_index_witness :
  (forall key_value,
     search_index {| fields := ArrayIntNull (Some (-9223372036854775808));
                     search_index := Some (-9223372036854775808);
                     replication := Some [1] |} = Some key_value ->
     stored {| fields := ArrayIntNull (Some (-9223372036854775808));
               search_index := Some (-9223372036854775808);
               replication := Some [1] |} = Some key_value)
  /\ (search_index {| fields := ArrayIntNull (Some (-9223372036854775808));
                      search_index := Some (-9223372036854775808);
                      replication := Some [1] |} = None
      <-> search_index max_object = None).
Proof.
  apply (add_int_updates_search_index max_object _ 1). reflexivity.
Defined.

End Obj.

(** ** [LinkMap::map_links] *)

Module LinkMap.

Inductive ColumnType :=
| col_type_Link
| col_type_LinkList
| col_type_BackLink
| col_type_Int.

(** [ObjKey]: a 64-bit value; the null key is -1 and converts to [false]. *)
Definition ObjKey : Type := Z.
Definition null_key : ObjKey := -1.
Definition is_set (k : ObjKey) : bool := negb (k =? null_key).

Record t := { m_link_types : list ColumnType }.

Section Traversal.

(** The visitor [lm] (a [LinkMapFunction]) and its [consume]. *)
Context {V : Type}.
Variable consume : ObjKey -> V -> bool * V.

(** The objects: for the table and link column at position [column] of the
    chain, the link, the link list and the backlinks of the object [key]. *)
Variable get_link : nat -> ObjKey -> ObjKey.
Variable get_list : nat -> ObjKey -> list ObjKey.
Variable get_all_backlinks : nat -> ObjKey -> list ObjKey.

(** The loop over the keys of a list or backlink hop that is the last of
    the chain: [if (!continue2) return;]. *)
Fixpoint consume_each (keys : list ObjKey) (lm : V) : V :=
  match keys with
  | [] => lm
  | k :: keys' =>
      let '(continue2, lm') := consume k lm in
      if continue2 then consume_each keys' lm' else lm'
  end.

(** The same loop on a hop that is not the last: every key is handed to the
    next hop. *)
Definition descend_each (next : ObjKey -> V -> option V) : list ObjKey -> V -> option V :=
  fix loop (keys : list ObjKey) (lm : V) : option V :=
    match keys with
    | [] => Some lm
    | k :: keys' =>
        match next k lm with
        | Some lm' => loop keys' lm'
        | None => None
        end
    end.

(** [map_links(column, key, lm)]; [types] is [m_link_types] from [column]
    on, so [last] is [rest = []].  [None]: [REALM_ASSERT(false)], or
    [m_link_types[column]] past the end. *)
Fixpoint map_links_from (types : list ColumnType) (column : nat) (key : ObjKey) (lm : V)
    : option V :=
  match types with
  | [] => None
  | type :: rest =>
      let last := match rest with [] => true | _ :: _ => false end in
      match type with
      | col_type_Link =>
          let k := get_link column key in
          if is_set k then
            if last then Some (snd (consume k lm))
            else map_links_from rest (S column) k lm
          else Some lm
      | col_type_LinkList =>
          let linklist := get_list column key in
          if last then Some (consume_each linklist lm)
          else descend_each (map_links_from rest (S column)) linklist lm
      | col_type_BackLink =>
          let backlinks := get_all_backlinks column key in
          if last then Some (consume_each backlinks lm)
          else descend_each (map_links_from rest (S column)) backlinks lm
      | col_type_Int => None
      end
  end.

Definition map_links (lmap : t) (column : nat) (key : ObjKey) (lm : V) : option V :=
  map_links_from (drop column (m_link_types lmap)) column key lm.

(** The overload that starts from a row of the current leaf
    ([m_leaf_ptr]): the first hop is read from the leaf, the following hops
    are [map_links(column + 1, k, lm)] on keys. *)
Variable leaf_key : Z -> ObjKey.
Variable leaf_list : Z -> option (list ObjKey).
Variable leaf_backlinks : Z -> list ObjKey.

Definition map_links_row (lmap : t) (column : nat) (row : Z) (lm : V) : option V :=
  match drop column (m_link_types lmap) with
  | [] => None
  | type :: rest =>
      let last := match rest with [] => true | _ :: _ => false end in
      match type with
      | col_type_Link =>
          let k := leaf_key row in
          if is_set k then
            if last then Some (snd (consume k lm))
            else map_links_from rest (S column) k lm
          else Some lm
      | col_type_LinkList =>
          match leaf_list row with
          | Some links =>
              if last then Some (consume_each links lm)
              else descend_each (map_links_from rest (S column)) links lm
          | None => Some lm
          end
      | col_type_BackLink =>
          let back_links := leaf_backlinks row in
          if last then Some (consume_each back_links lm)
          else descend_each (map_links_from rest (S column)) back_links lm
      | col_type_Int => None
      end
  end.

End Traversal.

(** *** What the visitor sees

    A visitor is observed by recording every key passed to [consume]
    together with the answer it gave. *)

Section Observed.

Context {V : Type}.
Variable consume : ObjKey -> V -> bool * V.

Definition recording (k : ObjKey) (s : list (ObjKey * bool) * V) : bool * (list (ObjKey * bool) * V) :=
  let '(continue2, v') := consume k (snd s) in
  (continue2, (fst s ++ [(k, continue2)], v')).

(** No key is passed after an answer [false]. *)
Definition stops_at_false (calls : list (ObjKey * bool)) : Prop :=
  forall before k after, calls = before ++ (k, false) :: after -> after = [].

Lemma stops_at_false_all_true calls :
  Forall (fun c => snd c = true) calls -> stops_at_false calls.
Proof.
  intros H before k after Heq. subst calls.
  apply Forall_app in H. destruct H as [_ H].
  inversion H as [|c l Hc Hl]; subst. discriminate.
Qed.

Lemma stops_at_false_snoc calls k b :
  Forall (fun c => snd c = true) calls -> stops_at_false (calls ++ [(k, b)]).
Proof.
  intros H before k' after. revert before.
  induction H as [|c calls Hc H IH]; intros before Heq.
  - destruct before as [|x before]; simpl in Heq.
    + now injection Heq.
    + injection Heq as _ Heq. now destruct before.
  - destruct before as [|x before]; simpl in Heq.
    + injection Heq as -> _. discriminate.
    + injection Heq as _ Heq. now apply (IH before).
Qed.

(** On the last hop the loop does stop: keys are passed while the visitor
    answers [true], and the first [false] ends the loop. *)
Lemma consume_each_stops keys : forall calls v,
  Forall (fun c => snd c = true) calls ->
  stops_at_false (fst (consume_each recording keys (calls, v))).
Proof.
  induction keys as [|k keys IH]; intros calls v Hcalls.
  - simpl. now apply stops_at_false_all_true.
  - simpl. unfold recording at 1. simpl.
    destruct (consume k v) as [continue2 v'] eqn:E.
    destruct continue2.
    + apply IH. apply Forall_app. split; [assumption|]. now repeat constructor.
    + simpl. now apply stops_at_false_snoc.
Qed.

End Observed.

(** *** A chain of two list hops

    Object 1 lists 10 and 20; object 10 lists 100 and 101; object 20 lists
    200.  The visitor wants the first key only: it records the key and
    answers [false]. *)

Definition two_lists : t := {| m_link_types := [col_type_LinkList; col_type_LinkList] |}.

Definition lists (column : nat) (key : ObjKey) : list ObjKey :=
  match column, key with
  | O, 1 => [10; 20]
  | S O, 10 => [100; 101]
  | S O, 20 => [200]
  | _, _ => []
  end.

Definition first_only (k : ObjKey) (seen : list ObjKey) : bool * list ObjKey :=
  (false, seen ++ [k]).

(** C8 (the code departs from it).  After the visitor answered [false] at
    key 100 the inner loop returns, but the loop of the enclosing hop goes
    on to object 20 and key 200 is passed to the visitor. *)
Theorem map_links_goes_on_after_false :
  map_links first_only (fun _ _ => null_key) lists (fun _ _ => []) two_lists 0 1 []
  = Some [100; 200]
  /\ map_links (recording first_only) (fun _ _ => null_key) lists (fun _ _ => [])
       two_lists 0 1 ([], [])
     = Some ([(100, false); (200, false)], [100; 200])
  /\ ~ stops_at_false [(100, false); (200, false)].
Proof.
  split; [reflexivity|]. split; [reflexivity|].
  intros H. specialize (H [] 100 [(200, false)] eq_refl). discriminate.
Qed.

(** With one hop the same visitor is passed one key. *)
Example map_links_one_hop_stops :
  map_links first_only (fun _ _ => null_key) lists (fun _ _ => [])
    {| m_link_types := [col_type_LinkList] |} 0 1 []
  = Some [10].
Proof. reflexivity. Qed.

(** *** Which keys the visitor is handed *)

Definition is_list_or_backlink (type : ColumnType) : bool :=
  match type with
  | col_type_LinkList | col_type_BackLink => true
  | _ => false
  end.

Definition is_backlink (type : ColumnType) : bool :=
  match type with col_type_BackLink => true | _ => false end.

Section Targets.

Context {V : Type}.
Variable consume : ObjKey -> V -> bool * V.
Variable get_link : nat -> ObjKey -> ObjKey.
Variable get_list : nat -> ObjKey -> list ObjKey.
Variable get_all_backlinks : nat -> ObjKey -> list ObjKey.

(** The keys one hop leads to from the object [key]. *)
Definition hop (type : ColumnType) (column : nat) (key : ObjKey) : list ObjKey :=
  match type with
  | col_type_Link => let k := get_link column key in if is_set k then [k] else []
  | col_type_LinkList => get_list column key
  | col_type_BackLink => get_all_backlinks column key
  | col_type_Int => []
  end.

(** The keys at the end of the chain, one for every path that leads there,
    depth first in the order of the lists. *)
Fixpoint targets (types : list ColumnType) (column : nat) (key : ObjKey) : list ObjKey :=
  match types with
  | [] => []
  | type :: rest =>
      match rest with
      | [] => hop type column key
      | _ :: _ => List.flat_map (targets rest (S column)) (hop type column key)
      end
  end.

Definition is_link (type : ColumnType) : bool :=
  match type with col_type_Int => false | _ => true end.

Lemma consume_each_all (keys : list ObjKey) : forall lm,
  (forall k v, fst (consume k v) = true) ->
  consume_each consume keys lm = fold_left (fun v k => snd (consume k v)) keys lm.
Proof.
  induction keys as [|k keys IH]; intros lm Hgo; simpl; [reflexivity|].
  specialize (Hgo k lm) as Hk. destruct (consume k lm) as [continue2 lm'].
  simpl in *. subst continue2. now apply IH.
Qed.

Lemma descend_each_all (next : ObjKey -> V -> option V) (reached : ObjKey -> list ObjKey)
    (keys : list ObjKey) : forall lm,
  (forall k v, In k keys ->
     next k v = Some (fold_left (fun v k => snd (consume k v)) (reached k) v)) ->
  descend_each next keys lm
  = Some (fold_left (fun v k => snd (consume k v)) (List.flat_map reached keys) lm).
Proof.
  induction keys as [|k keys IH]; intros lm Hnext; simpl; [reflexivity|].
  rewrite (Hnext k lm (or_introl eq_refl)), fold_left_app.
  apply IH. intros k' v Hin. apply Hnext. now right.
Qed.

Lemma map_links_from_not_last type type' rest' column key (lm : V) :
  map_links_from consume get_link get_list get_all_backlinks
    (type :: type' :: rest') column key lm
  = match type with
    | col_type_Link =>
        if is_set (get_link column key) then
          map_links_from consume get_link get_list get_all_backlinks
            (type' :: rest') (S column) (get_link column key) lm
        else Some lm
    | col_type_LinkList =>
        descend_each
          (map_links_from consume get_link get_list get_all_backlinks
             (type' :: rest') (S column))
          (get_list column key) lm
    | col_type_BackLink =>
        descend_each
          (map_links_from consume get_link get_list get_all_backlinks
             (type' :: rest') (S column))
          (get_all_backlinks column key) lm
    | col_type_Int => None
    end.
Proof. destruct type; reflexivity. Qed.

Lemma targets_not_last type type' rest' column key :
  targets (type :: type' :: rest') column key
  = List.flat_map (targets (type' :: rest') (S column)) (hop type column key).
Proof. reflexivity. Qed.

Lemma map_links_from_all_targets (types : list ColumnType) :
  forall (column : nat) (key : ObjKey) (lm : V),
    types <> [] ->
    forallb is_link types = true ->
    (forall k v, fst (consume k v) = true) ->
    map_links_from consume get_link get_list get_all_backlinks types column key lm
    = Some (fold_left (fun v k => snd (consume k v)) (targets types column key) lm).
Proof.
  induction types as [|type rest IH]; intros column key lm Hne Hlinks Hgo; [contradiction|].
  simpl in Hlinks. apply andb_true_iff in Hlinks. destruct Hlinks as [Htype Hrest].
  destruct rest as [|type' rest'].
  - destruct type; try discriminate; simpl.
    + destruct (is_set (get_link column key)); reflexivity.
    + now rewrite consume_each_all.
    + now rewrite consume_each_all.
  - assert (Hnext : forall k v,
              map_links_from consume get_link get_list get_all_backlinks
                (type' :: rest') (S column) k v
              = Some (fold_left (fun v k => snd (consume k v))
                        (targets (type' :: rest') (S column) k) v)).
    { intros k v. apply IH; [discriminate | assumption | assumption]. }
    rewrite map_links_from_not_last, targets_not_last.
    destruct type; try discriminate; unfold hop.
    + destruct (is_set (get_link column key)); [|reflexivity].
      rewrite Hnext. cbn [List.flat_map]. now rewrite app_nil_r.
    + apply descend_each_all. intros k v _. apply Hnext.
    + apply descend_each_all. intros k v _. apply Hnext.
Qed.

(** X18.  A visitor that never asks to stop is handed every key at the end of the
    chain, in the order of [targets]; on a chain of link, list and backlink
    hops the traversal from any of its hops does not fail. *)
Theorem map_links_visits_all_targets (lmap : t) (column : nat) (key : ObjKey) (lm : V) :
  (column < length (m_link_types lmap))%nat ->
  forallb is_link (m_link_types lmap) = true ->
  (forall k v, fst (consume k v) = true) ->
  map_links consume get_link get_list get_all_backlinks lmap column key lm
  = Some (fold_left (fun v k => snd (consume k v))
            (targets (drop column (m_link_types lmap)) column key) lm).
Proof.
  intros Hcolumn Hlinks Hgo. unfold map_links.
  apply map_links_from_all_targets; [| | exact Hgo].
  - intros Hnil. apply (f_equal length) in Hnil. rewrite length_drop in Hnil.
    simpl in Hnil. lia.
  - rewrite <- (take_drop column (m_link_types lmap)), forallb_app in Hlinks.
    now apply andb_true_iff in Hlinks.
Qed.

(** On a chain without list and backlink hops the visitor is handed at most
    one key, whatever it answers. *)
Lemma map_links_from_unary (types : list ColumnType) :
  forall (column : nat) (key : ObjKey) calls v calls' v',
    existsb is_list_or_backlink types = false ->
    map_links_from (recording consume) get_link get_list get_all_backlinks
      types column key (calls, v) = Some (calls', v') ->
    exists handed, calls' = calls ++ handed /\ (length handed <= 1)%nat.
Proof.
  induction types as [|type rest IH]; intros column key calls v calls' v' Hunary Hrun;
    [discriminate|].
  simpl in Hunary. apply orb_false_iff in Hunary. destruct Hunary as [Htype Hrest].
  destruct type; try discriminate. simpl in Hrun.
  destruct (is_set (get_link column key)).
  - destruct rest as [|type' rest'].
    + unfold recording in Hrun at 1. simpl in Hrun.
      destruct (consume (get_link column key) v) as [continue2 v1].
      simpl in Hrun. injection Hrun as <- <-.
      eexists. split; [reflexivity | simpl; lia].
    + now apply (IH (S column) (get_link column key) calls v calls' v').
  - injection Hrun as <- <-. exists []. split; [now rewrite app_nil_r | simpl; lia].
Qed.

End Targets.

(** *** [LinkMap::get_origin_ndxs]: the chain backwards *)

Section Origins.

Variable get_link : nat -> ObjKey -> ObjKey.
Variable get_list : nat -> ObjKey -> list ObjKey.
Variable get_all_backlinks : nat -> ObjKey -> list ObjKey.

(** For the hop at [column]: the backlinks of an object of the hop's target
    table ([get_backlink_count] and [get_backlink]); and, for a backlink
    hop, the type of the forward column and the link or the link list of an
    object of the linking table. *)
Variable backlinks_of : nat -> ObjKey -> list ObjKey.
Variable forward_type : nat -> ColumnType.
Variable forward_link : nat -> ObjKey -> ObjKey.
Variable forward_list : nat -> ObjKey -> list ObjKey.

(** What one round of the loops over [keys] adds to [ret] for the key [k];
    [None]: [REALM_ASSERT(forward_type == type_LinkList)] fails. *)
Definition origins (link_type : ColumnType) (column : nat) (k : ObjKey)
    : option (list ObjKey) :=
  match link_type with
  | col_type_BackLink =>
      match forward_type column with
      | col_type_Link => Some [forward_link column k]
      | col_type_LinkList => Some (forward_list column k)
      | _ => None
      end
  | _ => Some (backlinks_of column k)
  end.

Fixpoint collect_origins (link_type : ColumnType) (column : nat) (keys : list ObjKey)
    : option (list ObjKey) :=
  match keys with
  | [] => Some []
  | k :: keys' =>
      match origins link_type column k with
      | None => None
      | Some added =>
          match collect_origins link_type column keys' with
          | None => None
          | Some ret => Some (added ++ ret)
          end
      end
  end.

(** [types] is [m_link_types] from [column] on, so [column ==
    m_link_types.size()] is [types = []].  [get_origin_ndxs] with [column]
    past the end never meets that test and reads outside the vectors: it
    fails. *)
Fixpoint get_origin_ndxs_from (types : list ColumnType) (column : nat) (key : ObjKey)
    : option (list ObjKey) :=
  match types with
  | [] => Some [key]
  | link_type :: rest =>
      match get_origin_ndxs_from rest (S column) key with
      | None => None
      | Some keys => collect_origins link_type column keys
      end
  end.

Definition get_origin_ndxs (lmap : t) (key : ObjKey) (column : nat)
    : option (list ObjKey) :=
  if (length (m_link_types lmap) <? column)%nat then None
  else get_origin_ndxs_from (drop column (m_link_types lmap)) column key.

Lemma collect_origins_run link_type column (reach : ObjKey -> ObjKey -> Prop)
    (keys : list ObjKey) :
  (forall k, exists from,
     origins link_type column k = Some from /\ forall o, In o from <-> reach o k) ->
  exists ret,
    collect_origins link_type column keys = Some ret
    /\ forall o, In o ret <-> exists k, In k keys /\ reach o k.
Proof.
  intros Hstep. induction keys as [|k keys IH]; simpl.
  - exists []. split; [reflexivity|]. intros o. split; [intros [] | intros (k & [] & _)].
  - destruct (Hstep k) as (from & Hfrom & Hreach). rewrite Hfrom.
    destruct IH as (ret & Hret & Hin). rewrite Hret.
    exists (from ++ ret). split; [reflexivity|]. intros o. rewrite in_app_iff. split.
    + intros [Ho | Ho].
      * exists k. split; [now left | now apply Hreach].
      * apply Hin in Ho. destruct Ho as (k' & Hk' & Hr). exists k'. split; [now right | exact Hr].
    + intros (k' & [<- | Hk'] & Hr); [left; now apply Hreach|].
      right. apply Hin. now exists k'.
Qed.

Lemma get_origin_ndxs_from_run (types : list ColumnType) : forall column key,
  types <> [] ->
  (forall i link_type k, types !! i = Some link_type ->
     exists from,
       origins link_type (column + i) k = Some from
       /\ forall o, In o from
                    <-> In k (hop get_link get_list get_all_backlinks
                                link_type (column + i) o)) ->
  exists from,
    get_origin_ndxs_from types column key = Some from
    /\ forall o, In o from
                 <-> In key (targets get_link get_list get_all_backlinks types column o).
Proof.
  induction types as [|link_type rest IH]; intros column key Hne Hlinks; [contradiction|].
  assert (Hhere : forall k, exists from,
            origins link_type column k = Some from
            /\ forall o, In o from
                         <-> In k (hop get_link get_list get_all_backlinks
                                     link_type column o)).
  { intros k. destruct (Hlinks O link_type k eq_refl) as (from & Hfrom & Hin).
    rewrite Nat.add_0_r in *. now exists from. }
  destruct rest as [|link_type' rest'].
  - simpl get_origin_ndxs_from.
    destruct (collect_origins_run link_type column
                (fun o k => In k (hop get_link get_list get_all_backlinks
                                    link_type column o))
                [key] Hhere) as (ret & Hret & Hin).
    exists ret. split; [exact Hret|]. intros o. rewrite Hin. simpl targets. split.
    + intros (k & [<- | []] & Hk). exact Hk.
    + intros Hk. exists key. split; [now left | exact Hk].
  - destruct (IH (S column) key) as (keys & Hkeys & Hreach); [discriminate | |].
    { intros i link_type0 k Hi.
      destruct (Hlinks (S i) link_type0 k Hi) as (from & Hfrom & Hin).
      replace (S column + i)%nat with (column + S i)%nat by lia. now exists from. }
    change (get_origin_ndxs_from (link_type :: link_type' :: rest') column key)
      with (match get_origin_ndxs_from (link_type' :: rest') (S column) key with
            | None => None
            | Some keys => collect_origins link_type column keys
            end).
    rewrite Hkeys.
    destruct (collect_origins_run link_type column
                (fun o k => In k (hop get_link get_list get_all_backlinks
                                    link_type column o))
                keys Hhere) as (ret & Hret & Hin).
    exists ret. split; [exact Hret|]. intros o. rewrite Hin.
    change (targets get_link get_list get_all_backlinks
              (link_type :: link_type' :: rest') column o)
      with (List.flat_map
              (targets get_link get_list get_all_backlinks (link_type' :: rest') (S column))
              (hop get_link get_list get_all_backlinks link_type column o)).
    rewrite in_flat_map. split.
    + intros (k & Hk & Hhop). exists k. split; [exact Hhop | now apply Hreach].
    + intros (k & Hhop & Hk). exists k. split; [now apply Hreach | exact Hhop].
Qed.

(** X19.  [get_origin_ndxs] turns the traversal round.  When, at every hop, the
    keys the loops add for an object are the objects the hop leads from to
    it (which is what the backlinks of a link column are kept for), the keys
    returned for [key] are exactly the objects from which [map_links] reaches
    [key]: those that have [key] among their [targets]. *)
Theorem get_origin_ndxs_inverts_traversal (lmap : t) (key : ObjKey) (column : nat) :
  (column < length (m_link_types lmap))%nat ->
  (forall c link_type k, m_link_types lmap !! c = Some link_type ->
     exists from,
       origins link_type c k = Some from
       /\ forall o, In o from
                    <-> In k (hop get_link get_list get_all_backlinks link_type c o)) ->
  exists from,
    get_origin_ndxs lmap key column = Some from
    /\ forall o, In o from
                 <-> In key (targets get_link get_list get_all_backlinks
                               (drop column (m_link_types lmap)) column o).
Proof.
  intros Hcolumn Hlinks. unfold get_origin_ndxs.
  destruct (Nat.ltb_spec (length (m_link_types lmap)) column); [lia|].
  apply get_origin_ndxs_from_run.
  - intros Hnil. apply (f_equal length) in Hnil. rewrite length_drop in Hnil.
    simpl in Hnil. lia.
  - intros i link_type k Hi. apply Hlinks. now rewrite lookup_drop in Hi.
Qed.

End Origins.

(** *** [LinkMap::set_base_table] and [LinkMap::collect_dependencies] *)

Record ColKey := { get_type : ColumnType; col_value : Z }.

Definition TableKey : Type := Z.

(** The members of a [LinkMap] beside [m_link_types]. *)
Record tables (Table : Type) := {
  m_link_column_keys : list ColKey;
  m_tables : list Table;
  m_only_unary_links : bool
}.
Arguments m_link_column_keys {Table}.
Arguments m_tables {Table}.
Arguments m_only_unary_links {Table}.

Section Tables.

(** Table references, with what the table class provides:
    [get_opposite_table], [valid_column], [get_key], the static
    [Table::is_link_type], and the test [table == get_base_table()]. *)
Variable Table : Type.
Variable get_opposite_table : Table -> ColKey -> Table.
Variable valid_column : Table -> ColKey -> bool.
Variable get_key : Table -> TableKey.
Variable is_link_type : ColumnType -> bool.
Variable is_base_table : t * tables Table -> Table -> bool.

(** The loop of [set_base_table] over [m_link_column_keys]; [None] when an
    assertion fails. *)
Fixpoint set_base_table_loop (keys : list ColKey) (table : Table)
    (tabs : list Table) (types : list ColumnType) (only_unary : bool)
    : option (list Table * list ColumnType * bool) :=
  match keys with
  | [] => Some (tabs, types, only_unary)
  | link_column_key :: keys' =>
      let type := get_type link_column_key in
      if negb (is_link_type type || is_backlink type) then None
      else
        let only_unary := if is_list_or_backlink type then false else only_unary in
        let types := types ++ [type] in
        if negb (valid_column table link_column_key) then None
        else
          let table := get_opposite_table table link_column_key in
          set_base_table_loop keys' table (tabs ++ [table]) types only_unary
  end.

Definition set_base_table (table : Table) (lm : t * tables Table)
    : option (t * tables Table) :=
  if is_base_table lm table then Some lm
  else
    match set_base_table_loop (m_link_column_keys (snd lm)) table [table] [] true with
    | None => None
    | Some (tabs, types, only_unary) =>
        Some ({| m_link_types := types |},
              {| m_link_column_keys := m_link_column_keys (snd lm);
                 m_tables := tabs;
                 m_only_unary_links := only_unary |})
    end.

(** [tables] is the vector the keys are added to. *)
Fixpoint collect_dependencies (m_tables : list Table) (tables : list TableKey)
    : list TableKey :=
  match m_tables with
  | [] => tables
  | t :: rest =>
      let k := get_key t in
      collect_dependencies rest
        (if negb (existsb (Z.eqb k) tables) then tables ++ [k] else tables)
  end.

Lemma set_base_table_loop_run (keys : list ColKey) :
  forall table tabs types only_unary tabs' types' only_unary',
    set_base_table_loop keys table tabs types only_unary
    = Some (tabs', types', only_unary') ->
    types' = types ++ map get_type keys
    /\ length tabs' = (length tabs + length keys)%nat
    /\ only_unary'
       = only_unary && negb (existsb is_list_or_backlink (map get_type keys)).
Proof.
  induction keys as [|key keys IH];
    intros table tabs types only_unary tabs' types' only_unary' Hrun; simpl in Hrun.
  - injection Hrun as <- <- <-. rewrite app_nil_r, andb_true_r. now repeat split.
  - destruct (is_link_type (get_type key) || is_backlink (get_type key));
      [|discriminate].
    destruct (valid_column table key); [|discriminate].
    simpl in Hrun. apply IH in Hrun. destruct Hrun as (Htypes & Hlen & Hunary).
    split; [|split].
    + rewrite Htypes, <- app_assoc. reflexivity.
    + rewrite Hlen, length_app. simpl. lia.
    + rewrite Hunary. simpl.
      destruct (is_list_or_backlink (get_type key)), only_unary; reflexivity.
Qed.

(** X20.  After [set_base_table] has rebuilt the chain there is a type for every
    link column and a table for every end of a hop, and
    [m_only_unary_links] is set exactly when no hop is a list or a backlink
    hop; the link columns are left as they were. *)
Theorem set_base_table_rebuilds_chain (table : Table) (lm lm' : t * tables Table) :
  is_base_table lm table = false ->
  set_base_table table lm = Some lm' ->
  m_link_types (fst lm') = map get_type (m_link_column_keys (snd lm))
  /\ length (m_tables (snd lm')) = S (length (m_link_column_keys (snd lm)))
  /\ head (m_tables (snd lm')) = Some table
  /\ m_link_column_keys (snd lm') = m_link_column_keys (snd lm)
  /\ (m_only_unary_links (snd lm') = true
      <-> Forall (fun key => is_list_or_backlink (get_type key) = false)
            (m_link_column_keys (snd lm))).
Proof.
  intros Hbase Hrun. unfold set_base_table in Hrun. rewrite Hbase in Hrun.
  destruct (set_base_table_loop (m_link_column_keys (snd lm)) table [table] [] true)
    as [[[tabs types] only_unary]|] eqn:Hloop; [|discriminate].
  injection Hrun as <-. simpl.
  assert (Hhead : forall keys tb tabs0 types0 u tabs1 types1 u1 x,
            set_base_table_loop keys tb (x :: tabs0) types0 u = Some (tabs1, types1, u1) ->
            head tabs1 = Some x).
  { induction keys as [|key keys IH]; intros tb tabs0 types0 u tabs1 types1 u1 x Hr;
      simpl in Hr.
    - now injection Hr as <- _ _.
    - destruct (is_link_type (get_type key) || is_backlink (get_type key));
        [|discriminate].
      destruct (valid_column tb key); [|discriminate]. simpl in Hr.
      now apply IH in Hr. }
  pose proof (Hhead _ _ _ _ _ _ _ _ _ Hloop) as Hh.
  apply set_base_table_loop_run in Hloop. destruct Hloop as (Htypes & Hlen & Hunary).
  split; [exact Htypes|]. split; [simpl in Hlen; lia|]. split; [exact Hh|].
  split; [reflexivity|].
  rewrite Hunary. simpl. rewrite negb_true_iff.
  rewrite <- not_true_iff_false, existsb_exists, List.Forall_forall.
  split.
  - intros Hnone key Hkey. apply not_true_iff_false. intros Hlist.
    apply Hnone. exists (get_type key). split; [|exact Hlist].
    apply in_map_iff. now exists key.
  - intros Hall (type & Hin & Hlist). apply in_map_iff in Hin.
    destruct Hin as (key & <- & Hkey). rewrite (Hall key Hkey) in Hlist. discriminate.
Qed.

(** X21.  What [m_only_unary_links] promises: when [set_base_table] has set it,
    [map_links] from any hop of the chain hands the visitor at most one
    key, whatever the visitor answers. *)
Theorem only_unary_links_hand_at_most_one_key
    {V : Type} (consume : ObjKey -> V -> bool * V)
    (get_link : nat -> ObjKey -> ObjKey)
    (get_list get_all_backlinks : nat -> ObjKey -> list ObjKey)
    (table : Table) (lm lm' : t * tables Table)
    (column : nat) (key : ObjKey) calls v calls' v' :
  is_base_table lm table = false ->
  set_base_table table lm = Some lm' ->
  m_only_unary_links (snd lm') = true ->
  map_links (recording consume) get_link get_list get_all_backlinks
    (fst lm') column key (calls, v) = Some (calls', v') ->
  exists handed, calls' = calls ++ handed /\ (length handed <= 1)%nat.
Proof.
  intros Hbase Hset Hunary Hrun. unfold set_base_table in Hset. rewrite Hbase in Hset.
  destruct (set_base_table_loop (m_link_column_keys (snd lm)) table [table] [] true)
    as [[[tabs types] only_unary]|] eqn:Hloop; [|discriminate].
  injection Hset as <-. simpl in *. subst only_unary.
  apply set_base_table_loop_run in Hloop. destruct Hloop as (Htypes & _ & Hu).
  simpl in Htypes. symmetry in Hu. apply negb_true_iff in Hu. rewrite <- Htypes in Hu.
  unfold map_links in Hrun. simpl in Hrun.
  apply (map_links_from_unary consume get_link get_list get_all_backlinks
           (drop column types) column key calls v calls' v'); [|exact Hrun].
  apply not_true_iff_false. intros Hex. apply existsb_exists in Hex.
  destruct Hex as (type & Hin & Hlist).
  apply not_true_iff_false in Hu. apply Hu. apply existsb_exists.
  exists type. split; [|exact Hlist].
  rewrite <- (take_drop column types). apply in_or_app. now right.
Qed.

Lemma collect_dependencies_adds (m_tables : list Table) : forall tables,
  exists added,
    collect_dependencies m_tables tables = tables ++ added
    /\ List.NoDup added
    /\ (forall k, In k added <-> (In k (map get_key m_tables) /\ ~ In k tables)).
Proof.
  induction m_tables as [|t rest IH]; intros tables; simpl.
  - exists []. rewrite app_nil_r. split; [reflexivity|]. split; [constructor|].
    intros k. split; [intros [] | intros [[] _]].
  - destruct (existsb (Z.eqb (get_key t)) tables) eqn:Hfound; simpl.
    + apply existsb_exists in Hfound. destruct Hfound as (k0 & Hin & Heq).
      apply Z.eqb_eq in Heq. subst k0.
      destruct (IH tables) as (added & Hrun & Hnodup & Hadded).
      exists added. split; [exact Hrun|]. split; [exact Hnodup|].
      intros k. rewrite Hadded. split.
      * intros [Hk Hnot]. split; [now right | exact Hnot].
      * intros [[<- | Hk] Hnot]; [contradiction | now split].
    + assert (Hnotin : ~ In (get_key t) tables).
      { intros Hin. apply not_true_iff_false in Hfound. apply Hfound.
        apply existsb_exists. exists (get_key t). split; [exact Hin | apply Z.eqb_refl]. }
      destruct (IH (tables ++ [get_key t])) as (added & Hrun & Hnodup & Hadded).
      exists (get_key t :: added). split; [rewrite Hrun, <- app_assoc; reflexivity|].
      split.
      * constructor; [|exact Hnodup]. intros Hin. apply Hadded in Hin.
        destruct Hin as [_ Hnot]. apply Hnot. apply in_or_app. right. now left.
      * intros k. simpl. rewrite Hadded. split.
        -- intros [<- | [Hk Hnot]]; [split; [now left | exact Hnotin]|].
           split; [now right|]. intros Hin. apply Hnot. apply in_or_app. now left.
        -- intros [[<- | Hk] Hnot]; [now left|].
           destruct (Z.eq_dec (get_key t) k) as [-> | Hne]; [now left | right].
           split; [exact Hk|]. intros Hin. apply in_app_or in Hin.
           destruct Hin as [Hin | [Heq | []]]; [contradiction | contradiction].
Qed.

Lemma collect_dependencies_present (m_tables : list Table) : forall tables,
  (forall t, In t m_tables -> In (get_key t) tables) ->
  collect_dependencies m_tables tables = tables.
Proof.
  induction m_tables as [|t rest IH]; intros tables Hall; simpl; [reflexivity|].
  assert (Hfound : existsb (Z.eqb (get_key t)) tables = true).
  { apply existsb_exists. exists (get_key t).
    split; [apply Hall; now left | apply Z.eqb_refl]. }
  rewrite Hfound. simpl. apply IH. intros t' Ht'. apply Hall. now right.
Qed.

(** X22.  [collect_dependencies] keeps the keys it is given, in place, and adds
    behind them, once each, the keys of the chain's tables that were not
    among them: a vector without repetitions stays without repetitions,
    afterwards it holds the key of every table of the chain, and a second
    call adds nothing. *)
Theorem collect_dependencies_adds_missing_keys_once
    (m_tables : list Table) (tables : list TableKey) :
  exists added,
    collect_dependencies m_tables tables = tables ++ added
    /\ List.NoDup added
    /\ (forall k, In k added <-> (In k (map get_key m_tables) /\ ~ In k tables))
    /\ (List.NoDup tables -> List.NoDup (tables ++ added))
    /\ (forall t, In t m_tables -> In (get_key t) (tables ++ added))
    /\ collect_dependencies m_tables (tables ++ added) = tables ++ added.
Proof.
  destruct (collect_dependencies_adds m_tables tables) as (added & Hrun & Hnodup & Hadded).
  assert (Hall : forall t, In t m_tables -> In (get_key t) (tables ++ added)).
  { intros t Ht. apply in_or_app.
    destruct (in_dec Z.eq_dec (get_key t) tables) as [Hin | Hnot]; [now left | right].
    apply Hadded. split; [|exact Hnot]. apply in_map_iff. now exists t. }
  exists added. split; [exact Hrun|]. split; [exact Hnodup|]. split; [exact Hadded|].
  split; [|split; [exact Hall | now apply collect_dependencies_present]].
  intros Htables. apply List.NoDup_app; [exact Htables | exact Hnodup |].
  intros k Hk Hin. apply Hadded in Hin. now destruct Hin.
Qed.

End Tables.

(** *** A chain of two single links

    Tables 7, 8 and 9; every object links to the object with the next
    key. *)

Definition example_is_link_type (type : ColumnType) : bool :=
  match type with col_type_Link | col_type_LinkList => true | _ => false end.

Definition example_is_base_table (lm : t * tables Z) (table : Z) : bool :=
  match m_tables (snd lm) with
  | base :: _ => base =? table
  | [] => false
  end.

Definition two_links : t * tables Z :=
  ({| m_link_types := [] |},
   {| m_link_column_keys := [ {| get_type := col_type_Link; col_value := 1 |};
                              {| get_type := col_type_Link; col_value := 2 |} ];
      m_tables := [];
      m_only_unary_links := false |}).

Definition two_links_on_7 : t * tables Z :=
  ({| m_link_types := [col_type_Link; col_type_Link] |},
   {| m_link_column_keys := [ {| get_type := col_type_Link; col_value := 1 |};
                              {| get_type := col_type_Link; col_value := 2 |} ];
      m_tables := [7; 8; 9];
      m_only_unary_links := true |}).

Example set_base_table_example :
  set_base_table Z (fun table _ => table + 1) (fun _ _ => true)
    example_is_link_type example_is_base_table 7 two_links
  = Some two_links_on_7.
Proof. reflexivity. Qed.

(** The second call with the same table returns at once. *)
Example set_base_table_again :
  set_base_table Z (fun table _ => table + 1) (fun _ _ => false)
    example_is_link_type example_is_base_table 7 two_links_on_7
  = Some two_links_on_7.
Proof. reflexivity. Qed.

Lemma set_base_table_rebuilds_chain_witness :
  m_link_types (fst two_links_on_7) = map get_type (m_link_column_keys (snd two_links))
  /\ length (m_tables (snd two_links_on_7)) = S (length (m_link_column_keys (snd two_links)))
  /\ head (m_tables (snd two_links_on_7)) = Some 7
  /\ m_link_column_keys (snd two_links_on_7) = m_link_column_keys (snd two_links)
  /\ (m_only_unary_links (snd two_links_on_7) = true
      <-> Forall (fun key => is_list_or_backlink (get_type key) = false)
            (m_link_column_keys (snd two_links))).
Proof.
  apply (set_base_table_rebuilds_chain Z (fun table _ => table + 1) (fun _ _ => true)
           example_is_link_type example_is_base_table 7 two_links two_links_on_7).
  - reflexivity.
  - reflexivity.
Defined.

Lemma only_unary_links_hand_at_most_one_key_witness :
  exists handed, [(3, false)] = [] ++ handed /\ (length handed <= 1)%nat.
Proof.
  apply (only_unary_links_hand_at_most_one_key
           Z (fun table _ => table + 1) (fun _ _ => true)
           example_is_link_type example_is_base_table
           first_only (fun _ key => key + 1) (fun _ _ => []) (fun _ _ => [])
           7 two_links two_links_on_7 0 1 [] [] [(3, false)] [3]).
  - reflexivity.
  - reflexivity.
  - reflexivity.
  - reflexivity.
Defined.

(** A visitor that gathers every key and goes on. *)
Definition gather (k : ObjKey) (seen : list ObjKey) : bool * list ObjKey :=
  (true, seen ++ [k]).

Example map_links_gathers :
  map_links gather (fun _ _ => null_key) lists (fun _ _ => []) two_lists 0 1 []
  = Some [100; 101; 200].
Proof. reflexivity. Qed.

Lemma map_links_visits_all_targets_witness :
  map_links gather (fun _ _ => null_key) lists (fun _ _ => []) two_lists 0 1 []
  = Some (fold_left (fun v k => snd (gather k v))
            (targets (fun _ _ => null_key) lists (fun _ _ => [])
               (drop 0 (m_link_types two_lists)) 0 1) []).
Proof.
  apply (map_links_visits_all_targets gather (fun _ _ => null_key) lists (fun _ _ => [])
           two_lists 0 1 []).
  - simpl. lia.
  - reflexivity.
  - reflexivity.
Defined.

(** The backlinks of the two list hops of [two_lists]: the objects that
    list a key. *)
Definition listed_by (column : nat) (key : ObjKey) : list ObjKey :=
  match column, key with
  | O, 10 => [1]
  | O, 20 => [1]
  | S O, 100 => [10]
  | S O, 101 => [10]
  | S O, 200 => [20]
  | _, _ => []
  end.

Example get_origin_ndxs_example :
  get_origin_ndxs listed_by (fun _ => col_type_Link) (fun _ _ => null_key) (fun _ _ => [])
    two_lists 200 0
  = Some [1].
Proof. reflexivity. Qed.

Lemma listed_by_inverts_lists :
  forall c link_type k, m_link_types two_lists !! c = Some link_type ->
    exists from,
      origins listed_by (fun _ => col_type_Link) (fun _ _ => null_key) (fun _ _ => [])
        link_type c k = Some from
      /\ forall o, In o from
                   <-> In k (hop (fun _ _ => null_key) lists (fun _ _ => []) link_type c o).
Proof.
  intros c link_type k Hc.
  assert (Hlist : link_type = col_type_LinkList /\ (c = 0 \/ c = 1)%nat).
  { destruct c as [|[|c]]; simpl in Hc; try discriminate;
      injection Hc as <-; split; auto. }
  destruct Hlist as [-> Hc01]. exists (listed_by c k). split; [reflexivity|].
  intros o. unfold hop.
  assert (Hboth : forall c' o' k', (c' = 0 \/ c' = 1)%nat ->
            (In o' (listed_by c' k') <-> In k' (lists c' o'))).
  { intros c' o' k' [-> | ->]; unfold listed_by, lists; split; intros Hin.
    - destruct k' as [|k'|k']; try contradiction.
      repeat (destruct k' as [k'|k'|]; try contradiction);
        destruct Hin as [<- | []]; simpl; tauto.
    - destruct o' as [|o'|o']; try contradiction.
      repeat (destruct o' as [o'|o'|]; try contradiction);
        simpl in Hin; intuition (subst; simpl; auto).
    - destruct k' as [|k'|k']; try contradiction.
      repeat (destruct k' as [k'|k'|]; try contradiction);
        destruct Hin as [<- | []]; simpl; tauto.
    - destruct o' as [|o'|o']; try contradiction.
      repeat (destruct o' as [o'|o'|]; try contradiction);
        simpl in Hin; intuition (subst; simpl; auto). }
  now apply Hboth.
Qed.

Lemma get_origin_ndxs_inverts_traversal_witness :
  exists from,
    get_origin_ndxs listed_by (fun _ => col_type_Link) (fun _ _ => null_key) (fun _ _ => [])
      two_lists 200 0 = Some from
    /\ forall o, In o from
                 <-> In 200 (targets (fun _ _ => null_key) lists (fun _ _ => [])
                               (drop 0 (m_link_types two_lists)) 0 o).
Proof.
  apply (get_origin_ndxs_inverts_traversal
           (fun _ _ => null_key) lists (fun _ _ => [])
           listed_by (fun _ => col_type_Link) (fun _ _ => null_key) (fun _ _ => [])
           two_lists 200 0).
  - simpl. lia.
  - exact listed_by_inverts_lists.
Defined.

End LinkMap.

(** ** [StringNodeEqualBase::find_first_local]: the index cursor *)

Module StringNodeEqualBase.

(** The null [ObjKey()]. *)
Definition null_key : Z := -1.

(** [m_index_matches] is the column of keys the index returned;
    [m_results_start .. m_results_end) is the part of it that holds the
    matches, [m_results_ndx] the cursor into it, [m_actual_key] the pending
    key the cursor stands on. *)
Record t := {
  m_has_search_index : bool;
  m_index_matches : list Z;
  m_results_start : Z;
  m_results_end : Z;
  m_results_ndx : Z;
  m_last_start_key : Z;
  m_actual_key : Z
}.

Definition set_cursor (ndx actual : Z) (n : t) : t :=
  {| m_has_search_index := m_has_search_index n;
     m_index_matches := m_index_matches n;
     m_results_start := m_results_start n;
     m_results_end := m_results_end n;
     m_results_ndx := ndx;
     m_last_start_key := m_last_start_key n;
     m_actual_key := actual |}.

Definition set_last_start_key (key : Z) (n : t) : t :=
  {| m_has_search_index := m_has_search_index n;
     m_index_matches := m_index_matches n;
     m_results_start := m_results_start n;
     m_results_end := m_results_end n;
     m_results_ndx := m_results_ndx n;
     m_last_start_key := key;
     m_actual_key := m_actual_key n |}.

(** [get_key(ndx)]: [m_index_matches->get(ndx)]; outside the column it is
    undefined and fails here. *)
Definition get_key (n : t) (ndx : Z) : option Z :=
  if ndx <? 0 then None else m_index_matches n !! Z.to_nat ndx.

Section Node.

(** The cluster the node is bound to: [m_cluster->get_real_key(row)],
    [m_cluster->lower_bound_key(key)] and [m_cluster->get_offset()]. *)
Variable get_real_key : Z -> Z.
Variable lower_bound_key : Z -> Z.
Variable get_offset : Z.

(** The scan of the derived class, used when there is no index. *)
Variable _find_first_local : Z -> Z -> M t Z.

(** [while (first_key > m_actual_key)]: the cursor moves forward, at most
    to [m_results_end].  The flag is [true] when the loop left the function
    with [not_found]. *)
Fixpoint advance (fuel : nat) (first_key : Z) : M t bool :=
  fun n =>
    match fuel with
    | O => None
    | S fuel' =>
        if m_actual_key n <? first_key then
          let ndx := SizeT.add (m_results_ndx n) 1 in
          if ndx =? m_results_end n then
            Some (true, set_cursor ndx (m_actual_key n) n)
          else
            match get_key n ndx with
            | None => None
            | Some key => advance fuel' first_key (set_cursor ndx key n)
            end
        else Some (false, n)
    end.

(** The restart of the cursor when the scan does not move forward. *)
Definition restart : M t unit :=
  fun n =>
    if negb (m_results_start n =? m_results_end n) then
      match get_key n (m_results_start n) with
      | None => None
      | Some key => Some (tt, set_cursor (m_results_start n) key n)
      end
    else Some (tt, set_cursor (m_results_start n) null_key n).

Definition find_first_local (start end_ : Z) : M t Z :=
  fun n =>
    if m_has_search_index n then
      if start <? end_ then
        let first_key := get_real_key start in
        match (if first_key <? m_last_start_key n then restart n else Some (tt, n)) with
        | None => None
        | Some (_, n) =>
            let n := set_last_start_key first_key n in
            if m_results_ndx n <? m_results_end n then
              match advance (Z.to_nat (m_results_end n - m_results_ndx n)) first_key n with
              | None => None
              | Some (true, n) => Some (not_found, n)
              | Some (false, n) =>
                  let last_key := get_real_key (SizeT.sub end_ 1) in
                  if last_key <? m_actual_key n then Some (not_found, n)
                  else Some (lower_bound_key (m_actual_key n - get_offset), n)
            end
            else Some (not_found, n)
        end
      else Some (not_found, n)
    else _find_first_local start end_ n.

(** *** The four steps of the design, on the match list

    The match list is the part [m_results_start .. m_results_end) of the
    column; a cursor is a position in the column. *)

Definition matches_from (n : t) (ndx : Z) : list Z :=
  take (Z.to_nat (m_results_end n - ndx)) (drop (Z.to_nat ndx) (m_index_matches n)).

(** Step 1: reset the cursor when the first cluster key is less than the
    last-seen start key. *)
Definition step_reset (first_key : Z) (n : t) : Z :=
  if first_key <? m_last_start_key n then m_results_start n else m_results_ndx n.

(** Step 2: advance the cursor while the pending key is less than the first
    cluster key; what is left of the match list starts with the pending
    key. *)
Fixpoint step_advance (first_key : Z) (pending : list Z) : list Z :=
  match pending with
  | [] => []
  | key :: rest => if key <? first_key then step_advance first_key rest else pending
  end.

(** Steps 3 and 4: [not_found] when the pending key exceeds the key of row
    [end - 1] (or no key is pending), else the row of the pending key. *)
Definition step_answer (end_ : Z) (pending : list Z) : Z :=
  match pending with
  | [] => not_found
  | key :: _ =>
      if get_real_key (end_ - 1) <? key then not_found
      else lower_bound_key (key - get_offset)
  end.

Definition steps (start end_ : Z) (n : t) : Z * Z :=
  let first_key := get_real_key start in
  let cursor := step_reset first_key n in
  let pending := step_advance first_key (matches_from n cursor) in
  (step_answer end_ pending, m_results_end n - Z.of_nat (length pending)).

(** The cursor is inside the match list and [m_actual_key] is the key it
    stands on. *)
Definition cursor_ok (n : t) : Prop :=
  0 <= m_results_start n
  /\ m_results_start n <= m_results_ndx n
  /\ m_results_ndx n <= m_results_end n
  /\ m_results_end n <= Z.of_nat (length (m_index_matches n))
  /\ m_results_end n < not_found
  /\ (m_results_ndx n < m_results_end n ->
      get_key n (m_results_ndx n) = Some (m_actual_key n)).

(** The index data of the node, which [find_first_local] never changes. *)
Definition same_index (n n' : t) : Prop :=
  m_has_search_index n' = m_has_search_index n
  /\ m_index_matches n' = m_index_matches n
  /\ m_results_start n' = m_results_start n
  /\ m_results_end n' = m_results_end n.

Lemma matches_from_cons n ndx key :
  0 <= ndx -> ndx < m_results_end n -> get_key n ndx = Some key ->
  matches_from n ndx = key :: matches_from n (ndx + 1).
Proof.
  intros H0 Hlt Hkey. unfold matches_from, get_key in *.
  destruct (Z.ltb_spec ndx 0); [lia|].
  rewrite (drop_S _ key _ Hkey).
  replace (Z.to_nat (m_results_end n - ndx))
    with (S (Z.to_nat (m_results_end n - (ndx + 1)))) by lia.
  replace (Z.to_nat (ndx + 1)) with (S (Z.to_nat ndx)) by lia.
  reflexivity.
Qed.

Lemma matches_from_end n : matches_from n (m_results_end n) = [].
Proof. unfold matches_from. now rewrite Z.sub_diag. Qed.

Lemma length_matches_from n ndx :
  0 <= ndx -> ndx <= m_results_end n ->
  m_results_end n <= Z.of_nat (length (m_index_matches n)) ->
  Z.of_nat (length (matches_from n ndx)) = m_results_end n - ndx.
Proof.
  intros H0 Hle Hlen. unfold matches_from.
  rewrite length_take, length_drop. lia.
Qed.

Lemma step_advance_length fk pending :
  (length (step_advance fk pending) <= length pending)%nat.
Proof.
  induction pending as [|k rest IH]; simpl; [lia|].
  destruct (k <? fk); simpl; lia.
Qed.

Lemma get_key_in_range n ndx :
  0 <= ndx -> ndx < Z.of_nat (length (m_index_matches n)) ->
  exists key, get_key n ndx = Some key.
Proof.
  intros H0 Hlt. unfold get_key. destruct (Z.ltb_spec ndx 0); [lia|].
  apply lookup_lt_is_Some_2. lia.
Qed.

(** The loop returns; it leaves the cursor on the first key of the match
    list, from the cursor on, that is not below [first_key]. *)
Lemma advance_run first_key fuel : forall n,
  cursor_ok n -> m_results_ndx n < m_results_end n ->
  fuel = Z.to_nat (m_results_end n - m_results_ndx n) ->
  let pending := step_advance first_key (matches_from n (m_results_ndx n)) in
  exists n',
    advance fuel first_key n
    = Some (match pending with [] => true | _ :: _ => false end, n')
    /\ m_results_ndx n' = m_results_end n - Z.of_nat (length pending)
    /\ (forall key rest, pending = key :: rest -> m_actual_key n' = key)
    /\ cursor_ok n'
    /\ same_index n n'
    /\ m_last_start_key n' = m_last_start_key n.
Proof.
  induction fuel as [|fuel IH]; intros n Hok Hlt Hfuel; [lia|].
  destruct Hok as (O0 & O1 & O2 & O3 & O4 & O5).
  specialize (O5 Hlt).
  cbv zeta.
  rewrite (matches_from_cons n (m_results_ndx n) (m_actual_key n) ltac:(lia) Hlt O5).
  simpl advance. simpl step_advance.
  destruct (Z.ltb_spec (m_actual_key n) first_key) as [Hbelow | Hge].
  - rewrite SizeT.add_small
      by (rewrite SizeT.modulus_eq; rewrite SizeT.not_found_eq in O4; lia).
    destruct (Z.eqb_spec (m_results_ndx n + 1) (m_results_end n)) as [Hend | Hmore].
    + rewrite Hend, matches_from_end. simpl.
      eexists. split; [reflexivity|]. simpl.
      split; [lia|]. split; [intros key rest Hnil; discriminate|].
      split; [|now repeat split].
      unfold cursor_ok. simpl. repeat split; try lia.
    + destruct (get_key_in_range n (m_results_ndx n + 1) ltac:(lia) ltac:(lia))
        as (key & Hkey).
      rewrite Hkey.
      destruct (IH (set_cursor (m_results_ndx n + 1) key n)) as (n' & E & A1 & A2 & A3 & A4 & A5).
      * unfold cursor_ok. simpl. repeat split; try lia. intros _. exact Hkey.
      * simpl. lia.
      * simpl. lia.
      * exists n'. split; [exact E|]. simpl in A1.
        split; [exact A1|]. split; [exact A2|]. split; [exact A3|].
        split; [exact A4 | exact A5].
  - exists n. split; [reflexivity|]. simpl length.
    split.
    { rewrite Nat2Z.inj_succ, length_matches_from by lia. lia. }
    split; [intros key rest Heq; now injection Heq|].
    split; [now repeat split|]. split; [now repeat split | reflexivity].
Qed.

Lemma matches_from_same n n' ndx :
  same_index n n' -> matches_from n' ndx = matches_from n ndx.
Proof. intros (_ & Hm & _ & He). unfold matches_from. now rewrite Hm, He. Qed.

(** Step 1 as the code does it. *)
Lemma reset_run first_key n :
  cursor_ok n ->
  exists n1,
    (if first_key <? m_last_start_key n then restart n else Some (tt, n)) = Some (tt, n1)
    /\ m_results_ndx n1 = step_reset first_key n
    /\ cursor_ok n1 /\ same_index n n1.
Proof.
  intros Hok. pose proof Hok as (O0 & O1 & O2 & O3 & O4 & O5).
  unfold step_reset. destruct (first_key <? m_last_start_key n).
  - unfold restart.
    destruct (Z.eqb_spec (m_results_start n) (m_results_end n)) as [Heq | Hne]; simpl.
    + eexists. split; [reflexivity|]. simpl. split; [reflexivity|].
      split; [|now repeat split].
      unfold cursor_ok. simpl. repeat split; try lia.
    + destruct (get_key_in_range n (m_results_start n) ltac:(lia) ltac:(lia))
        as (key & Hkey).
      rewrite Hkey. eexists. split; [reflexivity|]. simpl. split; [reflexivity|].
      split; [|now repeat split].
      unfold cursor_ok. simpl. repeat split; try lia. intros _. exact Hkey.
  - exists n. split; [reflexivity|]. split; [reflexivity|].
    split; [exact Hok | now repeat split].
Qed.

(** C4.  With the match list of the index in place (and the cursor a
    position of it, standing on [m_actual_key]), [find_first_local] on a
    non-empty range returns, and does what the four steps say: it restarts
    the cursor when the first cluster key is below the last-seen start key,
    moves it past the keys below the first cluster key, answers
    [not_found] when the pending key is above the key of row [end - 1] (or
    the list is used up), and otherwise answers
    [lower_bound_key(pending key - offset)]. *)
Theorem find_first_local_follows_steps n start end_ :
  m_has_search_index n = true ->
  cursor_ok n ->
  0 <= start -> start < end_ -> end_ <= not_found ->
  exists n',
    find_first_local start end_ n = Some (fst (steps start end_ n), n')
    /\ m_results_ndx n' = snd (steps start end_ n)
    /\ m_last_start_key n' = get_real_key start
    /\ cursor_ok n'
    /\ same_index n n'.
Proof.
  intros Hidx Hok H0 Hlt Hend.
  unfold find_first_local, steps. rewrite Hidx. cbv zeta.
  destruct (Z.ltb_spec start end_); [|lia].
  set (first_key := get_real_key start).
  destruct (reset_run first_key n Hok) as (n1 & Hreset & Hndx1 & Hok1 & Hsame1).
  rewrite Hreset. rewrite <- Hndx1.
  rewrite <- (matches_from_same n n1 _ Hsame1).
  assert (Hend1 : m_results_end n = m_results_end n1) by (symmetry; apply Hsame1).
  rewrite Hend1.
  clear Hreset Hndx1 Hend1.
  set (n2 := set_last_start_key first_key n1).
  assert (Hok2 : cursor_ok n2) by exact Hok1.
  assert (Hsame2 : same_index n n2) by exact Hsame1.
  change (m_results_ndx n1) with (m_results_ndx n2).
  change (m_results_end n1) with (m_results_end n2).
  change (matches_from n1 (m_results_ndx n2)) with (matches_from n2 (m_results_ndx n2)).
  pose proof Hok2 as (O0 & O1 & O2 & O3 & O4 & O5).
  destruct (Z.ltb_spec (m_results_ndx n2) (m_results_end n2)) as [Hmore | Hdone].
  - destruct (advance_run first_key _ n2 Hok2 Hmore eq_refl)
      as (n' & E & A1 & A2 & A3 & A4 & A5).
    cbv zeta in E, A1, A2. rewrite E.
    destruct (step_advance first_key (matches_from n2 (m_results_ndx n2)))
      as [|key rest] eqn:Hpending.
    + exists n'. simpl. split; [reflexivity|]. split; [exact A1|].
      split; [rewrite A5; reflexivity|]. split; [exact A3|].
      destruct Hsame2 as (S1 & S2 & S3 & S4). destruct A4 as (T1 & T2 & T3 & T4).
      repeat split; congruence.
    + rewrite (A2 key rest eq_refl).
      rewrite SizeT.sub_small
        by (rewrite SizeT.modulus_eq; rewrite SizeT.not_found_eq in Hend; lia).
      assert (Hrest : exists n'', (if get_real_key (end_ - 1) <? key
                      then Some (not_found, n')
                      else Some (lower_bound_key (key - get_offset), n'))
                     = Some (step_answer end_ (key :: rest), n'')
                     /\ n'' = n').
      { simpl. destruct (get_real_key (end_ - 1) <? key); eexists; split; reflexivity. }
      destruct Hrest as (n'' & -> & ->).
      exists n'. split; [reflexivity|]. cbn [fst snd]. split; [exact A1|].
      split; [rewrite A5; reflexivity|]. split; [exact A3|].
      destruct Hsame2 as (S1 & S2 & S3 & S4). destruct A4 as (T1 & T2 & T3 & T4).
      repeat split; congruence.
  - assert (Hat : m_results_ndx n2 = m_results_end n2) by lia.
    rewrite Hat, matches_from_end. simpl.
    exists n2. split; [reflexivity|].
    split; [change (m_results_end n1) with (m_results_end n2); lia|].
    split; [reflexivity|]. split; [exact Hok2 | exact Hsame2].
Qed.

End Node.

(** *** A cluster of five rows

    Keys 100, 101, 103, 105 and 108 (offset 100); the index matched keys
    101, 105 and 300. *)

Definition cluster_keys : list Z := [0; 1; 3; 5; 8].
Definition cluster_offset : Z := 100.

Definition example_get_real_key (row : Z) : Z :=
  nth (Z.to_nat row) cluster_keys 0 + cluster_offset.

Fixpoint lower_bound (keys : list Z) (key : Z) (row : Z) : Z :=
  match keys with
  | [] => row
  | k :: keys' => if k <? key then lower_bound keys' key (row + 1) else row
  end.

Definition example_lower_bound_key (key : Z) : Z := lower_bound cluster_keys key 0.

Definition no_scan (start end_ : Z) : M t Z := fun n => Some (not_found, n).

Definition example_node : t :=
  {| m_has_search_index := true;
     m_index_matches := [101; 105; 300];
     m_results_start := 0;
     m_results_end := 3;
     m_results_ndx := 0;
     m_last_start_key := null_key;
     m_actual_key := 101 |}.

Example find_first_local_example :
  find_first_local example_get_real_key example_lower_bound_key cluster_offset no_scan
    0 5 example_node
  = Some (1, set_last_start_key 100 example_node).
Proof. vm_compute. reflexivity. Qed.

Example find_first_local_example_next :
  find_first_local example_get_real_key example_lower_bound_key cluster_offset no_scan
    2 5 (set_last_start_key 100 example_node)
  = Some (3, set_last_start_key 103 (set_cursor 1 105 example_node)).
Proof. vm_compute. reflexivity. Qed.

Example find_first_local_example_past :
  find_first_local example_get_real_key example_lower_bound_key cluster_offset no_scan
    4 5 (set_last_start_key 103 (set_cursor 1 105 example_node))
  = Some (not_found, set_last_start_key 108 (set_cursor 2 300 example_node)).
Proof. vm_compute. reflexivity. Qed.

Example find_first_local_example_restart :
  find_first_local example_get_real_key example_lower_bound_key cluster_offset no_scan
    0 2 (set_last_start_key 108 (set_cursor 2 300 example_node))
  = Some (1, set_last_start_key 100 example_node).
Proof. vm_compute. reflexivity. Qed.

Lemma example_node_cursor_ok : cursor_ok example_node.
Proof.
  unfold cursor_ok. simpl. rewrite SizeT.not_found_eq.
  repeat split; try lia. 
Qed.

Lemma find_first_local_follows_steps_witness :
  exists n',
    find_first_local example_get_real_key example_lower_bound_key cluster_offset no_scan
      0 5 example_node
    = Some (fst (steps example_get_real_key example_lower_bound_key cluster_offset
                   0 5 example_node), n')
    /\ m_results_ndx n'
       = snd (steps example_get_real_key example_lower_bound_key cluster_offset
                0 5 example_node)
    /\ m_last_start_key n' = example_get_real_key 0
    /\ cursor_ok n'
    /\ same_index example_node n'.
Proof.
  apply (find_first_local_follows_steps
           example_get_real_key example_lower_bound_key cluster_offset no_scan
           example_node 0 5).
  - reflexivity.
  - exact example_node_cursor_ok.
  - lia.
  - lia.
  - rewrite SizeT.not_found_eq. lia.
Defined.

(** *** The index cursor against a scan of the cluster *)

Lemma matches_from_drop n ndx :
  0 <= m_results_start n -> m_results_start n <= ndx -> ndx <= m_results_end n ->
  matches_from n ndx
  = drop (Z.to_nat (ndx - m_results_start n)) (matches_from n (m_results_start n)).
Proof.
  intros H0 Hs He. unfold matches_from.
  replace (Z.to_nat (m_results_end n - m_results_start n))
    with (Z.to_nat (ndx - m_results_start n) + Z.to_nat (m_results_end n - ndx))%nat by lia.
  rewrite <- take_drop_commute, drop_drop.
  replace (Z.to_nat (m_results_start n) + Z.to_nat (ndx - m_results_start n))%nat
    with (Z.to_nat ndx) by lia.
  reflexivity.
Qed.

Lemma step_advance_split first_key pending :
  exists skipped,
    pending = skipped ++ step_advance first_key pending
    /\ Forall (fun key => key < first_key) skipped
    /\ match step_advance first_key pending with
       | key :: _ => first_key <= key
       | [] => True
       end.
Proof.
  induction pending as [|key rest IH]; simpl.
  - exists []. now repeat split.
  - destruct (Z.ltb_spec key first_key) as [Hlow | Hhigh].
    + destruct IH as (skipped & Hsplit & Hlows & Hhead).
      exists (key :: skipped). split; [simpl; now rewrite <- Hsplit|].
      split; [now constructor | exact Hhead].
    + exists []. split; [reflexivity|]. split; [constructor | exact Hhigh].
Qed.

Lemma StronglySorted_app_r {A} (R : A -> A -> Prop) (l1 l2 : list A) :
  StronglySorted R (l1 ++ l2) -> StronglySorted R l2.
Proof.
  induction l1 as [|x l1 IH]; simpl; [trivial|].
  intros H. apply StronglySorted_inv in H. now apply IH.
Qed.

Section IndexedSearch.

Variable get_real_key : Z -> Z.
Variable lower_bound_key : Z -> Z.
Variable get_offset : Z.
Variable _find_first_local : Z -> Z -> M t Z.

(** The cluster has [size] rows; its keys ascend with the rows, and
    [lower_bound_key] finds the row of a key of the cluster. *)
Variable size : Z.
Hypothesis keys_ascending :
  forall r1 r2, 0 <= r1 -> r1 < r2 -> r2 < size -> get_real_key r1 < get_real_key r2.
Hypothesis lower_bound_key_finds :
  forall row, 0 <= row -> row < size ->
    lower_bound_key (get_real_key row - get_offset) = row.

(** The keys the index found. *)
Definition index_matches (n : t) : list Z := matches_from n (m_results_start n).

(** The condition of the node at a row: the object of the row is one the
    index found. *)
Definition key_matches (n : t) (row : Z) : bool :=
  existsb (Z.eqb (get_real_key row)) (index_matches n).

(** The state between calls: the cursor stands on its key, the keys of the
    index ascend, and the keys the cursor has passed are below the last-seen
    start key. *)
Definition searching (n : t) : Prop :=
  cursor_ok n
  /\ StronglySorted Z.lt (index_matches n)
  /\ Forall (fun key => key < m_last_start_key n)
       (take (Z.to_nat (m_results_ndx n - m_results_start n)) (index_matches n)).

Lemma scan_answer (keys low pending : list Z) (start end_ : Z) :
  keys = low ++ pending ->
  StronglySorted Z.lt keys ->
  Forall (fun key => key < get_real_key start) low ->
  match pending with key :: _ => get_real_key start <= key | [] => True end ->
  0 <= start -> start < end_ -> end_ <= size -> size <= not_found ->
  (forall key, In key keys ->
     get_real_key start <= key <= get_real_key (end_ - 1) ->
     exists row, start <= row < end_ /\ get_real_key row = key) ->
  first_match (fun row => existsb (Z.eqb (get_real_key row)) keys) start end_
  = step_answer get_real_key lower_bound_key get_offset end_ pending.
Proof.
  intros Hkeys Hsorted Hlow Hhead H0 Hlt Hsize Hnf Hexist.
  symmetry. apply is_first_eq; [lia | lia | lia |].
  assert (Hfrom : forall row, start <= row < end_ -> get_real_key start <= get_real_key row).
  { intros row Hrow. destruct (Z.eq_dec row start) as [-> | Hne]; [lia|].
    apply Z.lt_le_incl. apply keys_ascending; lia. }
  assert (Hupto : forall row, start <= row < end_ ->
                    get_real_key row <= get_real_key (end_ - 1)).
  { intros row Hrow. destruct (Z.eq_dec row (end_ - 1)) as [-> | Hne]; [lia|].
    apply Z.lt_le_incl. apply keys_ascending; lia. }
  assert (Hmember : forall row, start <= row < end_ ->
            existsb (Z.eqb (get_real_key row)) keys = true ->
            In (get_real_key row) pending).
  { intros row Hrow Hex. apply existsb_exists in Hex.
    destruct Hex as (key & Hin & Heq). apply Z.eqb_eq in Heq. subst key.
    rewrite Hkeys in Hin. apply in_app_or in Hin. destruct Hin as [Hin | Hin]; [|exact Hin].
    rewrite List.Forall_forall in Hlow. specialize (Hlow _ Hin).
    specialize (Hfrom row Hrow). lia. }
  assert (Hnone : forall row, start <= row < end_ ->
            ~ In (get_real_key row) pending ->
            existsb (Z.eqb (get_real_key row)) keys = false).
  { intros row Hrow Hnot. apply not_true_iff_false. intros Hex.
    apply Hnot. now apply Hmember. }
  destruct pending as [|key rest]; simpl.
  - apply is_first_none. intros row Hrow. apply Hnone; [exact Hrow | intros []].
  - assert (Habove : Forall (fun key' => key < key') rest).
    { rewrite Hkeys in Hsorted. apply StronglySorted_app_r in Hsorted.
      now apply StronglySorted_inv in Hsorted. }
    rewrite List.Forall_forall in Habove.
    destruct (Z.ltb_spec (get_real_key (end_ - 1)) key) as [Hpast | Hin_range].
    + apply is_first_none. intros row Hrow. apply Hnone; [exact Hrow|].
      specialize (Hupto row Hrow).
      intros [Heq | Hin]; [lia | specialize (Habove _ Hin); lia].
    + destruct (Hexist key) as (row0 & Hrow0 & Hkey0).
      { rewrite Hkeys. apply in_or_app. right. now left. }
      { lia. }
      rewrite <- Hkey0, lower_bound_key_finds by lia.
      apply is_first_at; [exact Hrow0 | |].
      * apply existsb_exists. exists key. split; [|apply Z.eqb_eq; exact Hkey0].
        rewrite Hkeys. apply in_or_app. right. now left.
      * intros row Hrow. apply Hnone; [lia|].
        assert (Hbelow : get_real_key row < get_real_key row0)
          by (apply keys_ascending; lia).
        intros [Heq | Hin]; [lia | specialize (Habove _ Hin); lia].
Qed.

(** X23.  With a search index, on a cluster whose rows hold every object the
    index found between the keys of rows [start] and [end - 1], the cursor
    search answers what a scan of the rows would: the first row of
    [[start, end)] whose object is among those the index found, [not_found]
    when there is none.  It leaves the node ready for the next request,
    forward or backward. *)
Theorem find_first_local_agrees_with_scan n start end_ :
  m_has_search_index n = true ->
  searching n ->
  0 <= start -> start < end_ -> end_ <= size -> size <= not_found ->
  (forall key, In key (index_matches n) ->
     get_real_key start <= key <= get_real_key (end_ - 1) ->
     exists row, start <= row < end_ /\ get_real_key row = key) ->
  exists n',
    find_first_local get_real_key lower_bound_key get_offset _find_first_local
      start end_ n
    = Some (first_match (key_matches n) start end_, n')
    /\ (first_match (key_matches n) start end_ = not_found
        \/ (start <= first_match (key_matches n) start end_ < end_
            /\ In (get_real_key (first_match (key_matches n) start end_))
                 (index_matches n)))
    /\ searching n'
    /\ same_index n n'.
Proof.
  intros Hidx (Hok & Hsorted & Hbehind) H0 Hlt Hsize Hnf Hexist.
  assert (Hresult : first_match (key_matches n) start end_ = not_found
            \/ (start <= first_match (key_matches n) start end_ < end_
                /\ In (get_real_key (first_match (key_matches n) start end_))
                     (index_matches n))).
  { destruct (first_match_spec (key_matches n) start end_ H0 ltac:(lia) ltac:(lia))
      as [Hall | row Hrow Hp Hall]; [now left | right].
    split; [exact Hrow|]. unfold key_matches in Hp. apply existsb_exists in Hp.
    destruct Hp as (key & Hin & Heq). apply Z.eqb_eq in Heq. now subst key. }
  unfold find_first_local. rewrite Hidx.
  destruct (Z.ltb_spec start end_); [|lia].
  set (first_key := get_real_key start).
  destruct (reset_run first_key n Hok) as (n1 & Hreset & Hndx1 & Hok1 & Hsame1).
  rewrite Hreset. clear Hreset.
  set (n2 := set_last_start_key first_key n1).
  assert (Hok2 : cursor_ok n2) by exact Hok1.
  assert (Hsame2 : same_index n n2) by exact Hsame1.
  assert (Hstart2 : m_results_start n2 = m_results_start n) by apply Hsame2.
  assert (Hend2 : m_results_end n2 = m_results_end n) by apply Hsame2.
  assert (Hkeys2 : index_matches n2 = index_matches n).
  { unfold index_matches. rewrite Hstart2. now apply matches_from_same. }
  assert (Hndx2 : m_results_ndx n2 = step_reset first_key n) by exact Hndx1.
  pose proof Hok as (P0 & P1 & P2 & P3 & P4 & P5).
  pose proof Hok2 as (O0 & O1 & O2 & O3 & O4 & O5).
  set (passed := Z.to_nat (m_results_ndx n2 - m_results_start n2)).
  assert (Hlow : Forall (fun key => key < first_key) (take passed (index_matches n))).
  { unfold passed. rewrite Hndx2, Hstart2. unfold step_reset.
    destruct (Z.ltb_spec first_key (m_last_start_key n)) as [Hback | Hforward].
    - rewrite Z.sub_diag. simpl. constructor.
    - eapply Forall_impl; [exact Hbehind|]. intros key Hkey. simpl in Hkey. lia. }
  assert (Hpending : matches_from n2 (m_results_ndx n2) = drop passed (index_matches n)).
  { rewrite <- Hkeys2. unfold index_matches, passed. apply matches_from_drop; lia. }
  destruct (step_advance_split first_key (drop passed (index_matches n)))
    as (skipped & Hsplit & Hskipped & Hhead).
  set (pending := step_advance first_key (drop passed (index_matches n))) in *.
  assert (Hwhole : index_matches n = (take passed (index_matches n) ++ skipped) ++ pending).
  { rewrite <- app_assoc, <- Hsplit. now rewrite take_drop. }
  assert (Hanswer : first_match (key_matches n) start end_
                    = step_answer get_real_key lower_bound_key get_offset end_ pending).
  { unfold key_matches.
    apply (scan_answer (index_matches n) (take passed (index_matches n) ++ skipped) pending);
      try assumption.
    apply Forall_app. now split. }
  assert (Hlen : Z.of_nat (length (index_matches n))
                 = m_results_end n - m_results_start n).
  { unfold index_matches. apply length_matches_from; lia. }
  assert (Hready : forall n',
            cursor_ok n' -> same_index n2 n' -> m_last_start_key n' = first_key ->
            m_results_ndx n' = m_results_end n2 - Z.of_nat (length pending) ->
            searching n' /\ same_index n n').
  { intros n' Hok' Hsame' Hlast Hndx'.
    assert (Hsame : same_index n n').
    { destruct Hsame2 as (S1 & S2 & S3 & S4). destruct Hsame' as (T1 & T2 & T3 & T4).
      repeat split; congruence. }
    split; [|exact Hsame].
    assert (Hstart' : m_results_start n' = m_results_start n) by apply Hsame.
    assert (Hkeys' : index_matches n' = index_matches n).
    { unfold index_matches. rewrite Hstart'. now apply matches_from_same. }
    split; [exact Hok'|]. split; [now rewrite Hkeys'|].
    rewrite Hkeys', Hlast, Hndx', Hstart', Hend2.
    rewrite Hwhole at 1.
    rewrite take_app_length'; [apply Forall_app; now split|].
    apply (f_equal (@length Z)) in Hwhole. rewrite length_app in Hwhole. lia. }
  change (m_results_ndx (set_last_start_key first_key n1)) with (m_results_ndx n2).
  change (m_results_end (set_last_start_key first_key n1)) with (m_results_end n2).
  rewrite Hanswer in Hresult |- *.
  destruct (Z.ltb_spec (m_results_ndx n2) (m_results_end n2)) as [Hmore | Hdone].
  - destruct (advance_run first_key _ n2 Hok2 Hmore eq_refl)
      as (n' & E & A1 & A2 & A3 & A4 & A5).
    cbv zeta in E, A1, A2. rewrite Hpending in E, A1, A2. fold pending in E, A1, A2.
    rewrite E.
    destruct (Hready n' A3 A4 A5 A1) as (Hsearching & Hsame).
    exists n'. split; [|split; [exact Hresult | split; assumption]].
    destruct pending as [|key rest] eqn:Hp; [reflexivity|].
    rewrite (A2 key rest eq_refl).
    rewrite SizeT.sub_small
      by (rewrite SizeT.modulus_eq; rewrite SizeT.not_found_eq in Hnf; lia).
    simpl. destruct (get_real_key (end_ - 1) <? key); reflexivity.
  - assert (Hnil : drop passed (index_matches n) = []).
    { rewrite <- Hpending. replace (m_results_ndx n2) with (m_results_end n2) by lia.
      apply matches_from_end. }
    assert (Hpnil : pending = []) by (unfold pending; rewrite Hnil; reflexivity).
    exists n2. split; [rewrite Hpnil; reflexivity|]. split; [exact Hresult|].
    apply Hready; [exact Hok2 | now repeat split | reflexivity |].
    rewrite Hpnil. simpl length. lia.
Qed.

End IndexedSearch.

(** *** [StringNode<EqualIns>::_search_index_init]

    [found] is what [index->find_all] puts into the emptied
    [m_index_matches]. *)
Definition _search_index_init (found : list Z) (n : t) : t :=
  let m_results_start := 0 in
  let m_results_end := Z.of_nat (length found) in
  {| m_has_search_index := m_has_search_index n;
     m_index_matches := found;
     m_results_start := m_results_start;
     m_results_end := m_results_end;
     m_results_ndx := 0;
     m_last_start_key := m_last_start_key n;
     m_actual_key := if negb (m_results_start =? m_results_end)
                     then nth 0 found null_key
                     else m_actual_key n |}.

(** X24.  After [_search_index_init] the node is ready to search: the cursor
    stands on the first key found, no key has been passed, and the keys the
    searches run over are the keys found.  The keys are taken to ascend, as
    the index hands them out. *)
Theorem search_index_init_starts_search get_real_key (found : list Z) (n : t) :
  StronglySorted Z.lt found ->
  Z.of_nat (length found) < not_found ->
  searching (_search_index_init found n)
  /\ index_matches (_search_index_init found n) = found
  /\ m_results_ndx (_search_index_init found n) = 0
  /\ (forall row, key_matches get_real_key (_search_index_init found n) row = true
                  <-> In (get_real_key row) found).
Proof.
  intros Hsorted Hlen.
  assert (Hkeys : index_matches (_search_index_init found n) = found).
  { unfold index_matches, matches_from. simpl.
    rewrite Z.sub_0_r, Nat2Z.id. apply firstn_all. }
  split; [|split; [exact Hkeys | split; [reflexivity|]]].
  - split; [|split].
    + unfold cursor_ok. simpl. repeat split; try lia.
      intros Hmore. unfold get_key. simpl.
      destruct found as [|key rest]; [simpl in Hmore; lia | reflexivity].
    + now rewrite Hkeys.
    + simpl. constructor.
  - intros row. unfold key_matches. rewrite Hkeys, existsb_exists. split.
    + intros (key & Hin & Heq). apply Z.eqb_eq in Heq. now subst key.
    + intros Hin. exists (get_real_key row). split; [exact Hin | apply Z.eqb_refl].
Qed.

(** The cluster of five rows above, and the node the index left three keys
    in. *)
Lemma example_keys_ascending :
  forall r1 r2, 0 <= r1 -> r1 < r2 -> r2 < 5 ->
    example_get_real_key r1 < example_get_real_key r2.
Proof.
  intros r1 r2 H0 H1 H2.
  assert (Hr1 : r1 = 0 \/ r1 = 1 \/ r1 = 2 \/ r1 = 3) by lia.
  assert (Hr2 : r2 = 1 \/ r2 = 2 \/ r2 = 3 \/ r2 = 4) by lia.
  destruct Hr1 as [-> | [-> | [-> | ->]]], Hr2 as [-> | [-> | [-> | ->]]];
    try lia; vm_compute; reflexivity.
Qed.

Lemma example_lower_bound_key_finds :
  forall row, 0 <= row -> row < 5 ->
    example_lower_bound_key (example_get_real_key row - cluster_offset) = row.
Proof.
  intros row H0 H1.
  assert (Hrow : row = 0 \/ row = 1 \/ row = 2 \/ row = 3 \/ row = 4) by lia.
  destruct Hrow as [-> | [-> | [-> | [-> | ->]]]]; vm_compute; reflexivity.
Qed.

Lemma example_node_searching : searching example_node.
Proof.
  split; [exact example_node_cursor_ok|]. split.
  - unfold index_matches, matches_from. simpl.
    repeat (constructor; [|repeat constructor; lia]). constructor.
  - simpl. constructor.
Qed.

Lemma find_first_local_agrees_with_scan_witness :
  exists n',
    find_first_local example_get_real_key example_lower_bound_key cluster_offset no_scan
      0 5 example_node
    = Some (first_match (key_matches example_get_real_key example_node) 0 5, n')
    /\ (first_match (key_matches example_get_real_key example_node) 0 5 = not_found
        \/ (0 <= first_match (key_matches example_get_real_key example_node) 0 5 < 5
            /\ In (example_get_real_key
                     (first_match (key_matches example_get_real_key example_node) 0 5))
                 (index_matches example_node)))
    /\ searching n'
    /\ same_index example_node n'.
Proof.
  apply (find_first_local_agrees_with_scan
           example_get_real_key example_lower_bound_key cluster_offset no_scan 5
           example_keys_ascending example_lower_bound_key_finds example_node 0 5).
  - reflexivity.
  - exact example_node_searching.
  - lia.
  - lia.
  - lia.
  - rewrite SizeT.not_found_eq. lia.
  - intros key Hin Hrange.
    change (In key [101; 105; 300]) in Hin.
    change (100 <= key <= 108) in Hrange.
    destruct Hin as [<- | [<- | [<- | []]]].
    + exists 1. split; [lia | reflexivity].
    + exists 3. split; [lia | reflexivity].
    + lia.
Defined.

Example search_index_init_example :
  _search_index_init [101; 105; 300]
    {| m_has_search_index := true;
       m_index_matches := [];
       m_results_start := 0;
       m_results_end := 0;
       m_results_ndx := 0;
       m_last_start_key := null_key;
       m_actual_key := null_key |}
  = example_node.
Proof. reflexivity. Qed.

Lemma search_index_init_starts_search_witness :
  searching (_search_index_init [101; 105; 300] example_node)
  /\ index_matches (_search_index_init [101; 105; 300] example_node) = [101; 105; 300]
  /\ m_results_ndx (_search_index_init [101; 105; 300] example_node) = 0
  /\ (forall row,
        key_matches example_get_real_key
          (_search_index_init [101; 105; 300] example_node) row = true
        <-> In (example_get_real_key row) [101; 105; 300]).
Proof.
  apply (search_index_init_starts_search example_get_real_key [101; 105; 300] example_node).
  - repeat (constructor; [|repeat constructor; lia]). constructor.
  - rewrite SizeT.not_found_eq. simpl. lia.
Defined.

End StringNodeEqualBase.

(** ** [StringNode<Equal>]: needle fusion *)

Module StringNodeEqual.

(** [StringData]: a string, or null ([None]); null and the empty string
    are different values. *)
Definition StringData : Type := option String.string.

Definition sd_eqb (a b : StringData) : bool :=
  match a, b with
  | None, None => true
  | Some x, Some y => String.eqb x y
  | _, _ => false
  end.

Lemma sd_eqb_eq a b : sd_eqb a b = true <-> a = b.
Proof.
  destruct a as [x|], b as [y|]; simpl; try (split; congruence).
  rewrite String.eqb_eq. split; congruence.
Qed.

(** [m_needles], a [std::unordered_set<StringData>]: a list without
    repetition; the order of the elements is not observed. *)
Definition contains (needles : list StringData) (x : StringData) : bool :=
  existsb (sd_eqb x) needles.

Definition insert (x : StringData) (needles : list StringData) : list StringData :=
  if contains needles x then needles else needles ++ [x].

Lemma contains_In needles x : contains needles x = true <-> In x needles.
Proof.
  unfold contains. rewrite existsb_exists. split.
  - intros (y & Hy & Heq). apply sd_eqb_eq in Heq. now subst.
  - intros H. exists x. split; [assumption | now apply sd_eqb_eq].
Qed.

Lemma In_insert x y needles : In y (insert x needles) <-> y = x \/ In y needles.
Proof.
  unfold insert. destruct (contains needles x) eqn:E.
  - apply contains_In in E. split; [now right | intros [-> | H]; assumption].
  - rewrite in_app_iff. simpl. split.
    + intros [H | [H | []]]; [now right | now left].
    + intros [-> | H]; [right; now left | now left].
Qed.

(** The node: the value compared with, the fused needles, whether the
    search index is used, the column, and the leaf of the current cluster
    ([m_leaf_ptr], an array of strings).  [m_needle_storage] only owns the
    bytes of the needles and is left out. *)
Record t := {
  m_value : StringData;
  m_needles : list StringData;
  m_has_search_index : bool;
  m_condition_column_key : Z;
  m_leaf : list StringData
}.

(** [do_consume_condition(node)]; [None] when one of its two assertions
    fails.  The C++ function returns [true]. *)
Definition do_consume_condition (other : t) (n : t) : option t :=
  if negb (m_condition_column_key n =? m_condition_column_key other) then None
  else if negb (match m_needles other with [] => true | _ :: _ => false end) then None
  else
    let needles :=
      match m_needles n with
      | [] => insert (m_value n) []
      | _ :: _ => m_needles n
      end in
    let needles := insert (m_value other) needles in
    Some {| m_value := m_value n;
            m_needles := needles;
            m_has_search_index := false;
            m_condition_column_key := m_condition_column_key n;
            m_leaf := m_leaf n |}.

(** A scan of the rows [[i, end)] of a leaf for the first element that
    passes [test]; reading past the leaf fails. *)
Fixpoint scan (test : StringData -> bool) (leaf : list StringData) (count : nat) (i end_ : Z)
    : option Z :=
  match count with
  | O => Some not_found
  | S count' =>
      if i <? end_ then
        match leaf !! Z.to_nat i with
        | None => None
        | Some element =>
            if test element then Some i
            else scan test leaf count' (SizeT.add i 1) end_
        end
      else Some not_found
  end.

(** Modelled from the spec: the leaf's [find_first(value, start, end)] is
    declared with the string array, outside src/; the design lists it in
    the leaf interface, the first row of the range that holds the value.
    [end == npos] stands for the size of the leaf. *)
Definition leaf_find_first (leaf : list StringData) (value : StringData) (start end_ : Z)
    : option Z :=
  let end_ := if end_ =? npos then Z.of_nat (length leaf) else end_ in
  scan (sd_eqb value) leaf (Z.to_nat (end_ - start)) start end_.

(** Modelled from the spec: [find_first_haystack<20>] is declared in the
    query engine header, outside src/; the design describes it as the scan
    of the haystack for any of the needles: the first row of the range
    whose element is one of them. *)
Definition find_first_haystack (leaf : list StringData) (needles : list StringData)
    (start end_ : Z) : option Z :=
  scan (contains needles) leaf (Z.to_nat (end_ - start)) start end_.

(** [None]: [REALM_ASSERT_3(start, <=, end)] fails, or a read past the
    leaf. *)
Definition _find_first_local (start end_ : Z) (n : t) : option Z :=
  match m_needles n with
  | [] => leaf_find_first (m_leaf n) (m_value n) start end_
  | _ :: _ =>
      let end_ := if end_ =? npos then Z.of_nat (length (m_leaf n)) else end_ in
      if end_ <? start then None
      else find_first_haystack (m_leaf n) (m_needles n) start end_
  end.

(** Modelled from the spec: the disjunction node is declared in the query
    engine header, outside src/; a disjunction matches a row when one of
    its conditions does, so its first match in a range is the least of the
    first matches of its conditions. *)
Fixpoint or_find_first_local (conditions : list t) (start end_ : Z) : option Z :=
  match conditions with
  | [] => Some not_found
  | c :: conditions' =>
      match _find_first_local start end_ c, or_find_first_local conditions' start end_ with
      | Some m, Some m' => Some (Z.min m m')
      | _, _ => None
      end
  end.

(** An equality node as the builder makes it, before any fusion. *)
Definition equal_node (column : Z) (indexed : bool) (leaf : list StringData)
    (value : StringData) : t :=
  {| m_value := value;
     m_needles := [];
     m_has_search_index := indexed;
     m_condition_column_key := column;
     m_leaf := leaf |}.

(** The builder fuses the conditions of [x == v0 OR x == v1 OR ...] into
    the first node, one after the other. *)
Fixpoint consume_all (others : list t) (n : t) : option t :=
  match others with
  | [] => Some n
  | other :: others' =>
      match do_consume_condition other n with
      | Some n' => consume_all others' n'
      | None => None
      end
  end.

(** The element of a row (null outside the leaf, where no scan below
    reads). *)
Definition row_at (leaf : list StringData) (r : Z) : StringData :=
  match leaf !! Z.to_nat r with
  | Some element => element
  | None => None
  end.

Lemma leaf_scan_first_from test leaf count : forall i end_,
  0 <= i -> i + Z.of_nat count = end_ ->
  end_ <= Z.of_nat (length leaf) -> end_ <= not_found ->
  scan test leaf count i end_
  = Some (first_from (fun r => test (row_at leaf r)) count i).
Proof.
  induction count as [|count IH]; intros i end_ H0 Hi Hlen Hnf; [reflexivity|].
  simpl. destruct (Z.ltb_spec i end_); [|lia].
  destruct (lookup_lt_is_Some_2 leaf (Z.to_nat i) ltac:(lia)) as [element He].
  unfold row_at at 1. rewrite He.
  destruct (test element); [reflexivity|].
  rewrite (SizeT.succ_small i end_) by assumption.
  apply IH; lia.
Qed.

Lemma scan_first_match test leaf start end_ :
  0 <= start -> start <= end_ ->
  end_ <= Z.of_nat (length leaf) -> end_ <= not_found ->
  scan test leaf (Z.to_nat (end_ - start)) start end_
  = Some (first_match (fun r => test (row_at leaf r)) start end_).
Proof.
  intros H0 Hse Hlen Hnf. unfold first_match.
  apply leaf_scan_first_from; lia.
Qed.

Lemma first_match_ext p q a b :
  (forall r, p r = q r) -> first_match p a b = first_match q a b.
Proof.
  intros H. unfold first_match. generalize (Z.to_nat (b - a)) as n. intros n.
  revert a. induction n as [|n IH]; intros a; simpl; [reflexivity|].
  rewrite H, IH. reflexivity.
Qed.

Lemma first_match_never a b : first_match (fun _ => false) a b = not_found.
Proof.
  unfold first_match. generalize (Z.to_nat (b - a)) as n. intros n.
  revert a. induction n as [|n IH]; intros a; simpl; [reflexivity | apply IH].
Qed.

(** The first row at which one of two conditions holds is the lesser of
    their first rows. *)
Lemma first_match_or p q a b :
  0 <= a -> a <= b -> b <= not_found ->
  first_match (fun r => p r || q r) a b = Z.min (first_match p a b) (first_match q a b).
Proof.
  intros H0 Hab Hb. symmetry. apply is_first_eq; try assumption.
  pose proof (first_match_spec p a b H0 Hab Hb) as Hp.
  pose proof (first_match_spec q a b H0 Hab Hb) as Hq.
  destruct Hp as [Hallp | rp Hrp Hpp Hallp]; destruct Hq as [Hallq | rq Hrq Hpq Hallq].
  - rewrite Z.min_id. apply is_first_none. intros i Hi.
    now rewrite Hallp, Hallq.
  - rewrite Z.min_r by lia. apply is_first_at; [lia | now rewrite Hpq, orb_true_r |].
    intros i Hi. rewrite Hallp, Hallq by lia. reflexivity.
  - rewrite Z.min_l by lia. apply is_first_at; [lia | now rewrite Hpp |].
    intros i Hi. rewrite Hallp, Hallq by lia. reflexivity.
  - destruct (Z.le_gt_cases rp rq).
    + rewrite Z.min_l by lia. apply is_first_at; [lia | now rewrite Hpp |].
      intros i Hi. rewrite Hallp, Hallq by lia. reflexivity.
    + rewrite Z.min_r by lia. apply is_first_at; [lia | now rewrite Hpq, orb_true_r |].
      intros i Hi. rewrite Hallp, Hallq by lia. reflexivity.
Qed.

Lemma sd_eqb_sym a b : sd_eqb a b = sd_eqb b a.
Proof.
  destruct (sd_eqb a b) eqn:E.
  - apply sd_eqb_eq in E. subst. symmetry. now apply sd_eqb_eq.
  - destruct (sd_eqb b a) eqn:E'; [|reflexivity].
    apply sd_eqb_eq in E'. subst. rewrite (proj2 (sd_eqb_eq a a) eq_refl) in E.
    discriminate.
Qed.

Lemma contains_ext needles needles' x :
  (forall y, In y needles <-> In y needles') -> contains needles x = contains needles' x.
Proof.
  intros H. destruct (contains needles x) eqn:E; symmetry.
  - apply contains_In. apply H. now apply contains_In.
  - destruct (contains needles' x) eqn:E'; [|reflexivity].
    apply contains_In, H, contains_In in E'. congruence.
Qed.

Section Fusion.

Variable column : Z.
Variable leaf : list StringData.

Hypothesis leaf_size : Z.of_nat (length leaf) < not_found.

(** The row holds one of the values. *)
Definition holds_one_of (values : list StringData) (r : Z) : bool :=
  contains values (row_at leaf r).

Lemma equal_node_find_first indexed value start end_ :
  0 <= start -> start <= end_ -> end_ <= Z.of_nat (length leaf) ->
  _find_first_local start end_ (equal_node column indexed leaf value)
  = Some (first_match (holds_one_of [value]) start end_).
Proof.
  intros H0 Hse Hlen. unfold _find_first_local, leaf_find_first. simpl.
  destruct (Z.eqb_spec end_ npos) as [Hn | _]; [unfold npos in Hn; lia|].
  rewrite scan_first_match by lia. f_equal.
  apply first_match_ext. intros r. unfold holds_one_of, contains. simpl.
  rewrite orb_false_r. apply sd_eqb_sym.
Qed.

Lemma or_find_first indexed values start end_ :
  0 <= start -> start <= end_ -> end_ <= Z.of_nat (length leaf) ->
  or_find_first_local (map (equal_node column indexed leaf) values) start end_
  = Some (first_match (holds_one_of values) start end_).
Proof.
  intros H0 Hse Hlen. induction values as [|v values IH]; simpl.
  - f_equal. symmetry. apply first_match_never.
  - rewrite equal_node_find_first, IH by assumption. f_equal.
    rewrite <- first_match_or by lia.
    apply first_match_ext. intros r. unfold holds_one_of, contains. simpl.
    now rewrite orb_false_r.
Qed.

Definition fused_over (n : t) (values : list StringData) : Prop :=
  (forall y, In y (m_needles n) <-> In y values)
  /\ m_needles n <> []
  /\ m_has_search_index n = false
  /\ m_condition_column_key n = column
  /\ m_leaf n = leaf.

Lemma insert_not_nil x needles : insert x needles <> [].
Proof.
  unfold insert. destruct (contains needles x) eqn:E.
  - intros ->. discriminate.
  - now destruct needles.
Qed.

Lemma consume_all_fuses indexed others : forall n values,
  fused_over n values ->
  exists n',
    consume_all (map (equal_node column indexed leaf) others) n = Some n'
    /\ fused_over n' (values ++ others).
Proof.
  induction others as [|v others IH]; intros n values Hn.
  - exists n. split; [reflexivity|]. now rewrite app_nil_r.
  - destruct Hn as (Hin & Hne & Hidx & Hcol & Hleaf).
    simpl. unfold do_consume_condition. simpl.
    rewrite Hcol, Z.eqb_refl. simpl.
    destruct (m_needles n) as [|x needles] eqn:En; [congruence|].
    match goal with
    | |- exists n', consume_all _ ?m = _ /\ _ =>
        destruct (IH m (values ++ [v])) as (n' & E & Hfused)
    end.
    { unfold fused_over. simpl. repeat split; try assumption.
      - intros Hy. apply In_insert in Hy. apply in_or_app.
        destruct Hy as [-> | Hy]; [right; now left | left; now apply Hin].
      - intros Hy. apply In_insert. apply in_app_or in Hy.
        destruct Hy as [Hy | [-> | []]]; [right; now apply Hin | now left].
      - apply insert_not_nil. }
    exists n'. split; [exact E|]. now rewrite <- app_assoc in Hfused.
Qed.

Lemma fused_find_first n values start end_ :
  fused_over n values ->
  0 <= start -> start <= end_ -> end_ <= Z.of_nat (length leaf) ->
  _find_first_local start end_ n = Some (first_match (holds_one_of values) start end_).
Proof.
  intros (Hin & Hne & Hidx & Hcol & Hleaf) H0 Hse Hlen.
  unfold _find_first_local, find_first_haystack.
  destruct (m_needles n) as [|x needles] eqn:En; [congruence|].
  rewrite Hleaf.
  destruct (Z.eqb_spec end_ npos) as [Hn | _]; [unfold npos in Hn; lia|].
  destruct (Z.ltb_spec end_ start); [lia|].
  rewrite scan_first_match by lia. f_equal.
  apply first_match_ext. intros r. unfold holds_one_of.
  now apply contains_ext.
Qed.

(** The rows a scan finds one after the other, as the aggregation loop
    asks for them: the first match from [pos], then the first match after
    it, until [not_found]. *)
Fixpoint rows_found (find_first_local : Z -> Z -> option Z) (fuel : nat) (pos end_ : Z)
    : option (list Z) :=
  match fuel with
  | O => Some []
  | S fuel' =>
      match find_first_local pos end_ with
      | None => None
      | Some r =>
          if r =? not_found then Some []
          else
            match rows_found find_first_local fuel' (SizeT.add r 1) end_ with
            | Some rows => Some (r :: rows)
            | None => None
            end
      end
  end.

Lemma rows_found_same f g values fuel : forall pos end_,
  (forall start, 0 <= start -> start <= end_ ->
     f start end_ = Some (first_match (holds_one_of values) start end_)
     /\ g start end_ = Some (first_match (holds_one_of values) start end_)) ->
  0 <= pos -> pos <= end_ -> end_ <= Z.of_nat (length leaf) ->
  rows_found f fuel pos end_ = rows_found g fuel pos end_.
Proof.
  induction fuel as [|fuel IH]; intros pos end_ Hfg H0 Hpe Hlen; [reflexivity|].
  simpl. destruct (Hfg pos H0 Hpe) as [-> ->].
  destruct (Z.eqb_spec (first_match (holds_one_of values) pos end_) not_found)
    as [| Hfound]; [reflexivity|].
  pose proof (first_match_lt_not_found (holds_one_of values) pos end_ H0 Hpe
                ltac:(lia) Hfound) as Hr.
  rewrite (SizeT.succ_small _ end_) by lia.
  rewrite (IH _ end_ Hfg) by lia. reflexivity.
Qed.

(** C3.  Fusion keeps the meaning of the disjunction.  The node that
    [do_consume_condition] builds from the equality nodes of
    [x == v0 OR x == v1 OR ...] on one column does not use the index, holds
    the values as its needles, and for every range of the leaf returns from
    [find_first_local] what the disjunction of the separate nodes returns:
    the first row that holds one of the values.  Asked again and again
    from the row after the last answer, both produce the same rows in the
    same order. *)
Theorem fusion_preserves_semantics (indexed : bool) (v0 v1 : StringData) (vs : list StringData) :
  let values := v0 :: v1 :: vs in
  let separate := map (equal_node column indexed leaf) values in
  exists fused,
    consume_all (map (equal_node column indexed leaf) (v1 :: vs))
      (equal_node column indexed leaf v0) = Some fused
    /\ m_has_search_index fused = false
    /\ (forall y, In y (m_needles fused) <-> In y values)
    /\ (forall start end_,
          0 <= start -> start <= end_ -> end_ <= Z.of_nat (length leaf) ->
          _find_first_local start end_ fused = or_find_first_local separate start end_
          /\ _find_first_local start end_ fused
             = Some (first_match (holds_one_of values) start end_))
    /\ (forall fuel start end_,
          0 <= start -> start <= end_ -> end_ <= Z.of_nat (length leaf) ->
          rows_found (fun a b => _find_first_local a b fused) fuel start end_
          = rows_found (or_find_first_local separate) fuel start end_).
Proof.
  intros values separate.
  assert (Hfirst : exists n1,
            do_consume_condition (equal_node column indexed leaf v1)
              (equal_node column indexed leaf v0) = Some n1
            /\ fused_over n1 [v0; v1]).
  { unfold do_consume_condition. simpl. rewrite Z.eqb_refl. simpl.
    eexists. split; [reflexivity|].
    unfold fused_over. simpl. repeat split; try reflexivity.
    - intros Hy. apply In_insert in Hy. destruct Hy as [-> | Hy]; [right; now left|].
      apply In_insert in Hy. destruct Hy as [-> | []]. now left.
    - intros Hy. apply In_insert. destruct Hy as [<- | [<- | []]].
      + right. apply In_insert. now left.
      + now left.
    - apply insert_not_nil. }
  destruct Hfirst as (n1 & E1 & Hn1).
  destruct (consume_all_fuses indexed vs n1 [v0; v1] Hn1) as (fused & E & Hfused).
  exists fused. split.
  { simpl. rewrite E1. exact E. }
  pose proof Hfused as (Hin & _ & Hidx & _ & _).
  split; [exact Hidx|]. split; [exact Hin|].
  assert (Hboth : forall start end_,
            0 <= start -> start <= end_ -> end_ <= Z.of_nat (length leaf) ->
            _find_first_local start end_ fused
              = Some (first_match (holds_one_of values) start end_)
            /\ or_find_first_local separate start end_
               = Some (first_match (holds_one_of values) start end_)).
  { intros start end_ H0 Hse Hlen. split.
    - now apply (fused_find_first fused).
    - now apply or_find_first. }
  split.
  - intros start end_ H0 Hse Hlen.
    destruct (Hboth start end_ H0 Hse Hlen) as [Hf Ho]. split; congruence.
  - intros fuel start end_ H0 Hse Hlen.
    apply (rows_found_same _ _ values); try assumption.
    intros s Hs0 Hs. now apply Hboth.
Qed.

End Fusion.

End StringNodeEqual.

(** ** A column of six strings *)

Module StringNodeEqualExample.

Import Stdlib.Strings.String.
Import StringNodeEqual.
Local Open Scope string_scope.

Definition example_leaf : list StringData :=
  [Some "b"; Some "a"; None; Some ""; Some "c"; Some "a"]%string.

Definition example_values : list StringData := [Some "a"; None; Some "c"]%string.

Definition example_fused : t :=
  {| m_value := Some "a"%string;
     m_needles := example_values;
     m_has_search_index := false;
     m_condition_column_key := 7;
     m_leaf := example_leaf |}.

Example consume_all_example :
  consume_all (map (equal_node 7 true example_leaf) [None; Some "c"%string])
    (equal_node 7 true example_leaf (Some "a"%string))
  = Some example_fused.
Proof. vm_compute. reflexivity. Qed.

Example fused_rows :
  rows_found (fun a b => _find_first_local a b example_fused) 10 0 6 = Some [1; 2; 4; 5].
Proof. vm_compute. reflexivity. Qed.

Example separate_rows :
  rows_found (or_find_first_local (map (equal_node 7 true example_leaf) example_values))
    10 0 6
  = Some [1; 2; 4; 5].
Proof. vm_compute. reflexivity. Qed.

Lemma fusion_preserves_semantics_witness :
  exists fused,
    consume_all (map (equal_node 7 true example_leaf) [None; Some "c"%string])
      (equal_node 7 true example_leaf (Some "a"%string)) = Some fused
    /\ m_has_search_index fused = false
    /\ _find_first_local 2 6 fused
       = or_find_first_local (map (equal_node 7 true example_leaf) example_values) 2 6
    /\ rows_found (fun a b => _find_first_local a b fused) 10 0 6
       = rows_found (or_find_first_local (map (equal_node 7 true example_leaf) example_values))
           10 0 6.
Proof.
  assert (Hsize : Z.of_nat (List.length example_leaf) < not_found)
    by (rewrite SizeT.not_found_eq; simpl; lia).
  destruct (fusion_preserves_semantics 7 example_leaf Hsize true
              (Some "a"%string) None [Some "c"%string])
    as (fused & E & Hidx & _ & Hsame & Hrows).
  exists fused. split; [exact E|]. split; [exact Hidx|]. split.
  - apply Hsame; simpl; lia.
  - apply Hrows; simpl; lia.
Defined.

End StringNodeEqualExample.

(** ** [out_mixed]: strings in the JSON output of an object

    The [type_String] case of [out_mixed] (obj.cpp), which [to_json] uses
    for every string property: the string goes out between double quotes,
    with seven characters escaped. *)

Module OutMixed.

Import Stdlib.Strings.Ascii.

(** A [std::string]: its bytes. *)
Definition string : Type := list ascii.

Definition quote : ascii := "034"%char.
Definition backslash : ascii := "092"%char.

(** [to_be_escaped] and [encoding], without the terminating zero. *)
Definition to_be_escaped : string :=
  [quote; "010"; "013"; "009"; "012"; backslash; "008"]%char.
Definition encoding : string :=
  [quote; "n"; "r"; "t"; "f"; backslash; "b"]%char.

(** [str.find_first_of(set)]; [None] is [std::string::npos]. *)
Fixpoint find_first_of (str set : string) : option nat :=
  match str with
  | [] => None
  | c :: rest =>
      if existsb (Ascii.eqb c) set then Some O
      else option_map S (find_first_of rest set)
  end.

(** [strchr(set, c) - set]; [None] is the null pointer. *)
Fixpoint strchr (set : string) (c : ascii) : option nat :=
  match set with
  | [] => None
  | c' :: rest => if Ascii.eqb c' c then Some O else option_map S (strchr rest c)
  end.

(** The [while (p != std::string::npos)] loop and the output after it, one
    round per unit of fuel; [out] is what has been written.  [None]: out of
    fuel, [REALM_ASSERT(found)] fails, or an index is out of range. *)
Fixpoint escape_loop (fuel : nat) (out str : string) : option string :=
  match fuel with
  | O => None
  | S fuel' =>
      match find_first_of str to_be_escaped with
      | None => Some (out ++ str ++ [quote])
      | Some p =>
          match str !! p with
          | None => None
          | Some c =>
              match strchr to_be_escaped c with
              | None => None
              | Some found =>
                  match encoding !! found with
                  | None => None
                  | Some e =>
                      escape_loop fuel' (out ++ take p str ++ [backslash; e])
                        (drop (S p) str)
                  end
              end
          end
      end
  end.

Definition out_mixed_string (val : string) : option string :=
  escape_loop (S (length val)) [quote] val.

(** What is written for one character. *)
Definition escaped (c : ascii) : string :=
  if (c =? quote)%char then [backslash; quote]
  else if (c =? "010")%char then [backslash; "n"%char]
  else if (c =? "013")%char then [backslash; "r"%char]
  else if (c =? "009")%char then [backslash; "t"%char]
  else if (c =? "012")%char then [backslash; "f"%char]
  else if (c =? backslash)%char then [backslash; backslash]
  else if (c =? "008")%char then [backslash; "b"%char]
  else [c].

Definition special (c : ascii) : bool := existsb (Ascii.eqb c) to_be_escaped.

Lemma special_cases c :
  special c = true ->
  c = quote \/ c = "010"%char \/ c = "013"%char \/ c = "009"%char
  \/ c = "012"%char \/ c = backslash \/ c = "008"%char.
Proof.
  unfold special. rewrite existsb_exists. intros (c' & Hin & Heq).
  apply Ascii.eqb_eq in Heq. subst c'. simpl in Hin.
  destruct Hin as [<- | [<- | [<- | [<- | [<- | [<- | [<- | []]]]]]]]; tauto.
Qed.

Lemma special_escaped c :
  special c = true ->
  exists found e,
    strchr to_be_escaped c = Some found
    /\ encoding !! found = Some e
    /\ escaped c = [backslash; e].
Proof.
  intros Hc. apply special_cases in Hc.
  destruct Hc as [-> | [-> | [-> | [-> | [-> | [-> | ->]]]]]];
    eexists _, _; (split; [reflexivity|]); split; reflexivity.
Qed.

Lemma not_special_escaped c : special c = false -> escaped c = [c] /\ c <> backslash.
Proof.
  unfold special. simpl. intros Hc.
  repeat (apply orb_false_iff in Hc; destruct Hc as [? Hc]).
  unfold escaped. rewrite H, H0, H1, H2, H3, H4, H5. split; [reflexivity|].
  now apply Ascii.eqb_neq.
Qed.

Lemma find_first_of_None str :
  find_first_of str to_be_escaped = None -> List.flat_map escaped str = str.
Proof.
  induction str as [|c rest IH]; [reflexivity|].
  cbn [find_first_of List.flat_map].
  change (existsb (Ascii.eqb c) to_be_escaped) with (special c). intros Hnone.
  destruct (special c) eqn:Hc; [discriminate|].
  destruct (find_first_of rest to_be_escaped); [discriminate|].
  rewrite IH by reflexivity.
  now rewrite (proj1 (not_special_escaped c Hc)).
Qed.

Lemma find_first_of_Some str : forall p,
  find_first_of str to_be_escaped = Some p ->
  exists c,
    str !! p = Some c /\ special c = true
    /\ List.flat_map escaped (take p str) = take p str
    /\ (p < length str)%nat.
Proof.
  induction str as [|c rest IH]; intros p; [discriminate|].
  cbn [find_first_of].
  change (existsb (Ascii.eqb c) to_be_escaped) with (special c).
  intros Hsome. destruct (special c) eqn:Hc.
  - injection Hsome as <-. exists c. simpl. repeat split; [assumption | lia].
  - destruct (find_first_of rest to_be_escaped) as [p'|]; [|discriminate].
    injection Hsome as <-.
    destruct (IH p' eq_refl) as (c' & Hat & Hc' & Hbefore & Hlen).
    exists c'. simpl. rewrite Hbefore, (proj1 (not_special_escaped c Hc)).
    repeat split; [assumption | assumption | lia].
Qed.

Lemma escape_loop_run fuel : forall out str,
  (length str < fuel)%nat ->
  escape_loop fuel out str = Some (out ++ List.flat_map escaped str ++ [quote]).
Proof.
  induction fuel as [|fuel IH]; intros out str Hfuel; [lia|].
  cbn [escape_loop]. destruct (find_first_of str to_be_escaped) as [p|] eqn:Hfind.
  - destruct (find_first_of_Some str p Hfind) as (c & Hat & Hc & Hbefore & Hlen).
    rewrite Hat.
    destruct (special_escaped c Hc) as (found & e & Hfound & He & Hesc).
    rewrite Hfound, He.
    rewrite IH by (rewrite length_drop; lia).
    assert (Hstr : List.flat_map escaped str
                   = take p str ++ [backslash; e]
                     ++ List.flat_map escaped (drop (S p) str)).
    { transitivity (List.flat_map escaped (take p str ++ c :: drop (S p) str));
        [now rewrite take_drop_middle|].
      rewrite flat_map_app. cbn [List.flat_map]. now rewrite Hbefore, Hesc. }
    rewrite Hstr. f_equal. now rewrite <- !app_assoc.
  - now rewrite (find_first_of_None str Hfind).
Qed.

(** X25.  The string goes out between two double quotes; each of the seven
    characters double quote, newline, carriage return, tab, form feed,
    backslash and backspace is replaced by a backslash and its letter, and
    every other byte is written as it is. *)
Theorem out_mixed_string_escapes_each_character (val : string) :
  out_mixed_string val = Some ([quote] ++ List.flat_map escaped val ++ [quote]).
Proof. unfold out_mixed_string. apply escape_loop_run. lia. Qed.


Lemma escaped_injective : forall s1 s2,
  List.flat_map escaped s1 = List.flat_map escaped s2 -> s1 = s2.
Proof.
  assert (Hhead : forall c, special c = true ->
            exists e, escaped c = [backslash; e]).
  { intros c Hc. destruct (special_escaped c Hc) as (_ & e & _ & _ & He). now exists e. }
  assert (Hcode : forall c1 c2 e, special c1 = true -> special c2 = true ->
            escaped c1 = [backslash; e] -> escaped c2 = [backslash; e] -> c1 = c2).
  { intros c1 c2 e H1 H2. apply special_cases in H1. apply special_cases in H2.
    destruct H1 as [-> | [-> | [-> | [-> | [-> | [-> | ->]]]]]];
      destruct H2 as [-> | [-> | [-> | [-> | [-> | [-> | ->]]]]]];
      intros [= <-]; try reflexivity; intros [= ?]. }
  induction s1 as [|c1 s1 IH]; intros [|c2 s2] Heq; simpl in Heq.
  - reflexivity.
  - destruct (special c2) eqn:H2.
    + destruct (Hhead c2 H2) as (e & He). rewrite He in Heq. discriminate.
    + rewrite (proj1 (not_special_escaped c2 H2)) in Heq. discriminate.
  - destruct (special c1) eqn:H1.
    + destruct (Hhead c1 H1) as (e & He). rewrite He in Heq. discriminate.
    + rewrite (proj1 (not_special_escaped c1 H1)) in Heq. discriminate.
  - destruct (special c1) eqn:H1, (special c2) eqn:H2.
    + destruct (Hhead c1 H1) as (e1 & He1). destruct (Hhead c2 H2) as (e2 & He2).
      rewrite He1, He2 in Heq. injection Heq as <- Heq.
      f_equal; [now apply (Hcode c1 c2 e1) | now apply IH].
    + destruct (Hhead c1 H1) as (e1 & He1).
      destruct (not_special_escaped c2 H2) as [He2 Hne].
      rewrite He1, He2 in Heq. injection Heq as Hb _. congruence.
    + destruct (Hhead c2 H2) as (e2 & He2).
      destruct (not_special_escaped c1 H1) as [He1 Hne].
      rewrite He1, He2 in Heq. injection Heq as Hb _. congruence.
    + rewrite (proj1 (not_special_escaped c1 H1)),
        (proj1 (not_special_escaped c2 H2)) in Heq.
      injection Heq as <- Heq. f_equal. now apply IH.
Qed.

(** X26.  The output determines the string: two strings with the same output are
    the same string, so the escaping can be undone. *)
Theorem out_mixed_string_injective (val1 val2 : string) :
  out_mixed_string val1 = out_mixed_string val2 -> val1 = val2.
Proof.
  unfold out_mixed_string. rewrite !escape_loop_run by lia. intros [= Heq].
  apply app_inv_tail in Heq. now apply escaped_injective.
Qed.

(** [say "hi"] followed by a newline. *)
Example out_mixed_string_example :
  out_mixed_string ["s"; "a"; "y"; " "; quote; "h"; "i"; quote; "010"]%char
  = Some [quote; "s"; "a"; "y"; " "; backslash; quote; "h"; "i"; backslash; quote;
          backslash; "n"; quote]%char.
Proof. reflexivity. Qed.

Lemma out_mixed_string_injective_witness :
  [backslash; "n"]%char = [backslash; "n"]%char.
Proof.
  apply (out_mixed_string_injective [backslash; "n"]%char [backslash; "n"]%char).
  reflexivity.
Defined.

End OutMixed.

(** ** [ConstObj::cmp]: comparing a column of two objects *)

Module ConstObj.

Import Mixed.

(** [val1 < val2] on two [float]s or [double]s given by their bit
    patterns: as IEEE has it, false when either is a NaN. *)
Definition float_lt (f : format) (val1 val2 : Z) : bool :=
  negb (isnan f val1) && negb (isnan f val2) && ieee_lt f val1 val2.

(** The template [cmp<T>] at [T = Float] and [T = Double]; [val1 > val2]
    is [val2 < val1]. *)
Definition cmp_float (f : format) (val1 val2 : Z) : Z :=
  if float_lt f val1 val2 then -1
  else if float_lt f val2 val1 then 1
  else 0.

(** At [T = Int], [Bool] (as 0 and 1) and [ObjKey] (by its value). *)
Definition cmp_int (val1 val2 : Z) : Z :=
  if val1 <? val2 then -1
  else if val2 <? val1 then 1
  else 0.

(** X27.  [cmp] and [Mixed::compare] give the same answer on integers and on
    floating-point values that are not NaN.  They part on NaN: [cmp] finds
    a NaN equal to every value, where [Mixed::compare] puts it below every
    value that is not a NaN. *)
Theorem cmp_agrees_with_compare_except_on_nan (f : format) (val1 val2 : Z) :
  (isnan f val1 = false -> isnan f val2 = false ->
   cmp_float f val1 val2 = compare_float f val1 val2)
  /\ (isnan f val1 = true \/ isnan f val2 = true -> cmp_float f val1 val2 = 0)
  /\ (forall utf8_compare memcmp timestamp_gt timestamp_lt,
        compare utf8_compare memcmp timestamp_gt timestamp_lt (Int val1) (Int val2)
        = Some (cmp_int val1 val2)).
Proof.
  split; [|split].
  - intros H1 H2. unfold cmp_float, float_lt, compare_float, ieee_eq, ieee_lt.
    rewrite H1, H2. cbn [negb andb].
    destruct (Z.ltb_spec (ordinal f val1) (ordinal f val2)),
             (Z.ltb_spec (ordinal f val2) (ordinal f val1)),
             (Z.eqb_spec (ordinal f val1) (ordinal f val2)); lia.
  - intros Hnan. unfold cmp_float, float_lt.
    destruct Hnan as [H | H]; rewrite H; cbn [negb andb];
      rewrite ?andb_false_r; reflexivity.
  - intros. unfold compare, cmp_int. cbn [is_null].
    destruct (Z.ltb_spec val2 val1), (Z.ltb_spec val1 val2); try reflexivity; lia.
Qed.

Example cmp_float_nan : cmp_float binary64 nan_a one = 0 /\ cmp_float binary64 one nan_a = 0.
Proof. split; vm_compute; reflexivity. Qed.

Lemma cmp_agrees_with_compare_except_on_nan_witness :
  cmp_float binary64 minus_infinity one = compare_float binary64 minus_infinity one
  /\ cmp_float binary64 nan_a one = 0.
Proof.
  pose proof (cmp_agrees_with_compare_except_on_nan binary64 minus_infinity one)
    as (Hsame & _ & _).
  pose proof (cmp_agrees_with_compare_except_on_nan binary64 nan_a one)
    as (_ & Hnan & _).
  split.
  - apply Hsame; vm_compute; reflexivity.
  - apply Hnan. left. vm_compute. reflexivity.
Defined.

End ConstObj.

(** ** [ConstLstIf<T>::sort] and [ConstLstIf<T>::distinct] *)

Module ConstLstIf.

(** [i = from, from + 1, ...]: [count] indices. *)
Fixpoint indices_from (from : Z) (count : nat) : list Z :=
  match count with
  | O => []
  | S count' => from :: indices_from (from + 1) count'
  end.

(** [std::unique(first, last, pred)]: an element is dropped when [pred]
    holds of the last element kept and it. *)
Fixpoint unique_after (pred : Z -> Z -> bool) (kept : Z) (l : list Z) : list Z :=
  match l with
  | [] => []
  | x :: rest =>
      if pred kept x then unique_after pred kept rest
      else x :: unique_after pred x rest
  end.

Definition unique (pred : Z -> Z -> bool) (l : list Z) : list Z :=
  match l with
  | [] => []
  | x :: rest => x :: unique_after pred x rest
  end.

(** Insertion sort, as one [std::sort]. *)
Fixpoint insert_sorted (comp : Z -> Z -> bool) (x : Z) (l : list Z) : list Z :=
  match l with
  | [] => [x]
  | y :: rest => if comp y x then y :: insert_sorted comp x rest else x :: l
  end.

Definition insertion_sort (comp : Z -> Z -> bool) (l : list Z) : list Z :=
  fold_right (insert_sorted comp) [] l.

(** What [std::sort] asks of its comparison, a strict weak ordering: it is
    irreflexive and transitive, and so is "neither is before the other". *)
Definition strict_weak_ordering (comp : Z -> Z -> bool) : Prop :=
  (forall a, comp a a = false)
  /\ (forall a b c, comp a b = true -> comp b c = true -> comp a c = true)
  /\ (forall a b c,
        comp a b = false -> comp b a = false ->
        comp b c = false -> comp c b = false ->
        comp a c = false).

Section Sort.

(** The element type of the list, with its [operator<], [operator>] and
    [operator==]. *)
Context {T : Type}.
Variable less greater equal : T -> T -> bool.

(** [std::sort(b, e, comp)]: which algorithm it runs is not laid down, only
    what it delivers for a strict weak ordering: the same elements, none
    placed after an element it is before. *)
Variable std_sort : (Z -> Z -> bool) -> list Z -> list Z.

(** [m_tree]: the elements of the list.  [m_tree->get(i)] is asked at
    positions of the list only: the indices [distinct] sorts are
    [0 .. size - 1] (past the end the tree asserts; [absent] stands in
    there). *)
Variable values : list T.
Variable absent : T.

Definition size : Z := Z.of_nat (length values).

Definition get (i : Z) : T := nth (Z.to_nat i) values absent.

Definition sort (indices : list Z) (ascending : bool) : list Z :=
  let sz := size in
  let sz2 := Z.of_nat (length indices) in
  let '(indices, sz2) := if sz <? sz2 then ([], 0) else (indices, sz2) in
  let indices := indices ++ indices_from sz2 (Z.to_nat (sz - sz2)) in
  if ascending then std_sort (fun i1 i2 => less (get i1) (get i2)) indices
  else std_sort (fun i1 i2 => greater (get i1) (get i2)) indices.

(** [sort_order] is the optional direction; the vector handed in is
    cleared first. *)
Definition distinct (sort_order : option bool) : list Z :=
  let indices := sort [] (match sort_order with Some order => order | None => true end) in
  let indices := unique (fun i1 i2 => equal (get i1) (get i2)) indices in
  match sort_order with
  | Some _ => indices
  | None => std_sort (fun a b => a <? b) indices
  end.

(** The comparison of the chosen direction. *)
Definition before (ascending : bool) (a b : T) : bool :=
  if ascending then less a b else greater a b.

Lemma sort_before indices ascending :
  sort indices ascending
  = std_sort (fun i1 i2 => before ascending (get i1) (get i2))
      ((if size <? Z.of_nat (length indices) then [] else indices)
       ++ indices_from (if size <? Z.of_nat (length indices) then 0
                        else Z.of_nat (length indices))
            (Z.to_nat (size - (if size <? Z.of_nat (length indices) then 0
                               else Z.of_nat (length indices))))).
Proof.
  unfold sort. cbv zeta.
  destruct (size <? Z.of_nat (length indices)); destruct ascending; reflexivity.
Qed.

Lemma indices_from_spec count : forall from i,
  In i (indices_from from count) <-> from <= i < from + Z.of_nat count.
Proof.
  induction count as [|count IH]; intros from i; simpl.
  - split; [intros [] | lia].
  - rewrite IH. split; [intros [<- | H]; lia | intros H].
    destruct (Z.eq_dec from i); [now left | right; lia].
Qed.

Lemma get_in_values i : 0 <= i < size -> In (get i) values.
Proof. intros Hi. unfold get. apply nth_In. unfold size in Hi. lia. Qed.

Lemma value_has_index v : In v values -> exists i, 0 <= i < size /\ get i = v.
Proof.
  intros Hv. apply (In_nth _ _ absent) in Hv. destruct Hv as (k & Hk & Hnth).
  exists (Z.of_nat k). unfold get, size. rewrite Nat2Z.id. split; [lia | exact Hnth].
Qed.

(** The operators of [T] are those of a total order: [<] is irreflexive
    and transitive, two elements neither of which is below the other are
    the same, [>] is [<] with the operands swapped, and [==] holds of an
    element and itself only.  (So for [int64_t], [bool], [ObjKey] and
    [Timestamp]; not for [float] and [double], where a NaN is not [==] to
    itself.) *)
Hypothesis less_irreflexive : forall a, less a a = false.
Hypothesis less_transitive :
  forall a b c, less a b = true -> less b c = true -> less a c = true.
Hypothesis less_total : forall a b, less a b = false -> less b a = false -> a = b.
Hypothesis greater_less : forall a b, greater a b = less b a.
Hypothesis equal_same : forall a b, equal a b = true <-> a = b.

Hypothesis std_sort_sorts :
  forall (comp : Z -> Z -> bool) (l : list Z),
    strict_weak_ordering comp ->
    Permutation (std_sort comp l) l
    /\ StronglySorted (fun a b => comp b a = false) (std_sort comp l).

Lemma before_irreflexive ascending a : before ascending a a = false.
Proof. unfold before. destruct ascending; [|rewrite greater_less]; apply less_irreflexive. Qed.

Lemma before_transitive ascending a b c :
  before ascending a b = true -> before ascending b c = true ->
  before ascending a c = true.
Proof.
  unfold before. destruct ascending; [apply less_transitive|].
  rewrite !greater_less. intros Hab Hbc. now apply (less_transitive c b a).
Qed.

Lemma before_total ascending a b :
  before ascending a b = false -> before ascending b a = false -> a = b.
Proof.
  unfold before. destruct ascending; [apply less_total|].
  rewrite !greater_less. intros Hab Hba. now apply less_total.
Qed.

Lemma before_strict_weak_ordering ascending :
  strict_weak_ordering (fun i1 i2 => before ascending (get i1) (get i2)).
Proof.
  split; [|split].
  - intros a. apply before_irreflexive.
  - intros a b c. apply before_transitive.
  - intros a b c Hab Hba Hbc Hcb.
    rewrite (before_total ascending _ _ Hab Hba), (before_total ascending _ _ Hbc Hcb).
    apply before_irreflexive.
Qed.

Lemma ltb_strict_weak_ordering : strict_weak_ordering (fun a b => a <? b).
Proof.
  split; [|split].
  - intros a. apply Z.ltb_irrefl.
  - intros a b c Hab Hbc. apply Z.ltb_lt in Hab, Hbc. apply Z.ltb_lt. lia.
  - intros a b c Hab Hba Hbc Hcb.
    apply Z.ltb_ge in Hab, Hba, Hbc, Hcb. apply Z.ltb_ge. lia.
Qed.

Lemma unique_after_spec ascending (l : list Z) : forall kept,
  StronglySorted (fun a b => before ascending (get b) (get a) = false) (kept :: l) ->
  StronglySorted (fun a b => before ascending (get a) (get b) = true)
    (kept :: unique_after (fun a b => equal (get a) (get b)) kept l)
  /\ (forall x, In x (unique_after (fun a b => equal (get a) (get b)) kept l) -> In x l)
  /\ (forall x, In x l ->
        exists y, In y (kept :: unique_after (fun a b => equal (get a) (get b)) kept l)
                  /\ get y = get x).
Proof.
  induction l as [|x rest IH]; intros kept Hsorted; simpl.
  - split; [repeat constructor|]. split; [intros x []| intros x []].
  - apply StronglySorted_inv in Hsorted. destruct Hsorted as [Hrest Hkept].
    pose proof Hrest as Hrest'.
    apply StronglySorted_inv in Hrest'. destruct Hrest' as [Hrest'' Hx].
    inversion Hkept as [|x' l' Hkx Hkrest]; subst.
    destruct (equal (get kept) (get x)) eqn:Hequal.
    + apply equal_same in Hequal.
      destruct (IH kept) as (S1 & S2 & S3).
      { constructor; assumption. }
      split; [exact S1|]. split.
      * intros y Hy. right. now apply S2.
      * intros y [Hxy | Hy]; [subst y; exists kept; split; [now left | exact Hequal]|].
        now apply S3.
    + assert (Hbefore : before ascending (get kept) (get x) = true).
      { destruct (before ascending (get kept) (get x)) eqn:Hb; [reflexivity|].
        pose proof (before_total ascending _ _ Hb Hkx) as Hsame.
        apply equal_same in Hsame. congruence. }
      destruct (IH x Hrest) as (S1 & S2 & S3).
      split; [|split].
      * constructor; [exact S1|]. constructor; [exact Hbefore|].
        apply StronglySorted_inv in S1. destruct S1 as [_ S1].
        eapply Forall_impl; [exact S1|]. intros y Hy. simpl in Hy.
        now apply (before_transitive ascending _ (get x)).
      * intros y [Hxy | Hy]; [now left | right; now apply S2].
      * intros y [Hxy | Hy].
        -- subst y. exists x. split; [right; now left | reflexivity].
        -- destruct (S3 y Hy) as (z & Hz & Hkey). exists z. split; [now right | exact Hkey].
Qed.

Lemma unique_spec ascending (l : list Z) :
  StronglySorted (fun a b => before ascending (get b) (get a) = false) l ->
  StronglySorted (fun a b => before ascending (get a) (get b) = true)
    (unique (fun a b => equal (get a) (get b)) l)
  /\ (forall x, In x (unique (fun a b => equal (get a) (get b)) l) -> In x l)
  /\ (forall x, In x l ->
        exists y, In y (unique (fun a b => equal (get a) (get b)) l) /\ get y = get x).
Proof.
  destruct l as [|kept l]; simpl; intros Hsorted.
  - split; [constructor|]. split; [intros x [] | intros x []].
  - destruct (unique_after_spec ascending l kept Hsorted) as (S1 & S2 & S3).
    split; [exact S1|]. split.
    + intros x [Hx | Hx]; [now left | right; now apply S2].
    + intros x [Hx | Hx]; [subst x; exists kept; split; [now left | reflexivity]
                          | now apply S3].
Qed.

(** X28.  For an element type whose operators are those of a total order,
    what [distinct] leaves in the vector: positions of the list, one for
    every value the list holds and no two with the same value; in the order
    of the positions when no direction is given, else in the order of the
    values, ascending or descending as asked. *)
Theorem distinct_keeps_one_index_per_value (sort_order : option bool) :
  Forall (fun i => 0 <= i < size) (distinct sort_order)
  /\ List.NoDup (map get (distinct sort_order))
  /\ (forall v, In v values <-> In v (map get (distinct sort_order)))
  /\ match sort_order with
     | None => StronglySorted Z.lt (distinct sort_order)
     | Some true =>
         StronglySorted (fun a b => less a b = true) (map get (distinct sort_order))
     | Some false =>
         StronglySorted (fun a b => less b a = true) (map get (distinct sort_order))
     end.
Proof.
  set (ascending := match sort_order with Some order => order | None => true end).
  assert (Hsort : Permutation (sort [] ascending) (indices_from 0 (length values))
                  /\ StronglySorted
                       (fun a b => before ascending (get b) (get a) = false)
                       (sort [] ascending)).
  { rewrite sort_before. unfold size. simpl length.
    destruct (Z.ltb_spec (Z.of_nat (length values)) (Z.of_nat 0)); [lia|].
    rewrite Z.sub_0_r, Nat2Z.id. simpl app.
    apply (std_sort_sorts (fun i1 i2 => before ascending (get i1) (get i2))).
    apply before_strict_weak_ordering. }
  destruct Hsort as [Hperm Hsorted].
  set (sorted := sort [] ascending) in *.
  set (kept := unique (fun i1 i2 => equal (get i1) (get i2)) sorted).
  destruct (unique_spec ascending sorted Hsorted) as (U1 & U2 & U3).
  fold kept in U1, U2, U3.
  assert (Hrange : forall i, In i kept -> 0 <= i < size).
  { intros i Hi. apply U2 in Hi. apply (Permutation_in _ Hperm) in Hi.
    apply indices_from_spec in Hi. unfold size. lia. }
  assert (Hvalues_nodup : List.NoDup (map get kept)).
  { clear - U1 less_irreflexive greater_less.
    induction kept as [|x l IH]; simpl; [constructor|].
    apply StronglySorted_inv in U1. destruct U1 as [Hl Hx].
    constructor; [|now apply IH].
    intros Hin. apply in_map_iff in Hin. destruct Hin as (y & Hy & Hyl).
    rewrite List.Forall_forall in Hx. specialize (Hx y Hyl).
    rewrite Hy, before_irreflexive in Hx. discriminate. }
  assert (Hvalues_all : forall v, In v values <-> In v (map get kept)).
  { intros v. split.
    - intros Hv. destruct (value_has_index v Hv) as (i & Hi & Hget).
      assert (Hin : In i sorted).
      { apply (Permutation_in _ (Permutation_sym Hperm)).
        apply indices_from_spec. unfold size in Hi. lia. }
      destruct (U3 i Hin) as (y & Hy & Hkey).
      apply in_map_iff. exists y. split; [|exact Hy].
      now rewrite <- Hget.
    - intros Hv. apply in_map_iff in Hv. destruct Hv as (i & <- & Hi).
      apply get_in_values. now apply Hrange. }
  assert (Hdistinct : distinct sort_order
                      = match sort_order with
                        | Some _ => kept
                        | None => std_sort (fun a b => a <? b) kept
                        end) by reflexivity.
  rewrite Hdistinct.
  destruct sort_order as [order|].
  - split; [now apply List.Forall_forall|]. split; [exact Hvalues_nodup|].
    split; [exact Hvalues_all|].
    simpl in ascending. clear - U1 greater_less.
    destruct order; subst ascending; unfold before in U1.
    + induction kept as [|x l IH]; simpl; [constructor|].
      apply StronglySorted_inv in U1. destruct U1 as [Hl Hx].
      constructor; [now apply IH|]. apply Forall_map.
      eapply Forall_impl; [exact Hx|]. intros y Hy. exact Hy.
    + induction kept as [|x l IH]; simpl; [constructor|].
      apply StronglySorted_inv in U1. destruct U1 as [Hl Hx].
      constructor; [now apply IH|]. apply Forall_map.
      eapply Forall_impl; [exact Hx|]. intros y Hy. simpl in *.
      now rewrite greater_less in Hy.
  - destruct (std_sort_sorts (fun a b => a <? b) kept ltb_strict_weak_ordering)
      as [Hperm2 Hsorted2].
    set (final := std_sort (fun a b => a <? b) kept) in *.
    split; [|split; [|split]].
    + apply List.Forall_forall. intros i Hi. apply Hrange.
      now apply (Permutation_in _ Hperm2).
    + apply (Permutation_NoDup (l := map get kept)); [|exact Hvalues_nodup].
      apply Permutation_map. now apply Permutation_sym.
    + intros v. rewrite Hvalues_all. split; intros Hv.
      * apply (Permutation_in _ (Permutation_map _ (Permutation_sym Hperm2))). exact Hv.
      * apply (Permutation_in _ (Permutation_map _ Hperm2)). exact Hv.
    + assert (Hnodup : List.NoDup final).
      { apply (Permutation_NoDup (l := kept)); [now apply Permutation_sym|].
        apply (NoDup_map_inv get). exact Hvalues_nodup. }
      clear - Hsorted2 Hnodup. induction final as [|x l IH]; [constructor|].
      apply StronglySorted_inv in Hsorted2. destruct Hsorted2 as [Hl Hx].
      apply List.NoDup_cons_iff in Hnodup. destruct Hnodup as [Hnotin Hnodup].
      constructor; [now apply IH|].
      rewrite List.Forall_forall in *. intros y Hy. specialize (Hx y Hy).
      apply Z.ltb_ge in Hx.
      assert (x <> y) by (intros ->; contradiction). lia.
Qed.

End Sort.

Lemma insert_sorted_perm comp x l : Permutation (insert_sorted comp x l) (x :: l).
Proof.
  induction l as [|y rest IH]; simpl; [reflexivity|].
  destruct (comp y x); [|reflexivity].
  rewrite IH. apply perm_swap.
Qed.

(** In a strict weak ordering "is not before" is transitive. *)
Lemma strict_weak_not_before comp x y z :
  strict_weak_ordering comp ->
  comp y x = false -> comp z y = false -> comp z x = false.
Proof.
  intros (Hirr & Htrans & Hequiv) Hyx Hzy.
  destruct (comp z x) eqn:Hzx; [|reflexivity].
  destruct (comp y z) eqn:Hyz.
  { rewrite (Htrans y z x Hyz Hzx) in Hyx. discriminate. }
  destruct (comp x y) eqn:Hxy.
  { rewrite (Htrans z x y Hzx Hxy) in Hzy. discriminate. }
  rewrite (Hequiv z y x Hzy Hyz Hyx Hxy) in Hzx. discriminate.
Qed.

Lemma insert_sorted_sorted comp x l :
  strict_weak_ordering comp ->
  StronglySorted (fun a b => comp b a = false) l ->
  StronglySorted (fun a b => comp b a = false) (insert_sorted comp x l).
Proof.
  intros Hswo Hsorted. induction l as [|y rest IH]; simpl.
  - repeat constructor.
  - apply StronglySorted_inv in Hsorted. destruct Hsorted as [Hrest Hy].
    destruct (comp y x) eqn:Hyx.
    + constructor; [now apply IH|].
      rewrite insert_sorted_perm.
      constructor; [|exact Hy].
      destruct Hswo as (Hirr & Htrans & _).
      destruct (comp x y) eqn:Hxy; [|reflexivity].
      pose proof (Htrans y x y Hyx Hxy) as Hyy. rewrite Hirr in Hyy. discriminate.
    + constructor; [now constructor|]. constructor; [exact Hyx|].
      eapply Forall_impl; [exact Hy|]. intros z Hz. simpl in Hz.
      now apply (strict_weak_not_before comp x y z).
Qed.

Lemma insertion_sort_sorts :
  forall (comp : Z -> Z -> bool) (l : list Z),
    strict_weak_ordering comp ->
    Permutation (insertion_sort comp l) l
    /\ StronglySorted (fun a b => comp b a = false) (insertion_sort comp l).
Proof.
  intros comp l Hswo. induction l as [|x l [IHp IHs]]; simpl.
  - split; constructor.
  - split.
    + rewrite insert_sorted_perm. now constructor.
    + now apply insert_sorted_sorted.
Qed.

(** The list 5, 3, 5, 1, 3 of integers. *)
Example distinct_example :
  distinct Z.ltb Z.gtb Z.eqb insertion_sort [5; 3; 5; 1; 3] 0 None = [0; 1; 3]
  /\ distinct Z.ltb Z.gtb Z.eqb insertion_sort [5; 3; 5; 1; 3] 0 (Some true) = [3; 1; 0]
  /\ distinct Z.ltb Z.gtb Z.eqb insertion_sort [5; 3; 5; 1; 3] 0 (Some false) = [0; 1; 3].
Proof. repeat split; vm_compute; reflexivity. Qed.

Lemma distinct_keeps_one_index_per_value_witness :
  Forall (fun i => 0 <= i < size [5; 3; 5; 1; 3])
    (distinct Z.ltb Z.gtb Z.eqb insertion_sort [5; 3; 5; 1; 3] 0 None)
  /\ List.NoDup (map (get [5; 3; 5; 1; 3] 0)
                   (distinct Z.ltb Z.gtb Z.eqb insertion_sort [5; 3; 5; 1; 3] 0 None))
  /\ (forall v, In v [5; 3; 5; 1; 3]
                <-> In v (map (get [5; 3; 5; 1; 3] 0)
                            (distinct Z.ltb Z.gtb Z.eqb insertion_sort
                               [5; 3; 5; 1; 3] 0 None)))
  /\ StronglySorted Z.lt
       (distinct Z.ltb Z.gtb Z.eqb insertion_sort [5; 3; 5; 1; 3] 0 None).
Proof.
  apply (distinct_keeps_one_index_per_value
           Z.ltb Z.gtb Z.eqb insertion_sort [5; 3; 5; 1; 3] 0
           Z.ltb_irrefl).
  - intros a b c Hab Hbc. apply Z.ltb_lt in Hab, Hbc. apply Z.ltb_lt. lia.
  - intros a b Hab Hba. apply Z.ltb_ge in Hab, Hba. lia.
  - intros a b. apply Z.gtb_ltb.
  - intros a b. apply Z.eqb_eq.
  - exact insertion_sort_sorts.
Defined.

(** [double]s by their bit patterns, with [==] as IEEE has it: false when
    either operand is a NaN.  These are not the operators of a total order,
    and a list that holds the same NaN twice keeps both positions. *)
Definition double_equal (a b : Z) : bool :=
  negb (Mixed.isnan Mixed.binary64 a) && negb (Mixed.isnan Mixed.binary64 b)
  && Mixed.ieee_eq Mixed.binary64 a b.

Example distinct_keeps_both_nans :
  double_equal Mixed.nan_a Mixed.nan_a = false
  /\ distinct (ConstObj.float_lt Mixed.binary64)
       (fun a b => ConstObj.float_lt Mixed.binary64 b a) double_equal
       insertion_sort [Mixed.nan_a; Mixed.one; Mixed.nan_a] 0 None
     = [0; 1; 2].
Proof. split; vm_compute; reflexivity. Qed.

End ConstLstIf.
